(** * Sidebar history banner: history tracking and labelling engine

    A shallow embedding of the client component [SidebarHistoryBanner]
    (path normalisation, label resolution, the history store kept in
    [localStorage], the two effects run on navigation and the deferred
    label refinement) together with the properties of its specification.

    Conventions of the embedding.
    - A JavaScript string is a [string]: a sequence of code units.  Every
      test the component makes on a code unit is a test against ASCII
      characters, and a unit outside ASCII fails all of them.
    - A JavaScript [number] used as a count or an index is a [Z].
    - A value produced by [JSON.parse] is a [json].
    - Code that can raise returns a [result]. *)

From stdpp Require Import gmap strings list fin_maps sorting.
From Stdlib Require Import ZArith Ascii String DecimalString Lia Bool.

Set Warnings "-register-all".

Local Open Scope string_scope.
Local Open Scope Z_scope.

(** ** JavaScript primitives used by the component *)

Module Js.

(** Truthiness of a string: the empty string is falsy. *)
Definition truthy (s : string) : bool :=
  match s with EmptyString => false | String _ _ => true end.

(** Truthiness of a [string | null] or [string | undefined] value. *)
Definition truthy_opt (o : option string) : bool :=
  match o with None => false | Some s => truthy s end.

(** [s.startsWith(p)]. *)
Fixpoint startsWith (p s : string) : bool :=
  match p, s with
  | EmptyString, _ => true
  | String a p', String b s' => if Ascii.eqb a b then startsWith p' s' else false
  | String _ _, EmptyString => false
  end.

(** [s.slice(n)] for a non-negative [n]. *)
Fixpoint str_slice_from (n : nat) (s : string) : string :=
  match n, s with
  | O, _ => s
  | S n', String _ s' => str_slice_from n' s'
  | S _, EmptyString => EmptyString
  end.

(** [s.includes(p)]. *)
Fixpoint includes (p s : string) : bool :=
  startsWith p s ||
  match s with
  | EmptyString => false
  | String _ s' => includes p s'
  end.

(** [s.split(sep)] for a separator of one code unit. *)
Fixpoint split (sep : ascii) (s : string) : list string :=
  match s with
  | EmptyString => [EmptyString]
  | String c s' =>
      if Ascii.eqb c sep then EmptyString :: split sep s'
      else match split sep s' with
           | [] => [String c EmptyString]
           | w :: ws => String c w :: ws
           end
  end.

(** [l.join(sep)] on an array of strings. *)
Fixpoint join (sep : string) (l : list string) : string :=
  match l with
  | [] => EmptyString
  | [x] => x
  | x :: rest => x +:+ sep +:+ join sep rest
  end.

(** Relative index of [Array.prototype.slice]: a negative index counts
    from the end, and the result is clamped to [0 .. len]. *)
Definition rel_index (len i : Z) : Z :=
  if i <? 0 then Z.max (len + i) 0 else Z.min i len.

(** [l.slice(start, end)]; [None] for an omitted [end]. *)
Definition slice {A} (l : list A) (start : Z) (end_ : option Z) : list A :=
  let len := Z.of_nat (List.length l) in
  let k := rel_index len start in
  let final := match end_ with None => len | Some e => rel_index len e end in
  take (Z.to_nat (final - k)) (drop (Z.to_nat k) l).

(** [l[i]]: [undefined] outside the array. *)
Definition index {A} (l : list A) (i : Z) : option A :=
  if i <? 0 then None else l !! Z.to_nat i.

(** Code of a unit, for range tests. *)
Definition code (c : ascii) : N := N_of_ascii c.

Definition in_range (lo hi c : ascii) : bool :=
  (code lo <=? code c)%N && (code c <=? code hi)%N.

(** [c.toUpperCase()] on one ASCII unit. *)
Definition toUpperCase_char (c : ascii) : ascii :=
  if in_range "a" "z" c then ascii_of_N (code c - 32) else c.

(** The class [\w]. *)
Definition is_word (c : ascii) : bool :=
  in_range "a" "z" c || in_range "A" "Z" c || in_range "0" "9" c
  || Ascii.eqb c "_".

Fixpoint str_map (f : ascii -> ascii) (s : string) : string :=
  match s with
  | EmptyString => EmptyString
  | String c s' => String (f c) (str_map f s')
  end.

Fixpoint str_all (p : ascii -> bool) (s : string) : bool :=
  match s with
  | EmptyString => true
  | String c s' => p c && str_all p s'
  end.

End Js.

(** ** A fragment of regular expressions

    Enough for [UUID_PATTERN]: a pattern anchored at both ends, made of
    atoms (a literal or a class of ranges) each repeated a fixed number of
    times.  Every atom consumes exactly one unit, so matching is a single
    left-to-right pass. *)

Module Regex.

Inductive atom :=
| Lit (c : ascii)
| Class (ranges : list (ascii * ascii)).

(** [a{n}] *)
Record term := Rep { rep_atom : atom; rep_count : nat }.

(** [^ t1 t2 ... $], with the [i] flag or without. *)
Record regex := { ignoreCase : bool; terms : list term }.

(** Canonicalisation under the [i] flag: upper-casing, which on a unit
    outside ASCII never yields an ASCII unit; such a unit is left as it
    is, which decides the same matches against ASCII atoms. *)
Definition canonicalize (ci : bool) (c : ascii) : ascii :=
  if ci then Js.toUpperCase_char c else c.

(** The units of a range, in order. *)
Definition range_members (lo hi : ascii) : list ascii :=
  map (fun k => ascii_of_nat (nat_of_ascii lo + k))
      (seq 0 (S (nat_of_ascii hi) - nat_of_ascii lo)).

Definition atom_members (a : atom) : list ascii :=
  match a with
  | Lit c => [c]
  | Class rs => flat_map (fun r => range_members (fst r) (snd r)) rs
  end.

(** A unit matches an atom when some member of the atom has the same
    canonical form. *)
Definition atom_match (ci : bool) (a : atom) (c : ascii) : bool :=
  existsb (fun d => Ascii.eqb (canonicalize ci d) (canonicalize ci c))
          (atom_members a).

(** Consume exactly [n] units matching [a]; the rest of the input. *)
Fixpoint match_rep (ci : bool) (a : atom) (n : nat) (s : string) : option string :=
  match n with
  | O => Some s
  | S n' =>
      match s with
      | EmptyString => None
      | String c s' => if atom_match ci a c then match_rep ci a n' s' else None
      end
  end.

Fixpoint match_terms (ci : bool) (ts : list term) (s : string) : bool :=
  match ts with
  | [] => negb (Js.truthy s)
  | t :: ts' =>
      match match_rep ci (rep_atom t) (rep_count t) s with
      | Some rest => match_terms ci ts' rest
      | None => false
      end
  end.

(** [re.test(s)] *)
Definition test (re : regex) (s : string) : bool :=
  match_terms (ignoreCase re) (terms re) s.

End Regex.

(** ** Types of the component *)

Record SidebarHistoryEntry := {
  key : string;
  url : string;
  label : string;
  visitedAt : Z
}.

Record SidebarHistoryLabelContext := {
  heading : option string;
  pathname : string;
  query : string;
  segments : list string;
  ctx_url : string
}.

Definition DEFAULT_STORAGE_KEY : string := "sidebar-history-v1".
Definition DEFAULT_MAX_HISTORY : Z := 50.

Definition hex : Regex.atom := Regex.Class [("0", "9"); ("a", "f")]%char.

Definition UUID_PATTERN : Regex.regex :=
  {| Regex.ignoreCase := true;
     Regex.terms :=
       [ Regex.Rep hex 8; Regex.Rep (Regex.Lit "-") 1;
         Regex.Rep hex 4; Regex.Rep (Regex.Lit "-") 1;
         Regex.Rep (Regex.Class [("1", "5")]%char) 1; Regex.Rep hex 3;
         Regex.Rep (Regex.Lit "-") 1;
         Regex.Rep (Regex.Class [("8", "8"); ("9", "9"); ("a", "a"); ("b", "b")]%char) 1;
         Regex.Rep hex 3; Regex.Rep (Regex.Lit "-") 1;
         Regex.Rep hex 12 ] |}.

(** ** Path normalisation *)

Definition normalizePath (pathname : string) (basePath : option string) : string :=
  match basePath with
  | Some b =>
      if Js.truthy b && Js.startsWith (b +:+ "/") pathname
      then Js.str_slice_from (String.length b) pathname
      else if Js.truthy b && String.eqb pathname b then "/"
      else pathname
  | None => pathname
  end.

(** ** Title-casing *)

(** [.replace(/[-_]/g, " ")] *)
Definition separator_to_space (c : ascii) : ascii :=
  if Ascii.eqb c "-" || Ascii.eqb c "_" then " "%char else c.

Definition replace_dash_underscore (input : string) : string :=
  Js.str_map separator_to_space input.

(** [.replace(/\b\w/g, (char) => char.toUpperCase())]: a match is a word
    unit that follows the start of the input or a unit that is not a word
    unit; [prev] tells whether the unit before is a word unit. *)
Fixpoint upper_word_starts (prev : bool) (s : string) : string :=
  match s with
  | EmptyString => EmptyString
  | String c s' =>
      String (if Js.is_word c && negb prev then Js.toUpperCase_char c else c)
             (upper_word_starts (Js.is_word c) s')
  end.

Definition toTitleCase (input : string) : string :=
  upper_word_starts false (replace_dash_underscore input).

(** ** The default label resolver *)

Definition defaultLabelResolver (context : SidebarHistoryLabelContext) : string :=
  let segs := segments context in
  let len := Z.of_nat (List.length segs) in
  if len =? 0 then "Home"
  else
    let hasDynamicSegment := existsb (Regex.test UUID_PATTERN) segs in
    if Js.truthy_opt (heading context) && hasDynamicSegment then
      match Js.index segs (len - 2), heading context with
      | Some parent, Some h =>
          if Js.truthy parent then toTitleCase parent +:+ " / " +:+ h else h
      | _, Some h => h
      | _, None => EmptyString
      end
    else if Js.truthy_opt (heading context) && Js.includes "_id=" (query context) then
      match Js.index segs (len - 1), heading context with
      | Some parent, Some h =>
          if Js.truthy parent then toTitleCase parent +:+ " / " +:+ h else h
      | _, Some h => h
      | _, None => EmptyString
      end
    else
      Js.join " / " (map toTitleCase (Js.slice segs (-2) None)).

(** ** Values read back from the backend *)

Inductive json :=
| JNull
| JBool (b : bool)
| JNum (n : Z)
| JStr (s : string)
| JArr (items : list json)
| JObj (fields : list (string * json)).

Inductive result (A : Type) :=
| Ok (a : A)
| Throw.
Arguments Ok {A} a.
Arguments Throw {A}.

Definition bind {A B} (r : result A) (k : A -> result B) : result B :=
  match r with
  | Ok a => k a
  | Throw => Throw
  end.

Notation "'let*' x := r 'in' k" := (bind r (fun x => k))
  (at level 10, x name, r at level 100, k at level 200).

(** The object literal of an entry, which is also what the entry is after a
    round trip through [JSON.stringify] and [JSON.parse]. *)
Definition entry_json (e : SidebarHistoryEntry) : json :=
  JObj [("key", JStr (key e)); ("url", JStr (url e));
        ("label", JStr (label e)); ("visitedAt", JNum (visitedAt e))].

Definition lookup_field (name : string) (fields : list (string * json)) : option json :=
  snd <$> List.find (fun kv => String.eqb (fst kv) name) fields.

(** [v.name] for [name] one of [key] and [label], which no array, string,
    number or boolean has: reading it off [null] raises a TypeError, off an
    object it gives the field or [undefined], off anything else
    [undefined]. *)
Definition get_prop (v : json) (name : string) : result (option json) :=
  match v with
  | JNull => Throw
  | JObj fields => Ok (lookup_field name fields)
  | _ => Ok None
  end.

(** [x === s] for a string [s]. *)
Definition strict_eq_str (x : option json) (s : string) : bool :=
  match x with
  | Some (JStr t) => String.eqb t s
  | _ => false
  end.

(** Truthiness of a parsed value. *)
Definition json_truthy (v : json) : bool :=
  match v with
  | JNull => false
  | JBool b => b
  | JNum n => negb (n =? 0)
  | JStr s => Js.truthy s
  | JArr _ | JObj _ => true
  end.

Definition index_key (n : nat) : string :=
  NilEmpty.string_of_uint (Nat.to_uint n).

(** The own enumerable properties that an object spread copies. *)
Definition own_props (v : json) : list (string * json) :=
  match v with
  | JObj fields => fields
  | JArr items => imap (fun i x => (index_key i, x)) items
  | JStr s => imap (fun i c => (index_key i, JStr (String c EmptyString)))
                   (list_ascii_of_string s)
  | JNull | JBool _ | JNum _ => []
  end.

(** Assignment of a property: in place when the object has it, at the end
    otherwise. *)
Fixpoint set_field (name : string) (x : json) (fields : list (string * json))
  : list (string * json) :=
  match fields with
  | [] => [(name, x)]
  | (n, y) :: rest =>
      if String.eqb n name then (n, x) :: rest
      else (n, y) :: set_field name x rest
  end.

(** [{ ...v, label: l }] *)
Definition spread_with_label (v : json) (l : string) : json :=
  JObj (set_field "label" (JStr l) (own_props v)).

(** [l.filter(p)] for a predicate that can raise. *)
Fixpoint filterM (p : json -> result bool) (l : list json) : result (list json) :=
  match l with
  | [] => Ok []
  | x :: rest =>
      let* b := p x in
      let* rest' := filterM p rest in
      Ok (if b : bool then x :: rest' else rest')
  end.

(** [l.findIndex(p)], counting from [i]; [-1] when nothing is found. *)
Fixpoint findIndex_from (p : json -> result bool) (i : Z) (l : list json) : result Z :=
  match l with
  | [] => Ok (-1)
  | x :: rest =>
      let* b := p x in
      if b : bool then Ok i else findIndex_from p (i + 1) rest
  end.

Definition findIndex (p : json -> result bool) (l : list json) : result Z :=
  findIndex_from p 0 l.

(** [(entry) => entry.key !== k] *)
Definition key_differs (k : string) (entry : json) : result bool :=
  let* x := get_prop entry "key" in Ok (negb (strict_eq_str x k)).

(** [(entry) => entry.key === k] *)
Definition key_is (k : string) (entry : json) : result bool :=
  let* x := get_prop entry "key" in Ok (strict_eq_str x k).

(** ** The backend *)

(** A string held by [localStorage], by what [JSON.parse] makes of it.
    [JSON.stringify] of a value writes a non-empty string that parses back
    to that value. *)
Inductive stored :=
| EmptyText
| Malformed
| Text (v : json).

(** Whether the calls of one handler on [localStorage] raise. *)
Record Backend := {
  getItem_throws : bool;
  setItem_throws : bool
}.

Definition readHistory_try (io : Backend) (ls : gmap string stored)
    (storageKey : string) (maxHistory : Z) : result (list json) :=
  if getItem_throws io then Throw
  else
    match ls !! storageKey with
    | None => Ok []
    | Some EmptyText => Ok []
    | Some Malformed => Throw
    | Some (Text parsed) =>
        match parsed with
        | JArr items => Ok (Js.slice items 0 (Some maxHistory))
        | _ => Ok []
        end
    end.

Definition readHistory (io : Backend) (ls : gmap string stored)
    (storageKey : string) (maxHistory : Z) : list json :=
  match readHistory_try io ls storageKey maxHistory with
  | Ok l => l
  | Throw => []
  end.

Definition writeHistory (io : Backend) (ls : gmap string stored)
    (storageKey : string) (entries : list json) (maxHistory : Z)
  : gmap string stored :=
  if setItem_throws io then ls
  else <[storageKey := Text (JArr (Js.slice entries 0 (Some maxHistory)))]> ls.

(** ** The component *)

Record Props := {
  storageKey : string;
  maxHistory : Z;
  basePath : option string;
  ignorePaths : option (list string);
  labelResolver : option (SidebarHistoryLabelContext -> option string)
}.

(** A pending timer: the navigation whose effect set it. *)
Record Timer := {
  timer_pathname : string;
  timer_query : string
}.

Record State := {
  localStorage : gmap string stored;
  entries : list json;
  timers : gmap nat Timer;
  next_timer : nat;
  cleanup : option nat
}.

Definition with_history (st : State) (ls : gmap string stored) (es : list json) : State :=
  {| localStorage := ls; entries := es; timers := timers st;
     next_timer := next_timer st; cleanup := cleanup st |}.

Definition with_timers (st : State) (ts : gmap nat Timer) (n : nat) (c : option nat) : State :=
  {| localStorage := localStorage st; entries := entries st; timers := ts;
     next_timer := n; cleanup := c |}.

Section Component.

Variable P : Props.

Definition currentUrl (pathname query : string) : string :=
  let path := normalizePath pathname (basePath P) in
  if Js.truthy query then path +:+ "?" +:+ query else path.

Definition isIgnored (pathname : string) : bool :=
  match ignorePaths P with
  | None => false
  | Some ignored_paths =>
      if Z.of_nat (List.length ignored_paths) =? 0 then false
      else
        let normalizedPath := normalizePath pathname (basePath P) in
        existsb (fun ignored =>
                   String.eqb normalizedPath ignored
                   || Js.startsWith (ignored +:+ "/") normalizedPath)
                ignored_paths
  end.

(** [normalizedPath.split("/").filter(Boolean)] *)
Definition segments_of (normalizedPath : string) : list string :=
  List.filter Js.truthy (Js.split "/" normalizedPath).

Definition make_context (pathname query : string) (heading : option string)
  : SidebarHistoryLabelContext :=
  let normalizedPath := normalizePath pathname (basePath P) in
  {| heading := heading; pathname := normalizedPath; query := query;
     segments := segments_of normalizedPath;
     ctx_url := currentUrl pathname query |}.

(** [labelResolver?.(context) ?? defaultLabelResolver(context)] *)
Definition resolve_label (context : SidebarHistoryLabelContext) : string :=
  match labelResolver P with
  | Some f => match f context with
              | Some l => l
              | None => defaultLabelResolver context
              end
  | None => defaultLabelResolver context
  end.

(** The entry built by the first effect. *)
Definition make_entry (pathname query : string) (heading : option string) (now : Z)
  : SidebarHistoryEntry :=
  let context := make_context pathname query heading in
  let resolvedLabel := resolve_label context in
  {| key := currentUrl pathname query; url := currentUrl pathname query;
     label := resolvedLabel; visitedAt := now |}.

(** The first effect: capture of the navigation. [heading] is what
    [getCurrentPageHeading()] returns and [now] what [Date.now()]
    returns. *)
Definition capture (io : Backend) (pathname query : string)
    (heading : option string) (now : Z) (st : State) : result State :=
  if isIgnored pathname then Ok st
  else
    let existing := readHistory io (localStorage st) (storageKey P) (maxHistory P) in
    let nextEntry := make_entry pathname query heading now in
    let* filtered := filterM (key_differs (key nextEntry)) existing in
    let next := Js.slice (entry_json nextEntry :: filtered) 0 (Some (maxHistory P)) in
    Ok (with_history st
          (writeHistory io (localStorage st) (storageKey P) next (maxHistory P))
          next).

(** The callback of the timer set by the second effect. *)
Definition refine (io : Backend) (pathname query : string)
    (heading : option string) (st : State) : result State :=
  if negb (Js.truthy_opt heading) then Ok st
  else
    let next := readHistory io (localStorage st) (storageKey P) (maxHistory P) in
    let* index := findIndex (key_is (currentUrl pathname query)) next in
    if index <? 0 then Ok st
    else
      match Js.index next index with
      | None => Ok st
      | Some currentEntry =>
          if negb (json_truthy currentEntry) then Ok st
          else
            let context := make_context pathname query heading in
            let updatedLabel := resolve_label context in
            let* stored_label := get_prop currentEntry "label" in
            if strict_eq_str stored_label updatedLabel then Ok st
            else
              let next' :=
                <[Z.to_nat index := spread_with_label currentEntry updatedLabel]> next in
              Ok (with_history st
                    (writeHistory io (localStorage st) (storageKey P) next' (maxHistory P))
                    next')
      end.

Definition removeEntry (io : Backend) (k : string) (st : State) : result State :=
  let* next := filterM (key_differs k) (entries st) in
  Ok (with_history st
        (writeHistory io (localStorage st) (storageKey P) next (maxHistory P))
        next).

Definition clearHistory (io : Backend) (st : State) : State :=
  with_history st
    (writeHistory io (localStorage st) (storageKey P) [] (maxHistory P))
    [].

(** The cleanup of the second effect: [window.clearTimeout(timer)]. *)
Definition run_cleanup (st : State) : State :=
  match cleanup st with
  | Some id => with_timers st (delete id (timers st)) (next_timer st) None
  | None => st
  end.

(** The second effect: [window.setTimeout(..., 120)] unless the path is
    ignored; its cleanup holds the timer. *)
Definition schedule (pathname query : string) (st : State) : State :=
  if isIgnored pathname then st
  else
    let id := next_timer st in
    with_timers st
      (<[id := {| timer_pathname := pathname; timer_query := query |}]> (timers st))
      (S id) (Some id).

(** What happens to the component. *)
Inductive Event :=
| Navigate (pathname query : string) (heading : option string) (now : Z) (io : Backend)
| TimerFires (id : nat) (heading : option string) (io : Backend)
| RemoveEntry (k : string) (io : Backend)
| ClearHistory (io : Backend).

(** A navigation changes the dependencies of both effects: the cleanup of
    the previous run comes first, then the effects in order.  A timer
    fires only while it is pending, and is no longer pending afterwards. *)
Definition step (ev : Event) (st : State) : result State :=
  match ev with
  | Navigate pathname query heading now io =>
      let* st' := capture io pathname query heading now (run_cleanup st) in
      Ok (schedule pathname query st')
  | TimerFires id heading io =>
      match timers st !! id with
      | Some t =>
          refine io (timer_pathname t) (timer_query t) heading
            (with_timers st (delete id (timers st)) (next_timer st) (cleanup st))
      | None => Ok st
      end
  | RemoveEntry k io => removeEntry io k st
  | ClearHistory io => Ok (clearHistory io st)
  end.

Fixpoint run (evs : list Event) (st : State) : result State :=
  match evs with
  | [] => Ok st
  | ev :: rest => let* st' := step ev st in run rest st'
  end.

End Component.

(** The clock read by [Date.now()] does not go back along a sequence of
    events that starts at time [clock]. *)
Fixpoint clock_monotone (clock : Z) (evs : list Event) : Prop :=
  match evs with
  | [] => True
  | Navigate _ _ _ now _ :: rest => clock <= now /\ clock_monotone now rest
  | _ :: rest => clock_monotone clock rest
  end.

(** The time of the last navigation of the sequence. *)
Fixpoint final_clock (clock : Z) (evs : list Event) : Z :=
  match evs with
  | [] => clock
  | Navigate _ _ _ now _ :: rest => final_clock now rest
  | _ :: rest => final_clock clock rest
  end.

(** The navigation that the last [Navigate] of the sequence made, [last]
    when there is none. *)
Fixpoint last_navigation (last : option Timer) (evs : list Event) : option Timer :=
  match evs with
  | [] => last
  | Navigate pathname query _ _ _ :: rest =>
      last_navigation
        (Some {| timer_pathname := pathname; timer_query := query |}) rest
  | _ :: rest => last_navigation last rest
  end.

(** The four operations on the history, taken alone: a capture and a
    refinement for any navigation, a removal and a clear. *)
Inductive Operation :=
| Capture (pathname query : string) (heading : option string) (now : Z) (io : Backend)
| Refine (pathname query : string) (heading : option string) (io : Backend)
| Remove (k : string) (io : Backend)
| Clear (io : Backend).

Definition perform (P : Props) (op : Operation) (st : State) : result State :=
  match op with
  | Capture pathname query heading now io => capture P io pathname query heading now st
  | Refine pathname query heading io => refine P io pathname query heading st
  | Remove k io => removeEntry P io k st
  | Clear io => Ok (clearHistory P io st)
  end.

Fixpoint perform_all (P : Props) (ops : list Operation) (st : State) : result State :=
  match ops with
  | [] => Ok st
  | op :: rest => let* st' := perform P op st in perform_all P rest st'
  end.

(** The times of the captures of a sequence of operations do not go back. *)
Fixpoint captures_monotone (clock : Z) (ops : list Operation) : Prop :=
  match ops with
  | [] => True
  | Capture _ _ _ now _ :: rest => clock <= now /\ captures_monotone now rest
  | _ :: rest => captures_monotone clock rest
  end.

(** The time of the last capture of the sequence. *)
Fixpoint last_capture (clock : Z) (ops : list Operation) : Z :=
  match ops with
  | [] => clock
  | Capture _ _ _ now _ :: rest => last_capture now rest
  | _ :: rest => last_capture clock rest
  end.

(** The component when it mounts. *)
Definition mount (ls : gmap string stored) : State :=
  {| localStorage := ls; entries := []; timers := ∅; next_timer := 0%nat;
     cleanup := None |}.

(** ** Notions used by the statements *)

(** Specification: a hexadecimal digit, letters in either case. *)
Definition is_hex_digit (c : ascii) : bool :=
  Js.in_range "0" "9" c || Js.in_range "a" "f" c || Js.in_range "A" "F" c.

(** Specification: the first unit of the fourth group. *)
Definition is_variant_digit (c : ascii) : bool :=
  existsb (Ascii.eqb c) ["8"; "9"; "a"; "b"; "A"; "B"]%char.

(** Specification: 36 units, five groups of hexadecimal digits of lengths
    8, 4, 4, 4 and 12 separated by hyphens, the third starting with a digit
    from 1 to 5 and the fourth with 8, 9, a or b in either case. *)
Definition dynamic_identifier_shape (s : string) : Prop :=
  String.length s = 36%nat /\
  exists g1 g2 g3 g4 g5 : string,
    s = g1 +:+ "-" +:+ g2 +:+ "-" +:+ g3 +:+ "-" +:+ g4 +:+ "-" +:+ g5
    /\ String.length g1 = 8%nat /\ String.length g2 = 4%nat
    /\ String.length g3 = 4%nat /\ String.length g4 = 4%nat
    /\ String.length g5 = 12%nat
    /\ Js.str_all is_hex_digit g1 = true /\ Js.str_all is_hex_digit g2 = true
    /\ Js.str_all is_hex_digit g3 = true /\ Js.str_all is_hex_digit g4 = true
    /\ Js.str_all is_hex_digit g5 = true
    /\ (exists c r, g3 = String c r /\ Js.in_range "1" "5" c = true)
    /\ (exists c r, g4 = String c r /\ is_variant_digit c = true).

Definition uuid_example : string := "123e4567-e89b-12d3-a456-426614174000".

(** Specification: a letter or a digit. *)
Definition is_alnum (c : ascii) : bool :=
  Js.in_range "a" "z" c || Js.in_range "A" "Z" c || Js.in_range "0" "9" c.

(** Specification: the unit at position [i] starts a word when it is the
    first unit or follows a unit that is not a letter or a digit. *)
Definition word_start (s : string) (i : nat) : bool :=
  match i with
  | O => true
  | S j => match String.get j s with
           | Some d => negb (is_alnum d)
           | None => true
           end
  end.

(** Specification: a hyphen or an underscore becomes a space; a letter or
    digit that starts a word is upper-cased; any other unit is kept. *)
Definition title_cased_unit (starts : bool) (c : ascii) : ascii :=
  if Ascii.eqb c "-" || Ascii.eqb c "_" then " "%char
  else if starts && is_alnum c then Js.toUpperCase_char c
  else c.

Definition reliable : Backend := {| getItem_throws := false; setItem_throws := false |}.

(** The first entry of [l] whose key is [k] is the object [fields], at
    position [n]. *)
Definition first_with_key (k : string) (l : list json) (n : nat)
    (fields : list (string * json)) : Prop :=
  l !! n = Some (JObj fields)
  /\ lookup_field "key" fields = Some (JStr k)
  /\ forall m y, (m < n)%nat -> l !! m = Some y -> key_is k y = Ok false.

Definition with_label (e : SidebarHistoryEntry) (l : string) : SidebarHistoryEntry :=
  {| key := key e; url := url e; label := l; visitedAt := visitedAt e |}.

(** [a] was visited no earlier than [b]. *)
Definition no_older (a b : SidebarHistoryEntry) : Prop :=
  visitedAt b <= visitedAt a.

(** A history within the cap, without two entries of one key, most recent
    visit first, and no visit later than [clock]. *)
Record entries_ok (cap clock : Z) (es : list SidebarHistoryEntry) : Prop := {
  ok_length : Z.of_nat (List.length es) <= cap;
  ok_nodup : NoDup (key <$> es);
  ok_sorted : StronglySorted no_older es;
  ok_clock : Forall (fun e => visitedAt e <= clock) es
}.

(** A list of parsed values that is such a history. *)
Definition history_ok (cap clock : Z) (l : list json) : Prop :=
  exists es, l = entry_json <$> es /\ entries_ok cap clock es.

Definition store_ok (P : Props) (clock : Z) (ls : gmap string stored) : Prop :=
  ls !! storageKey P = None
  \/ exists l, ls !! storageKey P = Some (Text (JArr l))
               /\ history_ok (maxHistory P) clock l.

Definition state_ok (P : Props) (clock : Z) (st : State) : Prop :=
  history_ok (maxHistory P) clock (entries st)
  /\ store_ok P clock (localStorage st).

(** Every pending timer is the one held by the cleanup of the last
    effect, was set by the navigation [last], and has an identifier below
    the next one. *)
Definition timers_ok (last : option Timer) (st : State) : Prop :=
  forall id t, timers st !! id = Some t ->
    cleanup st = Some id /\ last = Some t /\ (id < next_timer st)%nat.

Definition dashboard_props : Props :=
  {| storageKey := DEFAULT_STORAGE_KEY; maxHistory := DEFAULT_MAX_HISTORY;
     basePath := Some "/dashboard"; ignorePaths := Some ["/login"];
     labelResolver := None |}.

Definition plain_props : Props :=
  {| storageKey := DEFAULT_STORAGE_KEY; maxHistory := 2;
     basePath := None; ignorePaths := None; labelResolver := None |}.

Definition three_captures : list Operation :=
  [ Capture "/dashboard/a" EmptyString None 1 reliable;
    Capture "/dashboard/b" "tab=1" None 2 reliable;
    Refine "/dashboard/a" EmptyString (Some "A") reliable;
    Remove "/b?tab=1" reliable;
    Capture "/dashboard/a" EmptyString (Some "A") 3 reliable ].

Definition three_visits : list Event :=
  [ Navigate "/dashboard/a" EmptyString None 1 reliable;
    Navigate "/dashboard/b" "tab=1" None 2 reliable;
    TimerFires 1 (Some "B") reliable;
    Navigate "/dashboard/a" EmptyString (Some "A") 3 reliable ].

Definition jane_entry : SidebarHistoryEntry :=
  {| key := "/users/" +:+ uuid_example; url := "/users/" +:+ uuid_example;
     label := "Users / 123e4567 E89b 12d3 A456 426614174000"; visitedAt := 7 |}.

Definition jane_state : State :=
  mount {[ DEFAULT_STORAGE_KEY := Text (JArr [entry_json jane_entry]) ]}.

(** ** The heading provider

    [document.querySelector("h1")] is either no element or an element
    whose [textContent] is a string or null.  The units that
    [String.prototype.trim] strips are a parameter. *)

Section Heading.

Variable is_white_space : ascii -> bool.

Fixpoint trim_start (s : string) : string :=
  match s with
  | EmptyString => EmptyString
  | String c s' => if is_white_space c then trim_start s' else s
  end.

Fixpoint trim_end (s : string) : string :=
  match s with
  | EmptyString => EmptyString
  | String c s' =>
      match trim_end s' with
      | EmptyString => if is_white_space c then EmptyString else String c EmptyString
      | String d t => String c (String d t)
      end
  end.

(** [s.trim()] *)
Definition trim (s : string) : string := trim_end (trim_start s).

Definition getCurrentPageHeading (h1 : option (option string)) : option string :=
  match h1 with
  | Some (Some textContent) =>
      let text := trim textContent in
      if Js.truthy text && (0 <? Z.of_nat (String.length text)) then Some text else None
  | _ => None
  end.

End Heading.

(** ** The display window *)

Definition DEFAULT_VISIBLE : Z := 4.

(** What one entry is rendered from: the React key, the link target, the
    link title and the link text. *)
Record Row := {
  row_key : option json;
  row_href : option json;
  row_title : option json;
  row_text : option json
}.

(** [v.url], which like [key] and [label] no array, string, number or
    boolean has, is read as they are. *)
Definition render_row (entry : json) : result Row :=
  let* k := get_prop entry "key" in
  let* u := get_prop entry "url" in
  let* l := get_prop entry "label" in
  Ok {| row_key := k; row_href := u; row_title := u; row_text := l |}.

(** [l.map(f)] for a function that can raise. *)
Fixpoint mapM {A B} (f : A -> result B) (l : list A) : result (list B) :=
  match l with
  | [] => Ok []
  | x :: rest =>
      let* y := f x in
      let* ys := mapM f rest in
      Ok (y :: ys)
  end.

(** The button under the rows: "Show Less", or "Show n More". *)
Inductive Toggle :=
| ShowLess
| ShowMore (n : Z).

Record Banner := {
  rows : list Row;
  toggle : option Toggle
}.

(** The render of the component: nothing without entries, else the rows
    of the visible entries and the toggle when there are more entries than
    [defaultVisible]. *)
Definition render (defaultVisible : Z) (showAll : bool) (entries : list json)
  : result (option Banner) :=
  let len := Z.of_nat (List.length entries) in
  if len =? 0 then Ok None
  else
    let visible := if showAll then entries else Js.slice entries 0 (Some defaultVisible) in
    let hasMore := len >? defaultVisible in
    let* rs := mapM render_row visible in
    Ok (Some {| rows := rs;
                toggle := if hasMore
                          then Some (if showAll then ShowLess
                                     else ShowMore (len - defaultVisible))
                          else None |}).

(** ** Further notions used by the statements *)

(** One navigation, as the capture sees it. *)
Record Visit := {
  visit_pathname : string;
  visit_query : string;
  visit_heading : option string;
  visit_now : Z
}.

Definition visit_capture (io : Backend) (v : Visit) : Operation :=
  Capture (visit_pathname v) (visit_query v) (visit_heading v) (visit_now v) io.

Definition visit_key (P : Props) (v : Visit) : string :=
  currentUrl P (visit_pathname v) (visit_query v).

Definition visit_entry (P : Props) (v : Visit) : SidebarHistoryEntry :=
  make_entry P (visit_pathname v) (visit_query v) (visit_heading v) (visit_now v).

(** The backend of an operation, and the operation with another one. *)
Definition backend_of (op : Operation) : Backend :=
  match op with
  | Capture _ _ _ _ io | Refine _ _ _ io | Remove _ io | Clear io => io
  end.

Definition with_backend (io : Backend) (op : Operation) : Operation :=
  match op with
  | Capture pathname query heading now _ => Capture pathname query heading now io
  | Refine pathname query heading _ => Refine pathname query heading io
  | Remove k _ => Remove k io
  | Clear _ => Clear io
  end.

Definition failing_writes (io : Backend) : Backend :=
  {| getItem_throws := getItem_throws io; setItem_throws := true |}.

(** Every write of the sequence of events succeeds. *)
Fixpoint writes_succeed (evs : list Event) : Prop :=
  match evs with
  | [] => True
  | Navigate _ _ _ _ io :: rest
  | TimerFires _ _ io :: rest
  | RemoveEntry _ io :: rest
  | ClearHistory io :: rest => setItem_throws io = false /\ writes_succeed rest
  end.

(** The memory holds what a load returns. *)
Definition in_sync (P : Props) (st : State) : Prop :=
  forall io, getItem_throws io = false ->
    readHistory io (localStorage st) (storageKey P) (maxHistory P) = entries st.

(** The path is made of slashes only. *)
Definition only_slashes (s : string) : bool :=
  Js.str_all (fun c => Ascii.eqb c "/") s.

(** The string has no slash. *)
Definition no_slash (s : string) : bool :=
  Js.str_all (fun c => negb (Ascii.eqb c "/")) s.

(** A parsed value whose key is the string [k]. *)
Definition has_key (k : string) (y : json) : Prop := key_is k y = Ok true.

#[local] Instance has_key_dec (k : string) (y : json) : Decision (has_key k y).
Proof.
  unfold has_key. destruct (key_is k y) as [[|]|].
  - now left.
  - right. discriminate.
  - right. discriminate.
Defined.

Definition four_visits : list Visit :=
  [ {| visit_pathname := "/a"; visit_query := EmptyString; visit_heading := None;
       visit_now := 1 |};
    {| visit_pathname := "/b"; visit_query := EmptyString; visit_heading := None;
       visit_now := 2 |};
    {| visit_pathname := "/a"; visit_query := EmptyString; visit_heading := None;
       visit_now := 3 |};
    {| visit_pathname := "/c"; visit_query := EmptyString; visit_heading := None;
       visit_now := 4 |} ].

(** The last unit of a string. *)
Fixpoint last_unit (s : string) : option ascii :=
  match s with
  | EmptyString => None
  | String c EmptyString => Some c
  | String _ s' => last_unit s'
  end.

(** The row of an entry: its key, its url as target and title, its label
    as text. *)
Definition entry_row (e : SidebarHistoryEntry) : Row :=
  {| row_key := Some (JStr (key e)); row_href := Some (JStr (url e));
     row_title := Some (JStr (url e)); row_text := Some (JStr (label e)) |}.

(** The space as the only white-space unit. *)
Definition ascii_space (c : ascii) : bool := Ascii.eqb c " ".

(** Properties with a cap of zero. *)
Definition no_history_props : Props :=
  {| storageKey := DEFAULT_STORAGE_KEY; maxHistory := 0;
     basePath := None; ignorePaths := None; labelResolver := None |}.

(** A context as the component builds it: its segments have passed
    [filter(Boolean)], so none is the empty string, and its heading is what
    the heading provider returned, null or not empty. *)
Definition built_context (ctx : SidebarHistoryLabelContext) : Prop :=
  Forall (fun seg => seg <> EmptyString) (segments ctx)
  /\ heading ctx <> Some EmptyString.

(** A history within the cap and without two entries of one key. *)
Definition entries_bounded (cap : Z) (es : list SidebarHistoryEntry) : Prop :=
  Z.of_nat (List.length es) <= cap /\ NoDup (key <$> es).

Definition history_bounded (cap : Z) (l : list json) : Prop :=
  exists es, l = entry_json <$> es /\ entries_bounded cap es.

Definition store_bounded (P : Props) (ls : gmap string stored) : Prop :=
  ls !! storageKey P = None
  \/ exists l, ls !! storageKey P = Some (Text (JArr l))
               /\ history_bounded (maxHistory P) l.

Definition state_bounded (P : Props) (st : State) : Prop :=
  history_bounded (maxHistory P) (entries st)
  /\ store_bounded P (localStorage st).

(** ** Strings *)

Section StringFacts.

Lemma append_cons (c : ascii) (s t : string) :
  String c s +:+ t = String c (s +:+ t).
Proof. reflexivity. Qed.

Lemma append_nil_l (s : string) : EmptyString +:+ s = s.
Proof. reflexivity. Qed.

Lemma append_nil_r (s : string) : s +:+ EmptyString = s.
Proof.
  induction s as [|c s IH]; [reflexivity |].
  now rewrite append_cons, IH.
Qed.

Lemma append_assoc (a b c : string) : (a +:+ b) +:+ c = a +:+ b +:+ c.
Proof.
  induction a as [|x a IH]; [reflexivity |].
  now rewrite !append_cons, IH.
Qed.

Lemma length_append (a b : string) :
  String.length (a +:+ b) = (String.length a + String.length b)%nat.
Proof.
  induction a as [|x a IH]; [reflexivity |].
  rewrite append_cons. simpl. now rewrite IH.
Qed.

Lemma startsWith_app (p r : string) : Js.startsWith p (p +:+ r) = true.
Proof.
  induction p as [|c p IH]; [reflexivity |].
  rewrite append_cons. simpl. now rewrite Ascii.eqb_refl.
Qed.

Lemma startsWith_spec (p s : string) :
  Js.startsWith p s = true <-> exists r, s = p +:+ r.
Proof.
  split.
  - revert s. induction p as [|c p IH]; intros s H.
    + now exists s.
    + destruct s as [|d s]; simpl in H; [discriminate |].
      destruct (Ascii.eqb_spec c d) as [->|]; [| discriminate].
      destruct (IH _ H) as [r ->]. now exists r.
  - intros [r ->]. apply startsWith_app.
Qed.

Lemma str_slice_from_app (p r : string) :
  Js.str_slice_from (String.length p) (p +:+ r) = r.
Proof.
  induction p as [|c p IH]; [now destruct r |].
  rewrite append_cons. simpl. exact IH.
Qed.

Lemma includes_cons (p : string) (c : ascii) (s : string) :
  Js.includes p (String c s) = Js.startsWith p (String c s) || Js.includes p s.
Proof. reflexivity. Qed.

Lemma includes_spec (p s : string) :
  Js.includes p s = true <-> exists a b, s = a +:+ p +:+ b.
Proof.
  split.
  - induction s as [|c s IH]; intros H.
    + simpl in H. rewrite orb_false_r in H.
      apply startsWith_spec in H as [r Hr]. now exists EmptyString, r.
    + rewrite includes_cons in H. apply orb_true_iff in H as [H | H].
      * apply startsWith_spec in H as [r Hr]. now exists EmptyString, r.
      * destruct (IH H) as (a & b & ->). now exists (String c a), b.
  - intros (a & b & ->). induction a as [|c a IH].
    + rewrite append_nil_l.
      destruct (p +:+ b) eqn:E; simpl; rewrite <- E, startsWith_app; reflexivity.
    + rewrite append_cons, includes_cons, IH. apply orb_true_r.
Qed.

Lemma truthy_true (s : string) : Js.truthy s = true <-> s <> EmptyString.
Proof. destruct s; simpl; split; congruence. Qed.

Lemma truthy_false (s : string) : Js.truthy s = false <-> s = EmptyString.
Proof. destruct s; simpl; split; congruence. Qed.

End StringFacts.

(** ** Path normalisation and the canonical identity *)

Lemma normalizePath_strip (b rest : string) :
  normalizePath (b +:+ "/" +:+ rest) (Some b) = "/" +:+ rest.
Proof.
  unfold normalizePath.
  rewrite <- append_assoc, startsWith_app, append_assoc.
  destruct (Js.truthy b) eqn:T; simpl.
  - apply str_slice_from_app.
  - apply truthy_false in T as ->. reflexivity.
Qed.

Lemma normalizePath_exact (b : string) :
  b <> EmptyString -> normalizePath b (Some b) = "/".
Proof.
  intros Hb. unfold normalizePath.
  apply truthy_true in Hb. rewrite Hb, String.eqb_refl. simpl.
  destruct (Js.startsWith (b +:+ "/") b) eqn:E; [| reflexivity].
  apply startsWith_spec in E as [r Hr].
  apply (f_equal String.length) in Hr.
  rewrite !length_append in Hr. simpl in Hr. lia.
Qed.

(** C5. For every raw pathname, configured prefix and query string: a
    pathname that starts with the prefix followed by a slash loses the
    prefix; a pathname equal to the (non-empty, hence configured) prefix
    is normalised to the root path; the canonical identity is the
    normalised path, followed by a question mark and the query exactly
    when the query is not empty; the entry built for a navigation has this
    identity as its key and as its url.  Normalisation is a total
    function: it returns a path on every input. *)
Theorem normalization_identity (P : Props) (pathname query : string)
    (heading : option string) (now : Z) :
  (forall b rest, basePath P = Some b -> pathname = b +:+ "/" +:+ rest ->
     normalizePath pathname (basePath P) = "/" +:+ rest)
  /\ (forall b, basePath P = Some b -> b <> EmptyString -> pathname = b ->
       normalizePath pathname (basePath P) = "/")
  /\ (query <> EmptyString ->
       currentUrl P pathname query
       = normalizePath pathname (basePath P) +:+ "?" +:+ query)
  /\ (query = EmptyString ->
       currentUrl P pathname query = normalizePath pathname (basePath P))
  /\ key (make_entry P pathname query heading now) = currentUrl P pathname query
  /\ url (make_entry P pathname query heading now) = currentUrl P pathname query
  /\ (exists path, normalizePath pathname (basePath P) = path).
Proof.
  repeat split.
  - intros b rest -> ->. apply normalizePath_strip.
  - intros b -> Hb ->. now apply normalizePath_exact.
  - intros Hq. unfold currentUrl. apply truthy_true in Hq. now rewrite Hq.
  - intros ->. reflexivity.
  - eexists. reflexivity.
Qed.

(** ** The dynamic-identifier shape *)

Ltac each_unit c :=
  destruct c as [[] [] [] [] [] [] [] []]; vm_compute;
  try reflexivity; try (intros; congruence).

Section UnitClasses.

Lemma hex_match (c : ascii) : Regex.atom_match true hex c = is_hex_digit c.
Proof. each_unit c. Qed.

Lemma hyphen_match (c : ascii) :
  Regex.atom_match true (Regex.Lit "-") c = Ascii.eqb c "-".
Proof. each_unit c. Qed.

Lemma version_match (c : ascii) :
  Regex.atom_match true (Regex.Class [("1", "5")]%char) c = Js.in_range "1" "5" c.
Proof. each_unit c. Qed.

Lemma variant_match (c : ascii) :
  Regex.atom_match true
    (Regex.Class [("8", "8"); ("9", "9"); ("a", "a"); ("b", "b")]%char) c
  = is_variant_digit c.
Proof. each_unit c. Qed.

Lemma version_is_hex (c : ascii) :
  Js.in_range "1" "5" c = true -> is_hex_digit c = true.
Proof. each_unit c. Qed.

Lemma variant_is_hex (c : ascii) :
  is_variant_digit c = true -> is_hex_digit c = true.
Proof. each_unit c. Qed.

End UnitClasses.

Section Matching.

Lemma str_all_app (p : ascii -> bool) (a b : string) :
  Js.str_all p (a +:+ b) = Js.str_all p a && Js.str_all p b.
Proof.
  induction a as [|c a IH]; [reflexivity |].
  rewrite append_cons. simpl. now rewrite IH, andb_assoc.
Qed.

Lemma str_all_ext (p q : ascii -> bool) (s : string) :
  (forall c, p c = q c) -> Js.str_all p s = Js.str_all q s.
Proof. intros E. induction s as [|c s IH]; simpl; [reflexivity | now rewrite E, IH]. Qed.

Lemma str_all_hex (s : string) :
  Js.str_all (Regex.atom_match true hex) s = Js.str_all is_hex_digit s.
Proof. apply str_all_ext, hex_match. Qed.

Lemma match_rep_spec (ci : bool) (a : Regex.atom) (n : nat) (s rest : string) :
  Regex.match_rep ci a n s = Some rest <->
  exists pre, s = pre +:+ rest /\ String.length pre = n
              /\ Js.str_all (Regex.atom_match ci a) pre = true.
Proof.
  revert s. induction n as [|n IH]; intros s; simpl.
  - split.
    + intros [= ->]. now exists EmptyString.
    + intros (pre & -> & L & _). destruct pre; [reflexivity | discriminate].
  - destruct s as [|c s].
    + split; [discriminate |].
      intros (pre & E & L & _). destruct pre; discriminate.
    + destruct (Regex.atom_match ci a c) eqn:M.
      * rewrite IH. split.
        -- intros (pre & -> & L & A). exists (String c pre).
           rewrite append_cons. simpl. now rewrite M, L, A.
        -- intros (pre & E & L & A). destruct pre as [|d pre]; [discriminate |].
           rewrite append_cons in E. injection E as -> ->.
           simpl in L, A. apply andb_true_iff in A as [_ A].
           exists pre. repeat split; [lia | exact A].
      * split; [discriminate |].
        intros (pre & E & L & A). destruct pre as [|d pre]; [discriminate |].
        rewrite append_cons in E. injection E as -> ->.
        simpl in A. rewrite M in A. discriminate.
Qed.

Lemma match_terms_nil (ci : bool) (s : string) :
  Regex.match_terms ci [] s = true <-> s = EmptyString.
Proof. destruct s; simpl; split; congruence. Qed.

Lemma match_terms_cons (ci : bool) (a : Regex.atom) (n : nat)
    (ts : list Regex.term) (s : string) :
  Regex.match_terms ci (Regex.Rep a n :: ts) s = true <->
  exists pre rest, s = pre +:+ rest /\ String.length pre = n
                   /\ Js.str_all (Regex.atom_match ci a) pre = true
                   /\ Regex.match_terms ci ts rest = true.
Proof.
  simpl. split.
  - destruct (Regex.match_rep ci a n s) as [rest|] eqn:E; [| discriminate].
    intros H. apply match_rep_spec in E as (pre & -> & L & A).
    now exists pre, rest.
  - intros (pre & rest & E & L & A & H).
    assert (Regex.match_rep ci a n s = Some rest) as ->; [| exact H].
    apply match_rep_spec. now exists pre.
Qed.

Lemma one_unit (s : string) :
  String.length s = 1%nat -> exists c, s = String c EmptyString.
Proof. destruct s as [|c [|d s]]; try discriminate. intros _. now exists c. Qed.

Lemma one_hyphen (s : string) :
  String.length s = 1%nat ->
  Js.str_all (Regex.atom_match true (Regex.Lit "-")) s = true -> s = "-".
Proof.
  intros L A. destruct (one_unit s L) as [c ->]. simpl in A.
  rewrite andb_true_r, hyphen_match in A.
  now apply Ascii.eqb_eq in A as ->.
Qed.

End Matching.

Lemma uuid_pattern_shape (s : string) :
  Regex.test UUID_PATTERN s = true <-> dynamic_identifier_shape s.
Proof.
  { unfold Regex.test, UUID_PATTERN, dynamic_identifier_shape.
    cbn [Regex.ignoreCase Regex.terms]. split.
    - intros H.
      apply match_terms_cons in H as (p1 & r1 & -> & L1 & A1 & H).
      apply match_terms_cons in H as (p2 & r2 & -> & L2 & A2 & H).
      apply match_terms_cons in H as (p3 & r3 & -> & L3 & A3 & H).
      apply match_terms_cons in H as (p4 & r4 & -> & L4 & A4 & H).
      apply match_terms_cons in H as (p5 & r5 & -> & L5 & A5 & H).
      apply match_terms_cons in H as (p6 & r6 & -> & L6 & A6 & H).
      apply match_terms_cons in H as (p7 & r7 & -> & L7 & A7 & H).
      apply match_terms_cons in H as (p8 & r8 & -> & L8 & A8 & H).
      apply match_terms_cons in H as (p9 & r9 & -> & L9 & A9 & H).
      apply match_terms_cons in H as (p10 & r10 & -> & L10 & A10 & H).
      apply match_terms_cons in H as (p11 & r11 & -> & L11 & A11 & H).
      apply match_terms_nil in H as ->.
      apply one_hyphen in A2 as ->; [| exact L2].
      apply one_hyphen in A4 as ->; [| exact L4].
      apply one_hyphen in A7 as ->; [| exact L7].
      apply one_hyphen in A10 as ->; [| exact L10].
      destruct (one_unit p5 L5) as [c5 ->].
      destruct (one_unit p8 L8) as [c8 ->].
      simpl in A5, A8. rewrite andb_true_r in A5, A8.
      rewrite version_match in A5. rewrite variant_match in A8.
      rewrite str_all_hex in A1, A3, A6, A9, A11.
      split.
      + rewrite !length_append, L1, L3, L6, L9, L11. reflexivity.
      + exists p1, p3, (String c5 p6), (String c8 p9), p11.
        rewrite append_nil_r, !append_cons, !append_nil_l.
        simpl. rewrite L6, L9, A1, A3, A6, A9, A11.
        rewrite (version_is_hex _ A5), (variant_is_hex _ A8).
        repeat split; try assumption; eauto.
    - intros (_ & g1 & g2 & g3 & g4 & g5 & -> & L1 & L2 & L3 & L4 & L5
              & A1 & A2 & A3 & A4 & A5 & (c3 & r3 & -> & V3) & (c4 & r4 & -> & V4)).
      simpl in L3, L4, A3, A4.
      apply andb_true_iff in A3 as [_ A3]. apply andb_true_iff in A4 as [_ A4].
      rewrite <- str_all_hex in A1, A2, A3, A4, A5.
      apply match_terms_cons. exists g1. eexists. repeat split; [exact L1 | exact A1 |].
      apply match_terms_cons. exists "-". eexists. repeat split.
      apply match_terms_cons. exists g2. eexists. repeat split; [exact L2 | exact A2 |].
      apply match_terms_cons. exists "-". eexists. repeat split.
      apply match_terms_cons. exists (String c3 EmptyString), (r3 +:+ "-" +:+ String c4 r4 +:+ "-" +:+ g5).
      repeat split.
      { simpl. now rewrite version_match, V3. }
      apply match_terms_cons. exists r3. eexists. repeat split; [lia | exact A3 |].
      apply match_terms_cons. exists "-". eexists. repeat split.
      apply match_terms_cons. exists (String c4 EmptyString), (r4 +:+ "-" +:+ g5).
      repeat split.
      { simpl. now rewrite variant_match, V4. }
      apply match_terms_cons. exists r4. eexists. repeat split; [lia | exact A4 |].
      apply match_terms_cons. exists "-". eexists. repeat split.
      apply match_terms_cons. exists g5, EmptyString. repeat split.
      + now rewrite append_nil_r.
      + exact L5.
      + exact A5. }
Qed.

Lemma some_segment_shape (segs : list string) :
  existsb (Regex.test UUID_PATTERN) segs = true <->
  exists seg, In seg segs /\ dynamic_identifier_shape seg.
Proof.
  rewrite existsb_exists. split; intros (seg & Hin & H); exists seg; split;
    try assumption; now apply uuid_pattern_shape.
Qed.

(** C3. A segment passes the test of [UUID_PATTERN] exactly when it has
    the dynamic-identifier shape: 36 units in five hyphen-delimited groups
    of hexadecimal digits of lengths 8-4-4-4-12, the third group starting
    with a digit 1 to 5 and the fourth with 8, 9, a or b, letters in either
    case; and the resolver detects a dynamic segment exactly when one of
    the segments has that shape. *)
Theorem dynamic_segment_detection (s : string) (segs : list string) :
  (Regex.test UUID_PATTERN s = true <-> dynamic_identifier_shape s)
  /\ (existsb (Regex.test UUID_PATTERN) segs = true <->
      exists seg, In seg segs /\ dynamic_identifier_shape seg).
Proof. split; [apply uuid_pattern_shape | apply some_segment_shape]. Qed.

(** ** Label resolution *)

Section ArrayFacts.

Context {A : Type}.

Lemma index_second_to_last (pre : list A) (a b : A) :
  Js.index (pre ++ [a; b]) (Z.of_nat (List.length (pre ++ [a; b])) - 2) = Some a.
Proof.
  unfold Js.index. rewrite length_app. simpl.
  destruct (Z.ltb_spec (Z.of_nat (List.length pre + 2) - 2) 0) as [H|H]; [lia |].
  apply list_lookup_middle. lia.
Qed.

Lemma index_last (pre : list A) (a : A) :
  Js.index (pre ++ [a]) (Z.of_nat (List.length (pre ++ [a])) - 1) = Some a.
Proof.
  unfold Js.index. rewrite length_app. simpl.
  destruct (Z.ltb_spec (Z.of_nat (List.length pre + 1) - 1) 0) as [H|H]; [lia |].
  apply list_lookup_middle. lia.
Qed.

Lemma slice_last_two (pre : list A) (a b : A) :
  Js.slice (pre ++ [a; b]) (-2) None = [a; b].
Proof.
  unfold Js.slice, Js.rel_index. rewrite length_app. simpl.
  replace (Z.to_nat (Z.max (Z.of_nat (List.length pre + 2) + -2) 0))
    with (List.length pre) by lia.
  rewrite drop_app_length.
  replace (Z.to_nat _) with 2%nat by lia. reflexivity.
Qed.

Lemma slice_prefix (l : list A) (n : Z) :
  0 <= n -> Js.slice l 0 (Some n) = take (Z.to_nat n) l.
Proof.
  intros Hn. unfold Js.slice, Js.rel_index. simpl.
  destruct (Z.ltb_spec n 0) as [H|H]; [lia |].
  replace (Z.min 0 (Z.of_nat (List.length l))) with 0 by lia.
  rewrite Z.sub_0_r. simpl.
  destruct (Z.min_spec n (Z.of_nat (List.length l))) as [[H1 ->]|[H1 ->]].
  - reflexivity.
  - rewrite (take_ge l (Z.to_nat n)) by lia.
    apply take_ge. lia.
Qed.

Lemma nonempty_length (l : list A) :
  l <> [] -> (Z.of_nat (List.length l) =? 0) = false.
Proof. destruct l; [congruence |]. intros _. simpl. lia. Qed.

End ArrayFacts.

(** The heading rules, for a heading and a parent that are not empty
    strings. *)
Lemma resolver_dynamic (ctx : SidebarHistoryLabelContext) (h : string) :
  segments ctx <> [] -> heading ctx = Some h -> h <> EmptyString ->
  (exists seg, In seg (segments ctx) /\ dynamic_identifier_shape seg) ->
  defaultLabelResolver ctx =
    match Js.index (segments ctx) (Z.of_nat (List.length (segments ctx)) - 2) with
    | Some parent => if Js.truthy parent then toTitleCase parent +:+ " / " +:+ h else h
    | None => h
    end.
Proof.
  intros Hs Hh Hne Hdyn. unfold defaultLabelResolver.
  rewrite (nonempty_length _ Hs), Hh.
  apply some_segment_shape in Hdyn. rewrite Hdyn.
  apply truthy_true in Hne. simpl. rewrite Hne. simpl.
  now destruct (Js.index _ _).
Qed.

Lemma resolver_query_id (ctx : SidebarHistoryLabelContext) (h : string) :
  segments ctx <> [] -> heading ctx = Some h -> h <> EmptyString ->
  ~ (exists seg, In seg (segments ctx) /\ dynamic_identifier_shape seg) ->
  (exists a b, query ctx = a +:+ "_id=" +:+ b) ->
  defaultLabelResolver ctx =
    match Js.index (segments ctx) (Z.of_nat (List.length (segments ctx)) - 1) with
    | Some parent => if Js.truthy parent then toTitleCase parent +:+ " / " +:+ h else h
    | None => h
    end.
Proof.
  intros Hs Hh Hne Hdyn Hq. unfold defaultLabelResolver.
  rewrite (nonempty_length _ Hs), Hh.
  rewrite <- some_segment_shape in Hdyn. apply not_true_is_false in Hdyn.
  rewrite Hdyn. apply includes_spec in Hq. rewrite Hq.
  apply truthy_true in Hne. simpl. rewrite Hne. simpl.
  now destruct (Js.index _ _).
Qed.

Lemma resolver_fallback (ctx : SidebarHistoryLabelContext) :
  segments ctx <> [] ->
  heading ctx = None
  \/ (~ (exists seg, In seg (segments ctx) /\ dynamic_identifier_shape seg)
      /\ ~ (exists a b, query ctx = a +:+ "_id=" +:+ b)) ->
  defaultLabelResolver ctx
  = Js.join " / " (map toTitleCase (Js.slice (segments ctx) (-2) None)).
Proof.
  intros Hs H. unfold defaultLabelResolver. rewrite (nonempty_length _ Hs).
  destruct H as [-> | [Hdyn Hq]]; [reflexivity |].
  rewrite <- some_segment_shape in Hdyn. apply not_true_is_false in Hdyn.
  rewrite <- includes_spec in Hq. apply not_true_is_false in Hq.
  now rewrite Hdyn, Hq, !andb_false_r.
Qed.

Lemma heading_nonempty (ws : ascii -> bool) (h1 : option (option string)) (t : string) :
  getCurrentPageHeading ws h1 = Some t -> t <> EmptyString.
Proof.
  destruct h1 as [[text|]|]; try discriminate. simpl.
  destruct (trim ws text); [discriminate |]. simpl. now intros [= <-].
Qed.

Lemma segments_of_nonempty (p : string) :
  Forall (fun seg => seg <> EmptyString) (segments_of p).
Proof.
  apply List.Forall_forall. intros seg Hin.
  apply List.filter_In in Hin as [_ Hin]. now apply truthy_true.
Qed.

Lemma built_segment (ctx : SidebarHistoryLabelContext) (pre post : list string)
    (seg : string) :
  built_context ctx -> segments ctx = (pre ++ seg :: post)%list ->
  Js.truthy seg = true.
Proof.
  intros [Hsegs _] Hs. apply truthy_true.
  rewrite Hs in Hsegs. apply Forall_app in Hsegs as [_ Hsegs].
  now apply Forall_cons in Hsegs as [Hseg _].
Qed.

(** C2. The default label resolver is private to the module; its two
    callers pass it the context that the component builds, whose segments
    have passed [filter(Boolean)] and whose heading is what
    [getCurrentPageHeading] returned: no segment is the empty string and
    the heading is null or not empty.  For every such context with at
    least one segment and a heading that is not null: when some segment
    has the dynamic-identifier shape, the label is the title-cased
    second-to-last segment, " / " and the heading when a second-to-last
    segment exists, and the heading alone otherwise; when no segment has
    the shape and the query contains "_id=", the label is the title-cased
    last segment, " / " and the heading.  The two scenarios of the
    specification follow. *)
Theorem heading_rules :
  (forall (P : Props) (pathname query : string) (ws : ascii -> bool)
          (h1 : option (option string)),
     built_context (make_context P pathname query (getCurrentPageHeading ws h1)))
  /\ (forall (ctx : SidebarHistoryLabelContext) (h : string),
        built_context ctx -> segments ctx <> [] -> heading ctx = Some h ->
        ((exists seg, In seg (segments ctx) /\ dynamic_identifier_shape seg) ->
           (forall pre parent last, segments ctx = (pre ++ [parent; last])%list ->
              defaultLabelResolver ctx = toTitleCase parent +:+ " / " +:+ h)
           /\ (forall only, segments ctx = [only] -> defaultLabelResolver ctx = h))
        /\ (~ (exists seg, In seg (segments ctx) /\ dynamic_identifier_shape seg) ->
            (exists a b, query ctx = a +:+ "_id=" +:+ b) ->
            forall pre last, segments ctx = (pre ++ [last])%list ->
              defaultLabelResolver ctx = toTitleCase last +:+ " / " +:+ h))
  /\ defaultLabelResolver
       {| heading := Some "Jane Doe"; pathname := "/users/" +:+ uuid_example;
          query := EmptyString; segments := ["users"; uuid_example];
          ctx_url := "/users/" +:+ uuid_example |} = "Users / Jane Doe"
  /\ defaultLabelResolver
       {| heading := Some "Q3 Summary"; pathname := "/reports";
          query := "report_id=42"; segments := ["reports"];
          ctx_url := "/reports?report_id=42" |} = "Reports / Q3 Summary".
Proof.
  split; [| split; [| split; vm_compute; reflexivity]].
  - intros P pathname query ws h1. split; cbn [make_context segments heading].
    + apply segments_of_nonempty.
    + intros H. now apply heading_nonempty in H.
  - intros ctx h Hb Hs Hh.
    assert (Hne : h <> EmptyString).
    { intros ->. destruct Hb as [_ Hb]. now apply Hb. }
    split.
    + intros Hdyn. rewrite (resolver_dynamic ctx h Hs Hh Hne Hdyn). split.
      * intros pre parent last Hsegs.
        rewrite Hsegs, index_second_to_last.
        now rewrite (built_segment ctx pre [last] parent Hb Hsegs).
      * intros only ->. reflexivity.
    + intros Hdyn Hq pre last Hsegs.
      rewrite (resolver_query_id ctx h Hs Hh Hne Hdyn Hq).
      rewrite Hsegs, index_last.
      now rewrite (built_segment ctx pre [] last Hb Hsegs).
Qed.

Lemma heading_rules_witness :
  defaultLabelResolver
    (make_context dashboard_props ("/dashboard/users/" +:+ uuid_example) EmptyString
       (getCurrentPageHeading ascii_space (Some (Some "Jane Doe  "))))
  = toTitleCase "users" +:+ " / " +:+ "Jane Doe".
Proof.
  destruct heading_rules as (Hbuilt & Hrules & _).
  refine (proj1 (proj1 (Hrules _ "Jane Doe"
            (Hbuilt dashboard_props ("/dashboard/users/" +:+ uuid_example) EmptyString
               ascii_space (Some (Some "Jane Doe  "))) _ eq_refl) _)
            [] "users" uuid_example eq_refl).
  - discriminate.
  - exists uuid_example. split; [right; left; reflexivity |].
    apply uuid_pattern_shape. vm_compute. reflexivity.
Defined.

(** Outside the contexts that the component builds the guards of the
    heading rules show: with a heading that is the empty string the
    heading rules are skipped and the path rule applies. *)
Lemma heading_rules_empty_heading :
  let ctx := {| heading := Some EmptyString; pathname := "/users/" +:+ uuid_example;
                query := EmptyString; segments := ["users"; uuid_example];
                ctx_url := "/users/" +:+ uuid_example |} in
  heading ctx <> None
  /\ segments ctx <> []
  /\ existsb (Regex.test UUID_PATTERN) (segments ctx) = true
  /\ Js.index (segments ctx) (Z.of_nat (List.length (segments ctx)) - 2) = Some "users"
  /\ defaultLabelResolver ctx = "Users / 123e4567 E89b 12d3 A456 426614174000"
  /\ defaultLabelResolver ctx <> toTitleCase "users" +:+ " / " +:+ EmptyString.
Proof. vm_compute. repeat split; congruence. Qed.

(** ** Title-casing *)

Section TitleCase.

Lemma get_str_map (f : ascii -> ascii) (s : string) (i : nat) :
  String.get i (Js.str_map f s) = f <$> String.get i s.
Proof.
  revert i. induction s as [|c s IH]; intros [|i]; simpl; try reflexivity.
  apply IH.
Qed.

Lemma get_upper_word_starts (prev : bool) (s : string) (i : nat) :
  String.get i (upper_word_starts prev s)
  = (fun c =>
       let before := match i with
                     | O => prev
                     | S j => match String.get j s with
                              | Some d => Js.is_word d
                              | None => false
                              end
                     end in
       if Js.is_word c && negb before then Js.toUpperCase_char c else c)
    <$> String.get i s.
Proof.
  revert prev i. induction s as [|c s IH]; intros prev [|i]; simpl; try reflexivity.
  rewrite IH. destruct i; reflexivity.
Qed.

Lemma word_after_replace (d : ascii) :
  Js.is_word (separator_to_space d) = is_alnum d.
Proof. each_unit d. Qed.

Lemma title_unit (starts : bool) (c : ascii) :
  (if Js.is_word (separator_to_space c) && starts
   then Js.toUpperCase_char (separator_to_space c)
   else separator_to_space c)
  = title_cased_unit starts c.
Proof. destruct starts; each_unit c. Qed.

Lemma get_before (s : string) (j : nat) (c : ascii) :
  String.get (S j) s = Some c -> exists d, String.get j s = Some d.
Proof.
  revert j. induction s as [|x s IH]; intros j H; [discriminate |].
  destruct j as [|j]; simpl; [eauto |]. apply IH. exact H.
Qed.

Lemma get_toTitleCase (s : string) (i : nat) :
  String.get i (toTitleCase s) = title_cased_unit (word_start s i) <$> String.get i s.
Proof.
  unfold toTitleCase, replace_dash_underscore.
  rewrite get_upper_word_starts, get_str_map.
  destruct (String.get i s) as [c|] eqn:E; simpl; [| reflexivity].
  f_equal. rewrite <- title_unit. destruct i as [|j]; simpl; [reflexivity |].
  rewrite get_str_map. destruct (get_before s j c E) as [d ->]. simpl.
  now rewrite (word_after_replace d).
Qed.

Lemma length_str_map (f : ascii -> ascii) (s : string) :
  String.length (Js.str_map f s) = String.length s.
Proof. induction s as [|c s IH]; simpl; [reflexivity | now rewrite IH]. Qed.

Lemma length_upper_word_starts (prev : bool) (s : string) :
  String.length (upper_word_starts prev s) = String.length s.
Proof.
  revert prev. induction s as [|c s IH]; intros prev; simpl; [reflexivity |].
  now rewrite IH.
Qed.

End TitleCase.

(** C4. For every context with at least one segment that the heading rules
    do not handle (no heading, or no segment of the dynamic-identifier
    shape and no "_id=" in the query), the label is the last two segments,
    or the only segment, each title-cased and joined with " / ".
    Title-casing keeps the length, turns every hyphen and underscore into a
    space and upper-cases every letter that starts a word.  Scenario A
    follows. *)
Theorem path_rule (ctx : SidebarHistoryLabelContext) :
  segments ctx <> [] ->
  heading ctx = None
  \/ (~ (exists seg, In seg (segments ctx) /\ dynamic_identifier_shape seg)
      /\ ~ (exists a b, query ctx = a +:+ "_id=" +:+ b)) ->
  (forall only, segments ctx = [only] ->
     defaultLabelResolver ctx = toTitleCase only)
  /\ (forall pre a b, segments ctx = (pre ++ [a; b])%list ->
       defaultLabelResolver ctx = toTitleCase a +:+ " / " +:+ toTitleCase b)
  /\ (forall s, String.length (toTitleCase s) = String.length s)
  /\ (forall s i, String.get i (toTitleCase s)
                  = title_cased_unit (word_start s i) <$> String.get i s)
  /\ defaultLabelResolver
       {| heading := None; pathname := "/docs/intro"; query := EmptyString;
          segments := ["docs"; "intro"]; ctx_url := "/docs/intro" |}
     = "Docs / Intro".
Proof.
  intros Hs H. rewrite (resolver_fallback ctx Hs H). repeat split.
  - intros only ->. reflexivity.
  - intros pre a b ->. now rewrite slice_last_two.
  - intros s. unfold toTitleCase, replace_dash_underscore.
    now rewrite length_upper_word_starts, length_str_map.
  - apply get_toTitleCase.
Qed.

Lemma path_rule_witness :
  defaultLabelResolver
    {| heading := None; pathname := "/a-b/c_d"; query := EmptyString;
       segments := ([] ++ ["a-b"; "c_d"])%list; ctx_url := "/a-b/c_d" |}
  = toTitleCase "a-b" +:+ " / " +:+ toTitleCase "c_d".
Proof.
  refine (proj1 (proj2 (path_rule
    {| heading := None; pathname := "/a-b/c_d"; query := EmptyString;
       segments := ([] ++ ["a-b"; "c_d"])%list; ctx_url := "/a-b/c_d" |} _ _))
    [] "a-b" "c_d" _).
  - discriminate.
  - left. reflexivity.
  - reflexivity.
Defined.

(** ** Loading and saving *)

Section Backend.

Variables (io : Backend) (ls : gmap string stored) (sk : string) (cap : Z).

Lemma readHistory_caught :
  readHistory_try io ls sk cap = Throw -> readHistory io ls sk cap = [].
Proof. unfold readHistory. now intros ->. Qed.

Lemma readHistory_read_failure :
  getItem_throws io = true -> readHistory io ls sk cap = [].
Proof. unfold readHistory, readHistory_try. now intros ->. Qed.

Lemma readHistory_not_text :
  ls !! sk = None \/ ls !! sk = Some EmptyText \/ ls !! sk = Some Malformed ->
  readHistory io ls sk cap = [].
Proof.
  unfold readHistory, readHistory_try.
  destruct (getItem_throws io); [reflexivity |].
  now intros [-> | [-> | ->]].
Qed.

Lemma readHistory_not_array (v : json) :
  ls !! sk = Some (Text v) -> (forall items, v <> JArr items) ->
  readHistory io ls sk cap = [].
Proof.
  unfold readHistory, readHistory_try. intros -> Hv.
  destruct (getItem_throws io); [reflexivity |].
  destruct v; try reflexivity. now destruct (Hv items).
Qed.

Lemma readHistory_array (items : list json) :
  getItem_throws io = false -> ls !! sk = Some (Text (JArr items)) ->
  readHistory io ls sk cap = Js.slice items 0 (Some cap).
Proof. unfold readHistory, readHistory_try. now intros -> ->. Qed.

Lemma readHistory_cases :
  readHistory io ls sk cap = []
  \/ exists items, ls !! sk = Some (Text (JArr items))
                   /\ readHistory io ls sk cap = Js.slice items 0 (Some cap).
Proof.
  unfold readHistory, readHistory_try.
  destruct (getItem_throws io); [now left |].
  destruct (ls !! sk) as [[| |[]]|]; try (now left).
  right. now exists items.
Qed.

Lemma readHistory_length :
  0 <= cap -> Z.of_nat (List.length (readHistory io ls sk cap)) <= cap.
Proof.
  intros Hc. destruct readHistory_cases as [-> | (items & _ & ->)]; [simpl; lia |].
  rewrite slice_prefix by assumption. rewrite length_take. lia.
Qed.

End Backend.

Lemma slice_short {A} (l : list A) (cap : Z) :
  Z.of_nat (List.length l) <= cap -> Js.slice l 0 (Some cap) = l.
Proof.
  intros H. rewrite slice_prefix by lia. apply take_ge. lia.
Qed.

Lemma slice_is_prefix {A} (l : list A) (cap : Z) :
  Js.slice l 0 (Some cap) `prefix_of` l.
Proof.
  unfold Js.slice, Js.rel_index.
  replace (if 0 <? 0 then _ else _) with 0 by (simpl; lia).
  simpl. apply prefix_take.
Qed.

Lemma slice_cons {A} (x : A) (l : list A) (cap : Z) :
  1 <= cap ->
  Js.slice (x :: l) 0 (Some cap) = x :: Js.slice l 0 (Some (cap - 1)).
Proof.
  intros H. rewrite !slice_prefix by lia.
  replace (Z.to_nat cap) with (S (Z.to_nat (cap - 1))) by lia. reflexivity.
Qed.

Lemma read_after_write (io io' : Backend) (ls : gmap string stored)
    (sk : string) (l : list json) (cap : Z) :
  setItem_throws io = false -> getItem_throws io' = false ->
  Z.of_nat (List.length l) <= cap ->
  readHistory io' (writeHistory io ls sk l cap) sk cap = l.
Proof.
  intros Hw Hr Hl. unfold writeHistory. rewrite Hw.
  erewrite readHistory_array; [| exact Hr | apply lookup_insert_eq].
  rewrite (slice_short l cap Hl). now apply slice_short.
Qed.

(** C8. Loading never raises: [readHistory] is a function to lists, and
    whenever its body raises the result is the empty list.  It returns the
    empty list on a read failure, a missing key, an empty or unparsable
    string and a parsed value that is not an array; otherwise it returns a
    prefix of the stored array, of at most [cap] entries for a [cap] that
    is not negative. *)
Theorem load_total (io : Backend) (ls : gmap string stored) (sk : string) (cap : Z) :
  (readHistory_try io ls sk cap = Throw -> readHistory io ls sk cap = [])
  /\ (getItem_throws io = true -> readHistory io ls sk cap = [])
  /\ (ls !! sk = None -> readHistory io ls sk cap = [])
  /\ (ls !! sk = Some EmptyText \/ ls !! sk = Some Malformed ->
      readHistory io ls sk cap = [])
  /\ (forall v, ls !! sk = Some (Text v) -> (forall items, v <> JArr items) ->
      readHistory io ls sk cap = [])
  /\ (forall items, getItem_throws io = false ->
      ls !! sk = Some (Text (JArr items)) ->
      readHistory io ls sk cap `prefix_of` items
      /\ (0 <= cap ->
          readHistory io ls sk cap = take (Z.to_nat cap) items
          /\ Z.of_nat (List.length (readHistory io ls sk cap)) <= cap)).
Proof.
  repeat split.
  - apply readHistory_caught.
  - apply readHistory_read_failure.
  - intros H. apply readHistory_not_text. now left.
  - intros H. apply readHistory_not_text. now right.
  - apply readHistory_not_array.
  - rewrite (readHistory_array io ls sk cap items) by assumption.
    apply slice_is_prefix.
  - rewrite (readHistory_array io ls sk cap items) by assumption.
    now apply slice_prefix.
  - now apply readHistory_length.
Qed.

Lemma load_total_witness :
  readHistory reliable
    {[ "h" := Text (JArr [JNum 1; JNum 2; JNum 3]) ]} "h" 2 = [JNum 1; JNum 2].
Proof.
  refine (proj1 (proj2 (proj2 (proj2 (proj2 (proj2 (proj2
    (load_total reliable {[ "h" := Text (JArr [JNum 1; JNum 2; JNum 3]) ]} "h" 2)))))
    [JNum 1; JNum 2; JNum 3] _ _) _)).
  - reflexivity.
  - reflexivity.
  - lia.
Defined.

(** C9, as the code has it.  The only validation of a parsed payload is
    that it is an array: a parsed value that is not an array gives the
    empty history, and an array is returned as it is stored, cut to the
    cap, whatever its elements are. *)
Theorem payload_validation (io : Backend) (ls : gmap string stored)
    (sk : string) (cap : Z) :
  (forall v, ls !! sk = Some (Text v) -> (forall items, v <> JArr items) ->
     readHistory io ls sk cap = [])
  /\ (forall items, getItem_throws io = false ->
      ls !! sk = Some (Text (JArr items)) ->
      readHistory io ls sk cap = Js.slice items 0 (Some cap)
      /\ (Z.of_nat (List.length items) <= cap -> readHistory io ls sk cap = items)).
Proof.
  split.
  - apply readHistory_not_array.
  - intros items Hr Hl. rewrite (readHistory_array io ls sk cap items Hr Hl).
    split; [reflexivity | apply slice_short].
Qed.

Lemma payload_validation_witness :
  readHistory reliable {[ "h" := Text (JArr [JNull; JStr "x"]) ]} "h" 50
  = [JNull; JStr "x"].
Proof.
  refine (proj2 (proj2 (payload_validation reliable
    {[ "h" := Text (JArr [JNull; JStr "x"]) ]} "h" 50) [JNull; JStr "x"] _ _) _).
  - reflexivity.
  - reflexivity.
  - simpl. lia.
Defined.

(** C9 as stated fails: an array whose elements are not entry records is
    not treated as an empty history. *)
Lemma payload_elements_not_validated :
  readHistory reliable {[ "h" := Text (JArr [JNum 1; JStr "x"]) ]} "h" 50
  = [JNum 1; JStr "x"]
  /\ readHistory reliable {[ "h" := Text (JArr [JNum 1; JStr "x"]) ]} "h" 50 <> [].
Proof. split; [reflexivity | discriminate]. Qed.

(** ** Entries as parsed values *)

Section Fields.

Lemma lookup_field_cons (name n : string) (y : json) (rest : list (string * json)) :
  lookup_field name ((n, y) :: rest)
  = if String.eqb n name then Some y else lookup_field name rest.
Proof. unfold lookup_field. simpl. now destruct (String.eqb n name). Qed.

Lemma lookup_set_field (name : string) (x : json) (fields : list (string * json)) :
  lookup_field name (set_field name x fields) = Some x.
Proof.
  induction fields as [|[n y] rest IH]; simpl.
  - now rewrite lookup_field_cons, String.eqb_refl.
  - destruct (String.eqb n name) eqn:E; rewrite lookup_field_cons, E; [reflexivity | exact IH].
Qed.

Lemma lookup_set_field_other (name other : string) (x : json)
    (fields : list (string * json)) :
  other <> name ->
  lookup_field other (set_field name x fields) = lookup_field other fields.
Proof.
  intros Hne. induction fields as [|[n y] rest IH]; simpl.
  - rewrite lookup_field_cons.
    destruct (String.eqb_spec name other); [congruence | reflexivity].
  - destruct (String.eqb_spec n name) as [->|Hn]; rewrite !lookup_field_cons.
    + destruct (String.eqb_spec name other); [congruence | reflexivity].
    + now rewrite IH.
Qed.

Lemma strict_eq_str_true (x : option json) (s : string) :
  strict_eq_str x s = true <-> x = Some (JStr s).
Proof.
  destruct x as [[]|]; simpl; split; try congruence.
  - now intros ->%String.eqb_eq.
  - intros [= ->]. apply String.eqb_refl.
Qed.

Lemma key_is_true (k : string) (y : json) :
  key_is k y = Ok true <->
  exists fields, y = JObj fields /\ lookup_field "key" fields = Some (JStr k).
Proof.
  unfold key_is. destruct y; simpl; split; try congruence;
    try (intros (fields & [=] & _); fail).
  - intros [= H]. apply strict_eq_str_true in H. eauto.
  - intros (fs & [= <-] & H). rewrite H. simpl. now rewrite String.eqb_refl.
Qed.

End Fields.

Section FindIndex.

Variable p : json -> result bool.

Lemma findIndex_from_none (i : Z) (l : list json) :
  (forall y, y ∈ l -> p y = Ok false) -> findIndex_from p i l = Ok (-1).
Proof.
  revert i. induction l as [|x l IH]; intros i H; simpl; [reflexivity |].
  rewrite (H x) by apply list_elem_of_here. simpl.
  apply IH. intros y Hy. apply H. now apply list_elem_of_further.
Qed.

Lemma findIndex_from_found (i : Z) (l : list json) (n : nat) (x : json) :
  l !! n = Some x -> p x = Ok true ->
  (forall m y, (m < n)%nat -> l !! m = Some y -> p y = Ok false) ->
  findIndex_from p i l = Ok (i + Z.of_nat n).
Proof.
  revert i n. induction l as [|z l IH]; intros i n Hn Hx Hbefore; [discriminate |].
  destruct n as [|n]; simpl in *.
  - injection Hn as ->. rewrite Hx. simpl. f_equal. lia.
  - rewrite (Hbefore 0%nat z) by (reflexivity || lia). simpl.
    rewrite (IH (i + 1) n Hn Hx).
    + f_equal. lia.
    + intros m y Hm Hy. apply (Hbefore (S m) y); [lia | exact Hy].
Qed.

End FindIndex.

Lemma writeHistory_failed (io : Backend) (ls : gmap string stored) (sk : string)
    (l : list json) (cap : Z) :
  setItem_throws io = true -> writeHistory io ls sk l cap = ls.
Proof. unfold writeHistory. now intros ->. Qed.

(** ** The deferred refinement *)

Section Refinement.

Variables (P : Props) (io : Backend) (pathname query : string)
          (heading : option string) (st : State).

Lemma refine_no_heading :
  Js.truthy_opt heading = false -> refine P io pathname query heading st = Ok st.
Proof. unfold refine. now intros ->. Qed.

Lemma refine_no_entry :
  (forall y,
     y ∈ readHistory io (localStorage st) (storageKey P) (maxHistory P) ->
     key_is (currentUrl P pathname query) y = Ok false) ->
  refine P io pathname query heading st = Ok st.
Proof.
  intros H. unfold refine. destruct (Js.truthy_opt heading); [| reflexivity].
  simpl. unfold findIndex.
  now rewrite (findIndex_from_none _ 0 _ H).
Qed.

Lemma refine_at (n : nat) (fields : list (string * json)) :
  let loaded := readHistory io (localStorage st) (storageKey P) (maxHistory P) in
  let updated := resolve_label P (make_context P pathname query heading) in
  Js.truthy_opt heading = true ->
  first_with_key (currentUrl P pathname query) loaded n fields ->
  refine P io pathname query heading st =
    if strict_eq_str (lookup_field "label" fields) updated then Ok st
    else
      let next := <[n := JObj (set_field "label" (JStr updated) fields)]> loaded in
      Ok (with_history st
            (writeHistory io (localStorage st) (storageKey P) next (maxHistory P))
            next).
Proof.
  intros loaded updated Hh (Hn & Hk & Hbefore). unfold refine. rewrite Hh. simpl.
  unfold findIndex. fold loaded.
  rewrite (findIndex_from_found _ 0 loaded n (JObj fields) Hn); [| | exact Hbefore].
  2: { apply key_is_true. eauto. }
  rewrite Z.add_0_l. cbn [bind]. unfold Js.index.
  destruct (Z.ltb_spec (Z.of_nat n) 0) as [?|_]; [lia |].
  rewrite Nat2Z.id, Hn. simpl. fold updated.
  reflexivity.
Qed.

End Refinement.

(** C7. When the deferred refinement runs, the state (backend and
    in-memory list) is left as it is if no heading is available, or no
    entry of the reloaded store has the key of the navigation, or the
    recomputed label is the stored one.  Otherwise the first entry with that
    key gets the recomputed label and nothing else changes: its other
    fields, among them [visitedAt], its position, the length of the list
    and every other entry are those of the reloaded store; the list is
    written back, so that (the write succeeding, for a cap that is not
    negative) a later load returns it. *)
Theorem refinement_frame (P : Props) (io : Backend) (pathname query : string)
    (heading : option string) (st : State) :
  let loaded := readHistory io (localStorage st) (storageKey P) (maxHistory P) in
  let k := currentUrl P pathname query in
  let updated := resolve_label P (make_context P pathname query heading) in
  (Js.truthy_opt heading = false ->
     refine P io pathname query heading st = Ok st)
  /\ ((forall y, y ∈ loaded -> key_is k y = Ok false) ->
      refine P io pathname query heading st = Ok st)
  /\ (forall n fields, first_with_key k loaded n fields ->
      lookup_field "label" fields = Some (JStr updated) ->
      refine P io pathname query heading st = Ok st)
  /\ (forall n fields, Js.truthy_opt heading = true ->
      first_with_key k loaded n fields ->
      lookup_field "label" fields <> Some (JStr updated) ->
      exists fields' st',
        refine P io pathname query heading st = Ok st'
        /\ entries st' = <[n := JObj fields']> loaded
        /\ lookup_field "label" fields' = Some (JStr updated)
        /\ (forall name, name <> "label" ->
            lookup_field name fields' = lookup_field name fields)
        /\ List.length (entries st') = List.length loaded
        /\ entries st' !! n = Some (JObj fields')
        /\ (forall m, m <> n -> entries st' !! m = loaded !! m)
        /\ (setItem_throws io = true -> localStorage st' = localStorage st)
        /\ (setItem_throws io = false -> 0 <= maxHistory P ->
            forall io', getItem_throws io' = false ->
              readHistory io' (localStorage st') (storageKey P) (maxHistory P)
              = entries st')
        /\ timers st' = timers st /\ cleanup st' = cleanup st).
Proof.
  intros loaded k updated. repeat split.
  - apply refine_no_heading.
  - apply refine_no_entry.
  - intros n fields Hf Hl.
    destruct (Js.truthy_opt heading) eqn:Hh; [| now apply refine_no_heading].
    rewrite (refine_at P io pathname query heading st n fields Hh Hf).
    fold updated. apply strict_eq_str_true in Hl. now rewrite Hl.
  - intros n fields Hh Hf Hl.
    exists (set_field "label" (JStr updated) fields). eexists.
    rewrite (refine_at P io pathname query heading st n fields Hh Hf).
    fold updated loaded.
    destruct (strict_eq_str (lookup_field "label" fields) updated) eqn:E.
    { apply strict_eq_str_true in E. contradiction. }
    cbn zeta. split; [reflexivity |]. cbn [entries with_history localStorage timers cleanup].
    destruct Hf as (Hn & _ & _).
    assert (n < List.length loaded)%nat as Hlt by (eapply lookup_lt_Some; exact Hn).
    repeat split.
    + apply lookup_set_field.
    + intros name Hne. now apply lookup_set_field_other.
    + apply length_insert.
    + now apply list_lookup_insert_eq.
    + intros m Hm. now apply list_lookup_insert_ne.
    + apply writeHistory_failed.
    + intros Hw Hc io' Hr. apply read_after_write; try assumption.
      rewrite length_insert. now apply readHistory_length.
Qed.

(** ** Well-formed histories *)

Section TypedView.

Lemma key_differs_entry (k : string) (e : SidebarHistoryEntry) :
  key_differs k (entry_json e) = Ok (bool_decide (key e <> k)).
Proof.
  unfold key_differs. simpl. f_equal.
  destruct (String.eqb_spec (key e) k) as [H|H]; simpl.
  - now rewrite bool_decide_eq_false_2 by tauto.
  - now rewrite bool_decide_eq_true_2.
Qed.

Lemma key_is_entry (k : string) (e : SidebarHistoryEntry) :
  key_is k (entry_json e) = Ok (bool_decide (key e = k)).
Proof.
  unfold key_is. simpl. f_equal.
  destruct (String.eqb_spec (key e) k) as [H|H]; simpl.
  - now rewrite bool_decide_eq_true_2.
  - now rewrite bool_decide_eq_false_2.
Qed.

Lemma filterM_entries (k : string) (es : list SidebarHistoryEntry) :
  filterM (key_differs k) (entry_json <$> es)
  = Ok (entry_json <$> filter (fun e => key e <> k) es).
Proof.
  induction es as [|e es IH]; [reflexivity |].
  rewrite fmap_cons. cbn [filterM]. rewrite key_differs_entry, IH. simpl.
  rewrite filter_cons. destruct (decide (key e <> k)) as [H|H].
  - now rewrite bool_decide_eq_true_2.
  - now rewrite bool_decide_eq_false_2.
Qed.

Lemma spread_entry (e : SidebarHistoryEntry) (l : string) :
  spread_with_label (entry_json e) l = entry_json (with_label e l).
Proof. reflexivity. Qed.

Lemma entry_json_inj : Inj (=) (=) entry_json.
Proof. intros [] [] [=]. now subst. Qed.

Lemma slice_fmap {A B} (f : A -> B) (l : list A) (cap : Z) :
  Js.slice (f <$> l) 0 (Some cap) = f <$> Js.slice l 0 (Some cap).
Proof.
  unfold Js.slice. rewrite length_fmap.
  now rewrite <- fmap_drop, <- fmap_take.
Qed.

End TypedView.

Section EntriesOk.

Variables cap clock : Z.

Lemma entries_ok_nil : 0 <= cap -> entries_ok cap clock [].
Proof.
  intros H. split; simpl; [lia | constructor | constructor | constructor].
Qed.

Lemma sorted_sublist (es' es : list SidebarHistoryEntry) :
  es' `sublist_of` es -> StronglySorted no_older es -> StronglySorted no_older es'.
Proof.
  induction 1 as [|x l1 l2 Hsub IH|x l1 l2 Hsub IH]; intros Hs.
  - constructor.
  - apply StronglySorted_inv in Hs as [Hs Hx]. constructor; [now apply IH |].
    rewrite Forall_forall in *. intros y Hy. apply Hx.
    eapply elem_of_sublist; eassumption.
  - apply StronglySorted_inv in Hs as [Hs _]. now apply IH.
Qed.

Lemma sorted_same_times (es es' : list SidebarHistoryEntry) :
  visitedAt <$> es' = visitedAt <$> es ->
  StronglySorted no_older es -> StronglySorted no_older es'.
Proof.
  intros Heq Hs. revert es' Heq.
  induction Hs as [|x es Hs IH Hx]; intros es' Heq.
  - destruct es'; [constructor | discriminate].
  - destruct es' as [|x' es']; [discriminate |].
    rewrite !fmap_cons in Heq. injection Heq as Hx' Heq.
    constructor; [now apply IH |].
    unfold no_older in *. rewrite Hx'.
    apply (Forall_fmap visitedAt (fun t => t <= visitedAt x)).
    rewrite Heq. now apply Forall_fmap.
Qed.

Lemma entries_ok_sublist (es' es : list SidebarHistoryEntry) :
  es' `sublist_of` es -> entries_ok cap clock es -> entries_ok cap clock es'.
Proof.
  intros Hsub [Hl Hn Hs Hc]. split.
  - apply sublist_length in Hsub. lia.
  - apply (sublist_NoDup (key <$> es') (key <$> es)); [exact Hn |].
    now apply fmap_sublist.
  - now apply (sorted_sublist es' es).
  - rewrite Forall_forall in *. intros y Hy. apply Hc.
    eapply elem_of_sublist; eassumption.
Qed.

Lemma entries_ok_later (later : Z) (es : list SidebarHistoryEntry) :
  clock <= later -> entries_ok cap clock es -> entries_ok cap later es.
Proof.
  intros Hle [Hl Hn Hs Hc]. split; try assumption.
  eapply Forall_impl; [exact Hc |]. simpl. intros. lia.
Qed.

Lemma entries_ok_with_label (es : list SidebarHistoryEntry) (n : nat)
    (e : SidebarHistoryEntry) (l : string) :
  es !! n = Some e -> entries_ok cap clock es ->
  entries_ok cap clock (<[n := with_label e l]> es).
Proof.
  intros Hn [Hl Hd Hs Hc].
  assert (Hkeys : key <$> <[n := with_label e l]> es = key <$> es).
  { rewrite list_fmap_insert. apply list_insert_id.
    now rewrite list_lookup_fmap, Hn. }
  assert (Hat : visitedAt <$> <[n := with_label e l]> es = visitedAt <$> es).
  { rewrite list_fmap_insert. apply list_insert_id.
    now rewrite list_lookup_fmap, Hn. }
  split.
  - now rewrite length_insert.
  - now rewrite Hkeys.
  - now apply (sorted_same_times es).
  - apply Forall_insert; [exact Hc |].
    rewrite Forall_forall in Hc. apply (Hc e).
    eapply list_elem_of_lookup_2; exact Hn.
Qed.

Lemma entries_ok_visit (es : list SidebarHistoryEntry) (e : SidebarHistoryEntry) :
  0 <= cap -> clock <= visitedAt e -> entries_ok cap clock es ->
  entries_ok cap (visitedAt e)
    (Js.slice (e :: filter (fun x => key x <> key e) es) 0 (Some cap)).
Proof.
  intros Hcap Hnow Hok. rewrite slice_prefix by assumption.
  assert (entries_ok cap clock (filter (fun x => key x <> key e) es)) as [Hl Hd Hs Hc].
  { eapply entries_ok_sublist; [apply sublist_filter | exact Hok]. }
  set (rest := filter (fun x => key x <> key e) es) in *.
  assert (Hnew : NoDup (key <$> e :: rest) /\ StronglySorted no_older (e :: rest)
                 /\ Forall (fun x => visitedAt x <= visitedAt e) (e :: rest)).
  { repeat split.
    - rewrite fmap_cons. constructor; [| exact Hd].
      intros Hin. apply list_elem_of_fmap in Hin as (x & Hk & Hx).
      apply list_elem_of_filter in Hx as [Hne _]. congruence.
    - constructor; [exact Hs |].
      eapply Forall_impl; [exact Hc |]. unfold no_older. simpl. intros. lia.
    - constructor; [lia |].
      eapply Forall_impl; [exact Hc |]. simpl. intros. lia. }
  destruct Hnew as (Hd' & Hs' & Hc').
  split.
  - rewrite length_take. lia.
  - apply (sublist_NoDup _ (key <$> e :: rest)); [exact Hd' |].
    apply fmap_sublist, sublist_take.
  - eapply sorted_sublist; [apply sublist_take | exact Hs'].
  - rewrite Forall_forall in *. intros y Hy. apply Hc'.
    eapply elem_of_sublist; [exact Hy | apply sublist_take].
Qed.

End EntriesOk.

(** ** The component on well-formed histories *)

Section Preservation.

Variable P : Props.
Hypothesis cap_nonneg : 0 <= maxHistory P.

Lemma history_ok_nil (clock : Z) : history_ok (maxHistory P) clock [].
Proof. exists []. split; [reflexivity | now apply entries_ok_nil]. Qed.

Lemma history_ok_later (clock later : Z) (l : list json) :
  clock <= later -> history_ok (maxHistory P) clock l ->
  history_ok (maxHistory P) later l.
Proof.
  intros Hle (es & -> & Hok). exists es. split; [reflexivity |].
  now apply (entries_ok_later _ clock).
Qed.

Lemma store_ok_later (clock later : Z) (ls : gmap string stored) :
  clock <= later -> store_ok P clock ls -> store_ok P later ls.
Proof.
  intros Hle [H | (l & Hl & Hok)]; [now left |].
  right. exists l. split; [exact Hl |]. now apply (history_ok_later clock).
Qed.

Lemma history_ok_length (clock : Z) (l : list json) :
  history_ok (maxHistory P) clock l -> Z.of_nat (List.length l) <= maxHistory P.
Proof. intros (es & -> & [Hl _ _ _]). now rewrite length_fmap. Qed.

Lemma read_ok (io : Backend) (clock : Z) (ls : gmap string stored) :
  store_ok P clock ls ->
  history_ok (maxHistory P) clock (readHistory io ls (storageKey P) (maxHistory P)).
Proof.
  intros Hs. destruct (readHistory_cases io ls (storageKey P) (maxHistory P))
    as [-> | (items & Hitems & ->)]; [apply history_ok_nil |].
  destruct Hs as [Hs | (l & Hl & Hok)]; [congruence |].
  rewrite Hitems in Hl. injection Hl as <-.
  rewrite slice_short; [exact Hok | now apply (history_ok_length clock)].
Qed.

Lemma write_ok (io : Backend) (clock : Z) (ls : gmap string stored) (l : list json) :
  history_ok (maxHistory P) clock l -> store_ok P clock ls ->
  store_ok P clock (writeHistory io ls (storageKey P) l (maxHistory P)).
Proof.
  intros Hl Hs. unfold writeHistory.
  destruct (setItem_throws io); [exact Hs |].
  right. exists l. split; [| exact Hl].
  rewrite lookup_insert_eq, slice_short; [reflexivity |].
  now apply (history_ok_length clock).
Qed.

Lemma capture_typed (io : Backend) (pathname query : string)
    (heading : option string) (now : Z) (st : State)
    (es : list SidebarHistoryEntry) :
  isIgnored P pathname = false ->
  readHistory io (localStorage st) (storageKey P) (maxHistory P) = entry_json <$> es ->
  let e := make_entry P pathname query heading now in
  let next := entry_json <$> Js.slice (e :: filter (fun x => key x <> key e) es)
                              0 (Some (maxHistory P)) in
  capture P io pathname query heading now st
  = Ok (with_history st
          (writeHistory io (localStorage st) (storageKey P) next (maxHistory P))
          next).
Proof.
  intros Hi Hr e next. unfold capture. rewrite Hi, Hr.
  fold e. rewrite filterM_entries. cbn [bind].
  rewrite <- fmap_cons, slice_fmap. reflexivity.
Qed.

Lemma capture_ok (io : Backend) (pathname query : string)
    (heading : option string) (clock now : Z) (st : State) :
  clock <= now -> state_ok P clock st ->
  exists st', capture P io pathname query heading now st = Ok st'
              /\ state_ok P now st'
              /\ timers st' = timers st /\ next_timer st' = next_timer st
              /\ cleanup st' = cleanup st.
Proof.
  intros Hnow [Hm Hs]. destruct (isIgnored P pathname) eqn:Hi.
  - exists st. unfold capture. rewrite Hi. repeat split.
    + now apply (history_ok_later clock).
    + now apply (store_ok_later clock).
  - destruct (read_ok io clock _ Hs) as (es & Hr & Hok).
    rewrite (capture_typed io pathname query heading now st es Hi Hr).
    eexists. split; [reflexivity |].
    assert (history_ok (maxHistory P) now
              (entry_json <$>
                 Js.slice (make_entry P pathname query heading now
                           :: filter (fun x => key x <>
                                key (make_entry P pathname query heading now)) es)
                   0 (Some (maxHistory P)))) as Hnext.
    { eexists. split; [reflexivity |].
      apply (entries_ok_visit (maxHistory P) clock es
               (make_entry P pathname query heading now)); assumption. }
    repeat split; cbn [entries localStorage with_history].
    + exact Hnext.
    + apply write_ok; [exact Hnext | now apply (store_ok_later clock)].
Qed.

Lemma first_with_key_typed (k : string) (es : list SidebarHistoryEntry)
    (n : nat) (e : SidebarHistoryEntry) :
  list_find (fun x => key x = k) es = Some (n, e) ->
  first_with_key k (entry_json <$> es) n
    [("key", JStr (key e)); ("url", JStr (url e));
     ("label", JStr (label e)); ("visitedAt", JNum (visitedAt e))].
Proof.
  intros (Hn & Hk & Hbefore)%list_find_Some. repeat split.
  - now rewrite list_lookup_fmap, Hn.
  - now rewrite <- Hk.
  - intros m y Hm Hy. rewrite list_lookup_fmap in Hy.
    destruct (es !! m) as [x|] eqn:Hx; [| discriminate].
    injection Hy as <-. rewrite key_is_entry. f_equal.
    apply bool_decide_eq_false_2. now apply (Hbefore m).
Qed.

Lemma refine_typed (io : Backend) (pathname query : string)
    (heading : option string) (st : State) (es : list SidebarHistoryEntry) :
  readHistory io (localStorage st) (storageKey P) (maxHistory P) = entry_json <$> es ->
  refine P io pathname query heading st = Ok st
  \/ exists n e,
       es !! n = Some e /\ key e = currentUrl P pathname query
       /\ let next :=
            entry_json <$>
              <[n := with_label e (resolve_label P (make_context P pathname query heading))]> es in
          refine P io pathname query heading st
          = Ok (with_history st
                  (writeHistory io (localStorage st) (storageKey P) next (maxHistory P))
                  next).
Proof.
  intros Hr. destruct (Js.truthy_opt heading) eqn:Hh;
    [| left; now apply refine_no_heading].
  destruct (list_find (fun x => key x = currentUrl P pathname query) es)
    as [[n e]|] eqn:F.
  - pose proof (first_with_key_typed _ _ _ _ F) as Hf.
    apply list_find_Some in F as (Hn & Hk & _).
    rewrite <- Hr in Hf.
    rewrite (refine_at P io pathname query heading st n _ Hh Hf).
    destruct (strict_eq_str _ _); [now left |].
    right. exists n, e. repeat split; try assumption.
    cbn zeta. rewrite Hr, list_fmap_insert. reflexivity.
  - left. apply refine_no_entry. rewrite Hr.
    intros y (x & -> & Hx)%list_elem_of_fmap. rewrite key_is_entry. f_equal.
    apply bool_decide_eq_false_2.
    apply list_find_None in F. rewrite Forall_forall in F. now apply F.
Qed.

Lemma refine_ok (io : Backend) (pathname query : string)
    (heading : option string) (clock : Z) (st : State) :
  state_ok P clock st ->
  exists st', refine P io pathname query heading st = Ok st'
              /\ state_ok P clock st'
              /\ timers st' = timers st /\ next_timer st' = next_timer st
              /\ cleanup st' = cleanup st.
Proof.
  intros [Hm Hs]. destruct (read_ok io clock _ Hs) as (es & Hr & Hok).
  destruct (refine_typed io pathname query heading st es Hr)
    as [-> | (n & e & Hn & Hk & ->)].
  - exists st. repeat split; assumption.
  - eexists. split; [reflexivity |].
    assert (history_ok (maxHistory P) clock
              (entry_json <$>
                 <[n := with_label e
                          (resolve_label P (make_context P pathname query heading))]> es))
      as Hnext.
    { eexists. split; [reflexivity |]. now apply entries_ok_with_label. }
    repeat split; cbn [entries localStorage with_history].
    + exact Hnext.
    + now apply write_ok.
Qed.

Lemma removeEntry_ok (io : Backend) (k : string) (clock : Z) (st : State) :
  state_ok P clock st ->
  exists st', removeEntry P io k st = Ok st'
              /\ state_ok P clock st'
              /\ timers st' = timers st /\ next_timer st' = next_timer st
              /\ cleanup st' = cleanup st.
Proof.
  intros [(es & Hm & Hok) Hs]. unfold removeEntry.
  rewrite Hm, filterM_entries. cbn [bind].
  eexists. split; [reflexivity |].
  assert (history_ok (maxHistory P) clock
            (entry_json <$> filter (fun e => key e <> k) es)) as Hnext.
  { eexists. split; [reflexivity |].
    eapply entries_ok_sublist; [apply sublist_filter | exact Hok]. }
  repeat split; cbn [entries localStorage with_history].
  - exact Hnext.
  - now apply write_ok.
Qed.

Lemma clearHistory_ok (io : Backend) (clock : Z) (st : State) :
  state_ok P clock st -> state_ok P clock (clearHistory P io st).
Proof.
  intros [Hm Hs]. split; cbn [clearHistory entries localStorage with_history].
  - apply history_ok_nil.
  - apply write_ok; [apply history_ok_nil | exact Hs].
Qed.

End Preservation.

Lemma filter_keeps_all {A} (Q : A -> Prop) `{!forall x, Decision (Q x)} (l : list A) :
  Forall Q l -> filter Q l = l.
Proof.
  induction 1 as [|x l Hx Hl IH]; [reflexivity |].
  rewrite filter_cons_True by assumption. now f_equal.
Qed.

Section Runs.

Variable P : Props.
Hypothesis cap_nonneg : 0 <= maxHistory P.

Lemma state_ok_timers (clock : Z) (st : State) (ts : gmap nat Timer)
    (n : nat) (c : option nat) :
  state_ok P clock st -> state_ok P clock (with_timers st ts n c).
Proof. intros H. exact H. Qed.

Lemma run_cleanup_ok (clock : Z) (st : State) :
  state_ok P clock st -> state_ok P clock (run_cleanup st).
Proof. unfold run_cleanup. now destruct (cleanup st). Qed.

Lemma schedule_ok (clock : Z) (pathname query : string) (st : State) :
  state_ok P clock st -> state_ok P clock (schedule P pathname query st).
Proof. unfold schedule. now destruct (isIgnored P pathname). Qed.

Lemma step_ok (clock : Z) (ev : Event) (st : State) :
  state_ok P clock st -> clock_monotone clock [ev] ->
  exists st', step P ev st = Ok st' /\ state_ok P (final_clock clock [ev]) st'.
Proof.
  intros Hst Hclock. destruct ev as [pathname query heading now io
                                    | id heading io | k io | io]; simpl in *.
  - destruct Hclock as [Hnow _].
    destruct (capture_ok P cap_nonneg io pathname query heading clock now
                (run_cleanup st) Hnow (run_cleanup_ok clock st Hst))
      as (st1 & -> & Hst1 & _).
    eexists. split; [reflexivity |]. now apply schedule_ok.
  - destruct (timers st !! id) as [t|]; [| now exists st].
    destruct (refine_ok P cap_nonneg io (timer_pathname t) (timer_query t) heading
                clock _ (state_ok_timers clock st (delete id (timers st))
                           (next_timer st) (cleanup st) Hst))
      as (st1 & -> & Hst1 & _).
    now exists st1.
  - destruct (removeEntry_ok P io k clock st Hst) as (st1 & -> & Hst1 & _).
    now exists st1.
  - eexists. split; [reflexivity |]. now apply clearHistory_ok.
Qed.

Lemma clock_monotone_cons (clock : Z) (ev : Event) (evs : list Event) :
  clock_monotone clock (ev :: evs) ->
  clock_monotone clock [ev] /\ clock_monotone (final_clock clock [ev]) evs.
Proof. destruct ev; simpl; tauto. Qed.

Lemma final_clock_cons (clock : Z) (ev : Event) (evs : list Event) :
  final_clock clock (ev :: evs) = final_clock (final_clock clock [ev]) evs.
Proof. now destruct ev. Qed.

Lemma run_ok (clock : Z) (evs : list Event) (st : State) :
  state_ok P clock st -> clock_monotone clock evs ->
  exists st', run P evs st = Ok st' /\ state_ok P (final_clock clock evs) st'.
Proof.
  revert clock st. induction evs as [|ev evs IH]; intros clock st Hst Hclock.
  - now exists st.
  - apply clock_monotone_cons in Hclock as [Hev Hrest].
    destruct (step_ok clock ev st Hst Hev) as (st1 & Hstep & Hst1).
    destruct (IH _ st1 Hst1 Hrest) as (st2 & Hrun & Hst2).
    exists st2. cbn [run]. rewrite Hstep. cbn [bind].
    now rewrite final_clock_cons.
Qed.

Lemma perform_ok (clock : Z) (op : Operation) (st : State) :
  state_ok P clock st -> captures_monotone clock [op] ->
  exists st', perform P op st = Ok st' /\ state_ok P (last_capture clock [op]) st'.
Proof.
  intros Hst Hclock. destruct op as [pathname query heading now io
                                    | pathname query heading io | k io | io]; simpl in *.
  - destruct Hclock as [Hnow _].
    destruct (capture_ok P cap_nonneg io pathname query heading clock now st Hnow Hst)
      as (st1 & -> & Hst1 & _).
    now exists st1.
  - destruct (refine_ok P cap_nonneg io pathname query heading clock st Hst)
      as (st1 & -> & Hst1 & _).
    now exists st1.
  - destruct (removeEntry_ok P io k clock st Hst) as (st1 & -> & Hst1 & _).
    now exists st1.
  - eexists. split; [reflexivity |]. now apply clearHistory_ok.
Qed.

Lemma perform_all_ok (clock : Z) (ops : list Operation) (st : State) :
  state_ok P clock st -> captures_monotone clock ops ->
  exists st', perform_all P ops st = Ok st'
              /\ state_ok P (last_capture clock ops) st'.
Proof.
  revert clock st. induction ops as [|op ops IH]; intros clock st Hst Hclock.
  - now exists st.
  - assert (captures_monotone clock [op]
            /\ captures_monotone (last_capture clock [op]) ops) as [Hop Hrest]
      by (destruct op; simpl in *; tauto).
    destruct (perform_ok clock op st Hst Hop) as (st1 & Hstep & Hst1).
    destruct (IH _ st1 Hst1 Hrest) as (st2 & Hrun & Hst2).
    exists st2. cbn [perform_all]. rewrite Hstep. cbn [bind].
    split; [exact Hrun |]. now destruct op.
Qed.

Lemma mount_ok (clock : Z) (ls : gmap string stored) :
  ls !! storageKey P = None -> state_ok P clock (mount ls).
Proof.
  intros Hls. split; cbn [mount entries localStorage].
  - now apply history_ok_nil.
  - now left.
Qed.

Lemma filter_revisited (k : string) (es : list SidebarHistoryEntry) :
  NoDup (key <$> es) -> k ∈ key <$> es ->
  S (List.length (filter (fun x => key x <> k) es)) = List.length es.
Proof.
  induction es as [|x es IH]; intros Hd Hin.
  - now apply elem_of_nil in Hin.
  - rewrite fmap_cons in Hd, Hin. apply NoDup_cons in Hd as [Hx Hd].
    rewrite filter_cons. destruct (decide (key x <> k)) as [Hne|Heq].
    + apply elem_of_cons in Hin as [Hin|Hin]; [congruence |].
      simpl. f_equal. now apply IH.
    + assert (key x = k) as Hk by (destruct (decide (key x = k)); tauto).
      simpl. f_equal. f_equal. apply filter_keeps_all.
      apply Forall_forall. intros y Hy Hyk. apply Hx. rewrite Hk, <- Hyk.
      now apply list_elem_of_fmap_2.
Qed.

End Runs.

(** ** The cap and the uniqueness of keys, whatever the clock *)

Section Bounded.

Variable P : Props.
Hypothesis cap_nonneg : 0 <= maxHistory P.

Lemma entries_ok_bounded (clock : Z) (es : list SidebarHistoryEntry) :
  entries_ok (maxHistory P) clock es -> entries_bounded (maxHistory P) es.
Proof. intros [Hl Hn _ _]. now split. Qed.

Lemma entries_bounded_sublist (es' es : list SidebarHistoryEntry) :
  es' `sublist_of` es -> entries_bounded (maxHistory P) es ->
  entries_bounded (maxHistory P) es'.
Proof.
  intros Hsub [Hl Hn]. split.
  - apply sublist_length in Hsub. lia.
  - apply (sublist_NoDup (key <$> es') (key <$> es)); [exact Hn |].
    now apply fmap_sublist.
Qed.

Lemma entries_bounded_with_label (es : list SidebarHistoryEntry) (n : nat)
    (e : SidebarHistoryEntry) (l : string) :
  es !! n = Some e -> entries_bounded (maxHistory P) es ->
  entries_bounded (maxHistory P) (<[n := with_label e l]> es).
Proof.
  intros Hn [Hl Hd]. split.
  - now rewrite length_insert.
  - rewrite list_fmap_insert, list_insert_id; [exact Hd |].
    now rewrite list_lookup_fmap, Hn.
Qed.

Lemma visit_nodup (es : list SidebarHistoryEntry) (e : SidebarHistoryEntry) :
  NoDup (key <$> es) -> NoDup (key <$> e :: filter (fun x => key x <> key e) es).
Proof.
  intros Hd. rewrite fmap_cons. constructor.
  - intros (x & Hk & Hx)%list_elem_of_fmap.
    apply list_elem_of_filter in Hx as [Hne _]. congruence.
  - apply (sublist_NoDup _ (key <$> es)); [exact Hd |].
    apply fmap_sublist, sublist_filter.
Qed.

Lemma entries_bounded_visit (es : list SidebarHistoryEntry) (e : SidebarHistoryEntry) :
  entries_bounded (maxHistory P) es ->
  entries_bounded (maxHistory P)
    (Js.slice (e :: filter (fun x => key x <> key e) es) 0 (Some (maxHistory P))).
Proof.
  intros [Hl Hd]. rewrite slice_prefix by assumption. split.
  - rewrite length_take. lia.
  - apply (sublist_NoDup _ (key <$> e :: filter (fun x => key x <> key e) es));
      [now apply visit_nodup |].
    apply fmap_sublist, sublist_take.
Qed.

Lemma history_bounded_nil : history_bounded (maxHistory P) [].
Proof. exists []. split; [reflexivity |]. split; [simpl; lia | constructor]. Qed.

Lemma history_bounded_length (l : list json) :
  history_bounded (maxHistory P) l -> Z.of_nat (List.length l) <= maxHistory P.
Proof. intros (es & -> & Hl & _). now rewrite length_fmap. Qed.

Lemma read_bounded (io : Backend) (ls : gmap string stored) :
  store_bounded P ls ->
  history_bounded (maxHistory P) (readHistory io ls (storageKey P) (maxHistory P)).
Proof.
  intros Hs. destruct (readHistory_cases io ls (storageKey P) (maxHistory P))
    as [-> | (items & Hitems & ->)]; [apply history_bounded_nil |].
  destruct Hs as [Hs | (l & Hl & Hok)]; [congruence |].
  rewrite Hitems in Hl. injection Hl as <-.
  rewrite slice_short; [exact Hok | now apply history_bounded_length].
Qed.

Lemma write_bounded (io : Backend) (ls : gmap string stored) (l : list json) :
  history_bounded (maxHistory P) l -> store_bounded P ls ->
  store_bounded P (writeHistory io ls (storageKey P) l (maxHistory P)).
Proof.
  intros Hl Hs. unfold writeHistory.
  destruct (setItem_throws io); [exact Hs |].
  right. exists l. split; [| exact Hl].
  rewrite lookup_insert_eq, slice_short; [reflexivity |].
  now apply history_bounded_length.
Qed.

Lemma written_bounded (io : Backend) (st : State) (l : list json) :
  history_bounded (maxHistory P) l -> store_bounded P (localStorage st) ->
  state_bounded P
    (with_history st
       (writeHistory io (localStorage st) (storageKey P) l (maxHistory P)) l).
Proof.
  intros Hl Hs. split; cbn [entries localStorage with_history];
    [exact Hl | now apply write_bounded].
Qed.

Lemma capture_bounded (io : Backend) (pathname query : string)
    (heading : option string) (now : Z) (st : State) :
  state_bounded P st ->
  exists st', capture P io pathname query heading now st = Ok st'
              /\ state_bounded P st'.
Proof.
  intros [Hm Hs]. destruct (isIgnored P pathname) eqn:Hi.
  - exists st. unfold capture. rewrite Hi. now repeat split.
  - destruct (read_bounded io _ Hs) as (es & Hr & Hok).
    rewrite (capture_typed P io pathname query heading now st es Hi Hr).
    eexists. split; [reflexivity |]. apply written_bounded; [| exact Hs].
    eexists. split; [reflexivity |]. now apply entries_bounded_visit.
Qed.

Lemma refine_bounded (io : Backend) (pathname query : string)
    (heading : option string) (st : State) :
  state_bounded P st ->
  exists st', refine P io pathname query heading st = Ok st'
              /\ state_bounded P st'.
Proof.
  intros [Hm Hs]. destruct (read_bounded io _ Hs) as (es & Hr & Hok).
  destruct (refine_typed P io pathname query heading st es Hr)
    as [-> | (n & e & Hn & Hk & ->)].
  - exists st. now repeat split.
  - eexists. split; [reflexivity |]. apply written_bounded; [| exact Hs].
    eexists. split; [reflexivity |]. now apply entries_bounded_with_label.
Qed.

Lemma removeEntry_bounded (io : Backend) (k : string) (st : State) :
  state_bounded P st ->
  exists st', removeEntry P io k st = Ok st' /\ state_bounded P st'.
Proof.
  intros [(es & Hm & Hok) Hs]. unfold removeEntry.
  rewrite Hm, filterM_entries. cbn [bind].
  eexists. split; [reflexivity |]. apply written_bounded; [| exact Hs].
  eexists. split; [reflexivity |].
  eapply entries_bounded_sublist; [apply sublist_filter | exact Hok].
Qed.

Lemma clearHistory_bounded (io : Backend) (st : State) :
  state_bounded P st -> state_bounded P (clearHistory P io st).
Proof.
  intros [Hm Hs]. apply written_bounded; [apply history_bounded_nil | exact Hs].
Qed.

Lemma perform_bounded (op : Operation) (st : State) :
  state_bounded P st ->
  exists st', perform P op st = Ok st' /\ state_bounded P st'.
Proof.
  intros Hst. destruct op as [pathname query heading now io
                             | pathname query heading io | k io | io]; simpl.
  - now apply capture_bounded.
  - now apply refine_bounded.
  - now apply removeEntry_bounded.
  - eexists. split; [reflexivity |]. now apply clearHistory_bounded.
Qed.

Lemma perform_all_bounded (ops : list Operation) (st : State) :
  state_bounded P st ->
  exists st', perform_all P ops st = Ok st' /\ state_bounded P st'.
Proof.
  revert st. induction ops as [|op ops IH]; intros st Hst.
  - now exists st.
  - destruct (perform_bounded op st Hst) as (st1 & Hstep & Hst1).
    destruct (IH st1 Hst1) as (st2 & Hrun & Hst2).
    exists st2. cbn [perform_all]. rewrite Hstep. now split.
Qed.

Lemma step_bounded (ev : Event) (st : State) :
  state_bounded P st ->
  exists st', step P ev st = Ok st' /\ state_bounded P st'.
Proof.
  intros Hst. destruct ev as [pathname query heading now io
                             | id heading io | k io | io]; simpl.
  - assert (state_bounded P (run_cleanup st)) as Hst0
      by (unfold run_cleanup; now destruct (cleanup st)).
    destruct (capture_bounded io pathname query heading now _ Hst0)
      as (st1 & -> & Hst1).
    eexists. split; [reflexivity |].
    unfold schedule. now destruct (isIgnored P pathname).
  - destruct (timers st !! id) as [t|]; [| now exists st].
    now apply refine_bounded.
  - now apply removeEntry_bounded.
  - eexists. split; [reflexivity |]. now apply clearHistory_bounded.
Qed.

Lemma run_bounded (evs : list Event) (st : State) :
  state_bounded P st ->
  exists st', run P evs st = Ok st' /\ state_bounded P st'.
Proof.
  revert st. induction evs as [|ev evs IH]; intros st Hst.
  - now exists st.
  - destruct (step_bounded ev st Hst) as (st1 & Hstep & Hst1).
    destruct (IH st1 Hst1) as (st2 & Hrun & Hst2).
    exists st2. cbn [run]. rewrite Hstep. now split.
Qed.

Lemma mount_bounded (ls : gmap string stored) :
  ls !! storageKey P = None -> state_bounded P (mount ls).
Proof.
  intros Hls. split; cbn [mount entries localStorage];
    [apply history_bounded_nil | now left].
Qed.

Lemma capture_front (io : Backend) (pathname query : string)
    (heading : option string) (now : Z) (st : State) :
  1 <= maxHistory P -> store_bounded P (localStorage st) ->
  isIgnored P pathname = false ->
  let loaded := readHistory io (localStorage st) (storageKey P) (maxHistory P) in
  let e := make_entry P pathname query heading now in
  exists st' rest,
    capture P io pathname query heading now st = Ok st'
    /\ entries st' = entry_json <$> e :: rest
    /\ NoDup (key <$> e :: rest)
    /\ (entry_json <$> rest) `sublist_of` loaded
    /\ Z.of_nat (List.length (entries st')) <= maxHistory P
    /\ (setItem_throws io = false -> forall io', getItem_throws io' = false ->
        readHistory io' (localStorage st') (storageKey P) (maxHistory P) = entries st').
Proof.
  intros Hcap Hs Hi loaded e.
  destruct (read_bounded io _ Hs) as (es & Hr & Hl & Hd).
  set (others := filter (fun x => key x <> key e) es).
  exists (with_history st
            (writeHistory io (localStorage st) (storageKey P)
               (entry_json <$> e :: Js.slice others 0 (Some (maxHistory P - 1)))
               (maxHistory P))
            (entry_json <$> e :: Js.slice others 0 (Some (maxHistory P - 1)))),
         (Js.slice others 0 (Some (maxHistory P - 1))).
  assert (Hlen : Z.of_nat (List.length
                   (entry_json <$> e :: Js.slice others 0 (Some (maxHistory P - 1))))
                 <= maxHistory P).
  { rewrite length_fmap. simpl. rewrite slice_prefix by lia.
    rewrite length_take. lia. }
  assert (Hsub : Js.slice others 0 (Some (maxHistory P - 1)) `sublist_of` others).
  { rewrite slice_prefix by lia. apply sublist_take. }
  split.
  { rewrite (capture_typed P io pathname query heading now st es Hi Hr).
    fold e others. now rewrite slice_cons by exact Hcap. }
  cbn [entries localStorage with_history]. repeat split.
  - apply (sublist_NoDup _ (key <$> e :: others)); [now apply visit_nodup |].
    apply fmap_sublist. now apply sublist_skip.
  - unfold loaded. rewrite Hr. apply fmap_sublist.
    etransitivity; [exact Hsub | apply sublist_filter].
  - exact Hlen.
  - intros Hw io' Hr'. now apply read_after_write.
Qed.

Lemma revisit (io : Backend) (pathname query : string) (heading : option string)
    (now : Z) (st : State) :
  store_bounded P (localStorage st) -> isIgnored P pathname = false ->
  let loaded := readHistory io (localStorage st) (storageKey P) (maxHistory P) in
  (exists e0, entry_json e0 ∈ loaded /\ key e0 = currentUrl P pathname query) ->
  exists st' rest,
    capture P io pathname query heading now st = Ok st'
    /\ entries st' = entry_json <$> make_entry P pathname query heading now :: rest
    /\ NoDup (key <$> make_entry P pathname query heading now :: rest)
    /\ (entry_json <$> rest) `sublist_of` loaded
    /\ List.length (entries st') = List.length loaded
    /\ (setItem_throws io = false -> forall io', getItem_throws io' = false ->
        readHistory io' (localStorage st') (storageKey P) (maxHistory P) = entries st').
Proof.
  intros Hs Hi loaded (e0 & Hin & Hk).
  destruct (read_bounded io _ Hs) as (es & Hr & Hl & Hd).
  subst loaded. rewrite Hr in Hin |- *.
  apply list_elem_of_fmap in Hin as (e1 & He & Hin).
  apply entry_json_inj in He. subst e1.
  set (e := make_entry P pathname query heading now).
  set (rest := filter (fun x => key x <> key e) es).
  assert (Hlen : S (List.length rest) = List.length es).
  { apply filter_revisited; [exact Hd |].
    change (key e) with (currentUrl P pathname query). rewrite <- Hk.
    now apply list_elem_of_fmap_2. }
  assert (Hcap : Z.of_nat (List.length (e :: rest)) <= maxHistory P).
  { simpl. rewrite Hlen. exact Hl. }
  eexists. exists rest.
  rewrite (capture_typed P io pathname query heading now _ es Hi Hr).
  fold e rest. rewrite (slice_short (e :: rest)) by exact Hcap.
  split; [reflexivity |]. cbn [entries localStorage with_history].
  repeat split.
  - now apply visit_nodup.
  - apply fmap_sublist, sublist_filter.
  - rewrite !length_fmap. simpl. now rewrite Hlen.
  - intros Hw io' Hr'. apply read_after_write; try assumption.
    now rewrite length_fmap.
Qed.

End Bounded.

(** C1. Every operation (a capture or a refinement for any navigation, a
    removal, a clear, with any read or write of the backend failing) runs
    without raising and takes a state whose in-memory list and whose
    stored list are histories of at most [maxHistory] entries without two
    entries of one key to such a state again; so, starting from an empty
    store, this holds after every operation of any sequence, and of the
    list that any load returns.  When the clock read by the captures does
    not go back, the entries are moreover in descending order of their
    visit time, most recent first.  A capture of a path that is not
    ignored, for a cap of at least one, puts the entry of the navigation at
    position 0, followed by stored entries of other keys in their stored
    order; when the store holds the key already, the list is as long as the
    stored one, the entry is not doubled, and the others keep their order.
    The same invariants hold along every run of the component's events.
    The cap is not negative. *)
Theorem history_invariants (P : Props) :
  0 <= maxHistory P ->
  (forall op st, state_bounded P st ->
     exists st', perform P op st = Ok st' /\ state_bounded P st')
  /\ (forall ls ops, ls !! storageKey P = None ->
      exists st,
        perform_all P ops (mount ls) = Ok st
        /\ history_bounded (maxHistory P) (entries st)
        /\ (forall io, history_bounded (maxHistory P)
                         (readHistory io (localStorage st) (storageKey P)
                            (maxHistory P)))
        /\ forall t0, captures_monotone t0 ops ->
             history_ok (maxHistory P) (last_capture t0 ops) (entries st)
             /\ forall io, history_ok (maxHistory P) (last_capture t0 ops)
                             (readHistory io (localStorage st) (storageKey P)
                                (maxHistory P)))
  /\ (forall io pathname query heading now st,
        1 <= maxHistory P -> store_bounded P (localStorage st) ->
        isIgnored P pathname = false ->
        let loaded := readHistory io (localStorage st) (storageKey P) (maxHistory P) in
        let e := make_entry P pathname query heading now in
        exists st' rest,
          perform P (Capture pathname query heading now io) st = Ok st'
          /\ entries st' = entry_json <$> e :: rest
          /\ NoDup (key <$> e :: rest)
          /\ (entry_json <$> rest) `sublist_of` loaded
          /\ Z.of_nat (List.length (entries st')) <= maxHistory P
          /\ (setItem_throws io = false -> forall io', getItem_throws io' = false ->
              readHistory io' (localStorage st') (storageKey P) (maxHistory P)
              = entries st'))
  /\ (forall io pathname query heading now st,
        store_bounded P (localStorage st) -> isIgnored P pathname = false ->
        let loaded := readHistory io (localStorage st) (storageKey P) (maxHistory P) in
        (exists e0, entry_json e0 ∈ loaded /\ key e0 = currentUrl P pathname query) ->
        exists st' rest,
          perform P (Capture pathname query heading now io) st = Ok st'
          /\ entries st' = entry_json <$> make_entry P pathname query heading now :: rest
          /\ NoDup (key <$> make_entry P pathname query heading now :: rest)
          /\ (entry_json <$> rest) `sublist_of` loaded
          /\ List.length (entries st') = List.length loaded
          /\ (setItem_throws io = false -> forall io', getItem_throws io' = false ->
              readHistory io' (localStorage st') (storageKey P) (maxHistory P)
              = entries st'))
  /\ (forall ls evs, ls !! storageKey P = None ->
      exists st,
        run P evs (mount ls) = Ok st
        /\ history_bounded (maxHistory P) (entries st)
        /\ (forall io, history_bounded (maxHistory P)
                         (readHistory io (localStorage st) (storageKey P)
                            (maxHistory P)))
        /\ forall t0, clock_monotone t0 evs ->
             history_ok (maxHistory P) (final_clock t0 evs) (entries st)
             /\ forall io, history_ok (maxHistory P) (final_clock t0 evs)
                             (readHistory io (localStorage st) (storageKey P)
                                (maxHistory P))).
Proof.
  intros Hcap. split; [| split; [| split; [| split]]].
  - intros op st. now apply perform_bounded.
  - intros ls ops Hls.
    destruct (perform_all_bounded P Hcap ops (mount ls) (mount_bounded P Hcap ls Hls))
      as (st & Hrun & Hmem & Hstore).
    exists st. split; [exact Hrun |]. split; [exact Hmem |].
    split; [intros io; now apply read_bounded |].
    intros t0 Hclock.
    destruct (perform_all_ok P Hcap t0 ops (mount ls) (mount_ok P Hcap t0 ls Hls) Hclock)
      as (st2 & Hrun2 & Hst2).
    rewrite Hrun in Hrun2. injection Hrun2 as <-.
    split; [apply Hst2 |]. intros io. apply read_ok; [exact Hcap | apply Hst2].
  - intros io pathname query heading now st H1 Hs Hi.
    now apply (capture_front P Hcap io pathname query heading now st).
  - intros io pathname query heading now st Hs Hi.
    now apply (revisit P Hcap io pathname query heading now st).
  - intros ls evs Hls.
    destruct (run_bounded P Hcap evs (mount ls) (mount_bounded P Hcap ls Hls))
      as (st & Hrun & Hmem & Hstore).
    exists st. split; [exact Hrun |]. split; [exact Hmem |].
    split; [intros io; now apply read_bounded |].
    intros t0 Hclock.
    destruct (run_ok P Hcap t0 evs (mount ls) (mount_ok P Hcap t0 ls Hls) Hclock)
      as (st2 & Hrun2 & Hst2).
    rewrite Hrun in Hrun2. injection Hrun2 as <-.
    split; [apply Hst2 |]. intros io. apply read_ok; [exact Hcap | apply Hst2].
Qed.

(** ** Timers *)

Section Timers.

Variable P : Props.

Lemma capture_timers (io : Backend) (pathname query : string)
    (heading : option string) (now : Z) (st st' : State) :
  capture P io pathname query heading now st = Ok st' ->
  timers st' = timers st /\ next_timer st' = next_timer st
  /\ cleanup st' = cleanup st.
Proof.
  unfold capture. destruct (isIgnored P pathname); [now intros [= <-] |].
  destruct (filterM _ _); [| discriminate]. now intros [= <-].
Qed.

Lemma findIndex_from_inv (p : json -> result bool) (i : Z) (l : list json) (r : Z) :
  findIndex_from p i l = Ok r ->
  (r = -1 /\ forall y, y ∈ l -> p y = Ok false)
  \/ exists n x, r = i + Z.of_nat n /\ l !! n = Some x /\ p x = Ok true
                 /\ forall m y, (m < n)%nat -> l !! m = Some y -> p y = Ok false.
Proof.
  revert i. induction l as [|z l IH]; intros i; simpl.
  - intros [= <-]. left. split; [reflexivity |]. intros y Hy.
    now apply elem_of_nil in Hy.
  - destruct (p z) as [[|]|] eqn:Hz; simpl; [| | discriminate].
    + intros [= <-]. right. exists 0%nat, z. repeat split; [lia | exact Hz |].
      intros m y Hm. lia.
    + intros H. destruct (IH _ H) as [[-> Hall] | (n & x & -> & Hn & Hx & Hbefore)].
      * left. split; [reflexivity |]. intros y [->|Hy]%elem_of_cons; auto.
      * right. exists (S n), x. repeat split; [lia | exact Hn | exact Hx |].
        intros [|m] y Hm Hy; simpl in Hy; [now injection Hy as <- |].
        apply (Hbefore m); [lia | exact Hy].
Qed.

Lemma refine_cases (io : Backend) (pathname query : string)
    (heading : option string) (st st' : State) :
  refine P io pathname query heading st = Ok st' ->
  let loaded := readHistory io (localStorage st) (storageKey P) (maxHistory P) in
  let k := currentUrl P pathname query in
  let updated := resolve_label P (make_context P pathname query heading) in
  st' = st
  \/ exists n fields,
       first_with_key k loaded n fields
       /\ let next := <[n := JObj (set_field "label" (JStr updated) fields)]> loaded in
          st' = with_history st
                  (writeHistory io (localStorage st) (storageKey P) next (maxHistory P))
                  next.
Proof.
  intros H loaded k updated.
  destruct (Js.truthy_opt heading) eqn:Hh.
  2: { rewrite refine_no_heading in H by assumption. left. congruence. }
  destruct (findIndex (key_is k) loaded) as [r|] eqn:F.
  2: { unfold refine in H. rewrite Hh in H. simpl in H.
       fold loaded k in H. now rewrite F in H. }
  apply findIndex_from_inv in F as [[-> Hall] | (n & x & -> & Hn & Hx & Hbefore)].
  - rewrite refine_no_entry in H by assumption. left. congruence.
  - apply key_is_true in Hx as (fields & -> & Hk).
    assert (first_with_key k loaded n fields) as Hf by (repeat split; assumption).
    rewrite (refine_at P io pathname query heading st n fields Hh Hf) in H.
    fold updated loaded in H.
    destruct (strict_eq_str _ _); [left; congruence |].
    right. exists n, fields. split; [exact Hf |]. cbn zeta in *. congruence.
Qed.

Lemma refine_timers (io : Backend) (pathname query : string)
    (heading : option string) (st st' : State) :
  refine P io pathname query heading st = Ok st' ->
  timers st' = timers st /\ next_timer st' = next_timer st
  /\ cleanup st' = cleanup st.
Proof.
  intros H. destruct (refine_cases _ _ _ _ _ _ H) as [-> | (n & fields & _ & ->)];
    repeat split.
Qed.

Lemma refine_other_keys (io : Backend) (pathname query : string)
    (heading : option string) (st st' : State) :
  refine P io pathname query heading st = Ok st' ->
  let loaded := readHistory io (localStorage st) (storageKey P) (maxHistory P) in
  let k := currentUrl P pathname query in
  st' = st
  \/ (List.length (entries st') = List.length loaded
      /\ localStorage st'
         = writeHistory io (localStorage st) (storageKey P) (entries st') (maxHistory P)
      /\ forall m y, loaded !! m = Some y -> key_is k y <> Ok true ->
           entries st' !! m = Some y).
Proof.
  intros H loaded k.
  destruct (refine_cases _ _ _ _ _ _ H) as [-> | (n & fields & Hf & ->)];
    [now left | right].
  cbn zeta. cbn [entries localStorage with_history]. fold loaded.
  repeat split.
  - apply length_insert.
  - intros m y Hm Hy. destruct Hf as (Hn & Hk & _).
    destruct (decide (m = n)) as [->|Hne].
    + fold k loaded in Hn. rewrite Hn in Hm. injection Hm as <-.
      exfalso. apply Hy. apply key_is_true. eauto.
    + now rewrite list_lookup_insert_ne.
Qed.

Lemma step_timers_ok (last : option Timer) (ev : Event) (st st' : State) :
  timers_ok last st -> step P ev st = Ok st' ->
  timers_ok (last_navigation last [ev]) st'.
Proof.
  intros Hok Hstep.
  destruct ev as [pathname query heading now io | id heading io | k io | io];
    simpl in *.
  - destruct (capture P io pathname query heading now (run_cleanup st))
      as [st1|] eqn:Hc; [| discriminate].
    injection Hstep as <-.
    apply capture_timers in Hc as (Ht & Hn & Hcl).
    assert (timers (run_cleanup st) = ∅ /\ next_timer (run_cleanup st) = next_timer st
            /\ cleanup (run_cleanup st) = None) as (Ht0 & Hn0 & Hc0).
    { unfold run_cleanup. destruct (cleanup st) as [id|] eqn:Hid; simpl.
      - repeat split. apply map_eq. intros j. rewrite lookup_empty.
        destruct (decide (id = j)) as [->|Hne]; [apply lookup_delete_eq |].
        rewrite lookup_delete_ne by assumption.
        destruct (timers st !! j) as [t|] eqn:Hj; [| reflexivity].
        destruct (Hok j t Hj) as (Hcj & _). congruence.
      - repeat split; [| exact Hid]. apply map_eq. intros j. rewrite lookup_empty.
        destruct (timers st !! j) as [t|] eqn:Hj; [| reflexivity].
        destruct (Hok j t Hj) as (Hcj & _). congruence. }
    unfold schedule. destruct (isIgnored P pathname).
    + intros id t Hid. rewrite Ht, Ht0, lookup_empty in Hid. discriminate.
    + intros id t. cbn [timers cleanup next_timer with_timers].
      rewrite Ht, Ht0. intros Hid.
      apply lookup_insert_Some in Hid as [[<- <-] | [_ Hid]].
      * repeat split. lia.
      * rewrite lookup_empty in Hid. discriminate.
  - assert (timers st' ⊆ timers st /\ next_timer st' = next_timer st
            /\ cleanup st' = cleanup st) as (Ht & Hn & Hc).
    { destruct (timers st !! id) as [t|] eqn:Hid.
      - apply refine_timers in Hstep as (-> & -> & ->).
        split; [apply delete_subseteq | split; reflexivity].
      - injection Hstep as <-. split; [reflexivity | split; reflexivity]. }
    intros j t Hj. rewrite Hn, Hc. apply Hok.
    eapply lookup_weaken; eassumption.
  - unfold removeEntry in Hstep.
    destruct (filterM _ _); [| discriminate]. injection Hstep as <-. exact Hok.
  - injection Hstep as <-. exact Hok.
Qed.

Lemma last_navigation_cons (last : option Timer) (ev : Event) (evs : list Event) :
  last_navigation last (ev :: evs)
  = last_navigation (last_navigation last [ev]) evs.
Proof. now destruct ev. Qed.

Lemma run_timers_ok (last : option Timer) (evs : list Event) (st st' : State) :
  timers_ok last st -> run P evs st = Ok st' ->
  timers_ok (last_navigation last evs) st'.
Proof.
  revert last st. induction evs as [|ev evs IH]; intros last st Hok Hrun.
  - injection Hrun as <-. exact Hok.
  - cbn [run] in Hrun. destruct (step P ev st) as [st1|] eqn:Hstep; [| discriminate].
    rewrite last_navigation_cons. apply (IH _ st1); [| exact Hrun].
    now apply (step_timers_ok last ev st).
Qed.

Lemma mount_timers_ok (ls : gmap string stored) : timers_ok None (mount ls).
Proof. intros id t H. cbn [mount timers] in H. now rewrite lookup_empty in H. Qed.

Lemma navigate_cancels (last : option Timer) (st st' : State) (id : nat) (t : Timer)
    (pathname query : string) (heading : option string) (now : Z) (io : Backend) :
  timers_ok last st -> timers st !! id = Some t ->
  step P (Navigate pathname query heading now io) st = Ok st' ->
  timers st' !! id = None.
Proof.
  intros Hok Hid Hstep.
  pose proof (step_timers_ok last _ st st' Hok Hstep) as Hok'.
  destruct (timers st' !! id) as [t'|] eqn:Hid'; [| reflexivity].
  destruct (Hok' id t' Hid') as (Hc' & _ & _).
  destruct (Hok id t Hid) as (_ & _ & Hlt).
  exfalso. cbn [step] in Hstep.
  destruct (capture P io pathname query heading now (run_cleanup st))
    as [st1|] eqn:Hc; [| discriminate].
  injection Hstep as <-. apply capture_timers in Hc as (Ht & Hn & Hcl).
  assert (next_timer (run_cleanup st) = next_timer st
          /\ cleanup (run_cleanup st) = None) as (Hn0 & Hc0).
  { unfold run_cleanup. destruct (cleanup st) eqn:E; now split. }
  unfold schedule in Hc'. destruct (isIgnored P pathname).
  - congruence.
  - cbn [cleanup with_timers] in Hc'. injection Hc' as Hc'. lia.
Qed.

Lemma navigate_timers (last : option Timer) (st st' : State)
    (pathname query : string) (heading : option string) (now : Z) (io : Backend) :
  timers_ok last st ->
  step P (Navigate pathname query heading now io) st = Ok st' ->
  timers st'
  = (if isIgnored P pathname then ∅
     else {[ next_timer st := {| timer_pathname := pathname; timer_query := query |} ]})
  /\ cleanup st' = (if isIgnored P pathname then None else Some (next_timer st)).
Proof.
  intros Hok Hstep. cbn [step] in Hstep.
  destruct (capture P io pathname query heading now (run_cleanup st))
    as [st1|] eqn:Hc; [| discriminate].
  injection Hstep as <-. apply capture_timers in Hc as (Ht & Hn & Hcl).
  assert (timers (run_cleanup st) = ∅ /\ next_timer (run_cleanup st) = next_timer st
          /\ cleanup (run_cleanup st) = None) as (Ht0 & Hn0 & Hc0).
  { unfold run_cleanup. destruct (cleanup st) as [id|] eqn:Hid; simpl.
    - repeat split. apply map_eq. intros j. rewrite lookup_empty.
      destruct (decide (id = j)) as [->|Hne]; [apply lookup_delete_eq |].
      rewrite lookup_delete_ne by assumption.
      destruct (timers st !! j) as [t|] eqn:Hj; [| reflexivity].
      destruct (Hok j t Hj) as (Hcj & _). congruence.
    - repeat split; [| exact Hid]. apply map_eq. intros j. rewrite lookup_empty.
      destruct (timers st !! j) as [t|] eqn:Hj; [| reflexivity].
      destruct (Hok j t Hj) as (Hcj & _). congruence. }
  unfold schedule. destruct (isIgnored P pathname).
  - split; congruence.
  - cbn [timers cleanup with_timers]. rewrite Ht, Ht0, Hn, Hn0. split; reflexivity.
Qed.

Lemma readHistory_same_read (io io' : Backend) (ls : gmap string stored)
    (sk : string) (cap : Z) :
  getItem_throws io = getItem_throws io' ->
  readHistory io ls sk cap = readHistory io' ls sk cap.
Proof. unfold readHistory, readHistory_try. now intros ->. Qed.

Lemma refine_stored_other_keys (io : Backend) (pathname query : string)
    (heading : option string) (st st' : State) :
  0 <= maxHistory P ->
  refine P io pathname query heading st = Ok st' ->
  let loaded := readHistory io (localStorage st) (storageKey P) (maxHistory P) in
  let k := currentUrl P pathname query in
  forall io', getItem_throws io' = false ->
  forall m y, loaded !! m = Some y -> key_is k y <> Ok true ->
    readHistory io' (localStorage st') (storageKey P) (maxHistory P) !! m = Some y.
Proof.
  intros Hcap H loaded k io' Hr m y Hm Hy.
  assert (Hio : getItem_throws io = getItem_throws io').
  { rewrite Hr. destruct (getItem_throws io) eqn:E; [| reflexivity].
    unfold loaded in Hm.
    rewrite (readHistory_read_failure io _ _ _ E) in Hm. discriminate. }
  destruct (refine_other_keys _ _ _ _ _ _ H) as [-> | (Hlen & Hls & Hother)].
  - now rewrite <- (readHistory_same_read io io' _ _ _ Hio).
  - rewrite Hls. destruct (setItem_throws io) eqn:Hw.
    + rewrite writeHistory_failed by exact Hw.
      now rewrite <- (readHistory_same_read io io' _ _ _ Hio).
    + rewrite read_after_write; [now apply Hother | exact Hw | exact Hr |].
      rewrite Hlen. now apply readHistory_length.
Qed.

End Timers.

(** C6. Along every run from the mount, a pending timer is the one set by
    the latest navigation and held by the cleanup, so there is at most one
    pending refinement.  A new navigation leaves no timer of an earlier
    navigation pending: after it the only pending timer is its own, and
    there is none when its path is ignored.  A timer that is no longer
    pending does nothing when its time comes.  A timer that fires either
    changes neither the in-memory list nor the backend, or refines for the
    latest navigation: every entry of the reloaded store whose key is not
    the canonical key of that navigation is at its position, unchanged, in
    the new in-memory list, which is the list written to the backend.  Of
    the refinement callback taken alone, whatever the state: when no
    reloaded entry has its key it returns the state as it is; otherwise it
    returns the state as it is or leaves every reloaded entry of another
    key unchanged at its position, in memory and in what it writes, so that
    any later load finds these entries as they were. *)
Theorem stale_refinement (P : Props) (ls : gmap string stored)
    (evs : list Event) (st : State) :
  run P evs (mount ls) = Ok st ->
  (forall id t, timers st !! id = Some t ->
     cleanup st = Some id /\ last_navigation None evs = Some t)
  /\ (forall pathname query heading now io st',
        step P (Navigate pathname query heading now io) st = Ok st' ->
        (forall id t, timers st !! id = Some t -> timers st' !! id = None)
        /\ timers st'
           = (if isIgnored P pathname then ∅
              else {[ next_timer st :=
                        {| timer_pathname := pathname; timer_query := query |} ]}))
  /\ (forall id heading io st',
        step P (TimerFires id heading io) st = Ok st' ->
        (timers st !! id = None -> st' = st)
        /\ ((entries st' = entries st /\ localStorage st' = localStorage st)
            \/ exists t,
                 last_navigation None evs = Some t /\ timers st !! id = Some t
                 /\ let k := currentUrl P (timer_pathname t) (timer_query t) in
                    let loaded :=
                      readHistory io (localStorage st) (storageKey P) (maxHistory P) in
                    List.length (entries st') = List.length loaded
                    /\ (forall m y, loaded !! m = Some y -> key_is k y <> Ok true ->
                          entries st' !! m = Some y)
                    /\ localStorage st'
                       = writeHistory io (localStorage st) (storageKey P)
                           (entries st') (maxHistory P)))
  /\ (forall io pathname query heading s,
        let k := currentUrl P pathname query in
        let loaded := readHistory io (localStorage s) (storageKey P) (maxHistory P) in
        ((forall y, y ∈ loaded -> key_is k y = Ok false) ->
         refine P io pathname query heading s = Ok s)
        /\ forall s',
             refine P io pathname query heading s = Ok s' ->
             (s' = s
              \/ (List.length (entries s') = List.length loaded
                  /\ (forall m y, loaded !! m = Some y -> key_is k y <> Ok true ->
                        entries s' !! m = Some y)
                  /\ localStorage s'
                     = writeHistory io (localStorage s) (storageKey P)
                         (entries s') (maxHistory P)))
             /\ (0 <= maxHistory P ->
                 forall io', getItem_throws io' = false ->
                 forall m y, loaded !! m = Some y -> key_is k y <> Ok true ->
                   readHistory io' (localStorage s') (storageKey P) (maxHistory P) !! m
                   = Some y)).
Proof.
  intros Hrun.
  pose proof (run_timers_ok P None evs _ st (mount_timers_ok ls) Hrun) as Hok.
  split; [| split; [| split]].
  - intros id t Hid. split; now apply (Hok id t).
  - intros pathname query heading now io st' Hstep. split.
    + intros id t Hid.
      now apply (navigate_cancels P (last_navigation None evs) st st' id t
                   pathname query heading now io).
    + now apply (navigate_timers P (last_navigation None evs) st st'
                   pathname query heading now io).
  - intros id heading io st' Hstep. cbn [step] in Hstep.
    destruct (timers st !! id) as [t|] eqn:Hid.
    + split; [discriminate |].
      destruct (refine_other_keys P _ _ _ _ _ _ Hstep) as [-> | (Hlen & Hls & Hother)].
      * now left.
      * right. exists t. repeat split;
          [now apply (Hok id t) | exact Hlen | exact Hother | exact Hls].
    + injection Hstep as <-. split; [reflexivity | now left].
  - intros io pathname query heading s k loaded. split.
    + apply refine_no_entry.
    + intros s' H. split.
      * destruct (refine_other_keys P _ _ _ _ _ _ H) as [-> | (Hlen & Hls & Hother)];
          [now left | right; repeat split; assumption].
      * intros Hcap. now apply (refine_stored_other_keys P io pathname query heading s s').
Qed.

(** ** Trailing slashes *)

Section TrailingSlash.

Lemma split_nonempty (sep : ascii) (s : string) : Js.split sep s <> [].
Proof.
  destruct s as [|c s]; simpl; [discriminate |].
  destruct (Ascii.eqb c sep); [discriminate |].
  now destruct (Js.split sep s).
Qed.

Lemma split_trailing (sep : ascii) (s : string) :
  Js.split sep (s +:+ String sep EmptyString)
  = (Js.split sep s ++ [EmptyString])%list.
Proof.
  induction s as [|c s IH].
  - rewrite append_nil_l. simpl. now rewrite Ascii.eqb_refl.
  - rewrite append_cons. simpl. rewrite IH.
    destruct (Ascii.eqb c sep); [reflexivity |].
    pose proof (split_nonempty sep s) as Hne.
    now destruct (Js.split sep s).
Qed.

Lemma segments_trailing (p : string) : segments_of (p +:+ "/") = segments_of p.
Proof.
  unfold segments_of. rewrite split_trailing, List.filter_app. simpl.
  apply app_nil_r.
Qed.

Lemma resolver_depends (c1 c2 : SidebarHistoryLabelContext) :
  segments c1 = segments c2 -> heading c1 = heading c2 -> query c1 = query c2 ->
  defaultLabelResolver c1 = defaultLabelResolver c2.
Proof. unfold defaultLabelResolver. now intros -> -> ->. Qed.

Lemma trailing_differs (p : string) : p <> p +:+ "/".
Proof.
  intros H. apply (f_equal String.length) in H.
  rewrite length_append in H. simpl in H. lia.
Qed.

End TrailingSlash.

(** C10. With no base path and an empty query, for every pathname [p] (and
    so for every [p] that does not end with a slash): the keys of a visit
    of [p] and of a visit of [p] followed by a slash are [p] and [p]
    followed by a slash, which differ; the segments of the two paths are
    the same, and so is the default label for one heading; and, neither
    path being ignored, the cap being at least two, the first write and
    the second read succeeding and the store holding entries, the two
    visits in a row leave the two entries at the first two positions. *)
Theorem trailing_slash_entries (P : Props) (p : string) (h1 h2 : option string)
    (t1 t2 : Z) (io1 io2 : Backend) (st : State) (es : list SidebarHistoryEntry) :
  basePath P = None -> 2 <= maxHistory P ->
  isIgnored P p = false -> isIgnored P (p +:+ "/") = false ->
  setItem_throws io1 = false -> getItem_throws io2 = false ->
  readHistory io1 (localStorage st) (storageKey P) (maxHistory P) = entry_json <$> es ->
  let e1 := make_entry P p EmptyString h1 t1 in
  let e2 := make_entry P (p +:+ "/") EmptyString h2 t2 in
  key e1 = p /\ key e2 = p +:+ "/" /\ key e1 <> key e2
  /\ segments_of (p +:+ "/") = segments_of p
  /\ (forall h, defaultLabelResolver (make_context P (p +:+ "/") EmptyString h)
                = defaultLabelResolver (make_context P p EmptyString h))
  /\ exists st2 rest,
       run P [Navigate p EmptyString h1 t1 io1;
              Navigate (p +:+ "/") EmptyString h2 t2 io2] st = Ok st2
       /\ entries st2 = entry_json <$> e2 :: e1 :: rest.
Proof.
  intros Hbase Hcap Hi1 Hi2 Hw Hr Hes e1 e2.
  assert (Hk1 : key e1 = p).
  { unfold e1, make_entry, currentUrl. cbn [key]. now rewrite Hbase. }
  assert (Hk2 : key e2 = p +:+ "/").
  { unfold e2, make_entry, currentUrl. cbn [key]. now rewrite Hbase. }
  assert (Hne : key e1 <> key e2).
  { rewrite Hk1, Hk2. apply trailing_differs. }
  repeat split; try assumption.
  - apply segments_trailing.
  - intros h. apply resolver_depends; try reflexivity.
    unfold make_context. cbn [segments]. rewrite Hbase. simpl.
    apply segments_trailing.
  - assert (Hsame : localStorage (run_cleanup st) = localStorage st).
    { unfold run_cleanup. now destruct (cleanup st). }
    assert (Hsched : forall q s, entries (schedule P q EmptyString s) = entries s
                       /\ localStorage (schedule P q EmptyString s) = localStorage s).
    { intros q s. unfold schedule. now destruct (isIgnored P q). }
    assert (Hclean : forall s, entries (run_cleanup s) = entries s
                       /\ localStorage (run_cleanup s) = localStorage s).
    { intros s. unfold run_cleanup. now destruct (cleanup s). }
    eexists. eexists. split.
    + cbn [run step].
      rewrite <- Hsame in Hes.
      rewrite (capture_typed P io1 p EmptyString h1 t1 _ es Hi1 Hes).
      cbn [bind]. fold e1. rewrite slice_cons by lia. rewrite Hsame.
      set (l1 := e1 :: Js.slice (filter (fun x => key x <> key e1) es) 0
                          (Some (maxHistory P - 1))).
      assert (Hlen : Z.of_nat (List.length (entry_json <$> l1)) <= maxHistory P).
      { rewrite length_fmap. unfold l1. simpl.
        rewrite slice_prefix by lia. rewrite length_take. lia. }
      match goal with
      | |- context [capture P io2 _ _ _ _ ?s] =>
          assert (Hread : readHistory io2 (localStorage s) (storageKey P) (maxHistory P)
                          = entry_json <$> l1)
      end.
      { rewrite (proj2 (Hclean _)), (proj2 (Hsched _ _)).
        cbn [localStorage with_history]. now apply read_after_write. }
      rewrite (capture_typed P io2 (p +:+ "/") EmptyString h2 t2 _ l1 Hi2 Hread).
      cbn [bind]. reflexivity.
    + rewrite (proj1 (Hsched _ _)). cbn [entries with_history]. fold e1 e2.
      rewrite filter_cons_True by exact Hne.
      rewrite slice_cons by lia. rewrite slice_cons by lia. reflexivity.
Qed.

(** ** The statements at concrete inputs *)

Lemma normalization_identity_witness :
  normalizePath "/dashboard/users" (basePath dashboard_props) = "/" +:+ "users"
  /\ normalizePath "/dashboard" (basePath dashboard_props) = "/"
  /\ currentUrl dashboard_props "/dashboard/users" "tab=1"
     = normalizePath "/dashboard/users" (basePath dashboard_props) +:+ "?" +:+ "tab=1".
Proof.
  split; [| split].
  - apply (proj1 (normalization_identity dashboard_props "/dashboard/users"
                    "tab=1" None 0) "/dashboard" "users"); reflexivity.
  - apply (proj1 (proj2 (normalization_identity dashboard_props "/dashboard"
                           "tab=1" None 0)) "/dashboard");
      [reflexivity | discriminate | reflexivity].
  - apply (proj1 (proj2 (proj2 (normalization_identity dashboard_props
                                  "/dashboard/users" "tab=1" None 0)))).
    discriminate.
Defined.

Lemma history_invariants_witness :
  (exists st, perform_all dashboard_props three_captures (mount ∅) = Ok st
              /\ history_ok 50 3 (entries st))
  /\ exists st' rest,
       capture dashboard_props reliable ("/dashboard/users/" +:+ uuid_example)
         EmptyString (Some "Jane Doe") 9 jane_state = Ok st'
       /\ entries st'
          = entry_json <$> make_entry dashboard_props
                             ("/dashboard/users/" +:+ uuid_example) EmptyString
                             (Some "Jane Doe") 9 :: rest
       /\ List.length (entries st') = 1%nat.
Proof.
  assert (Hcap : 0 <= maxHistory dashboard_props)
    by (unfold dashboard_props, DEFAULT_MAX_HISTORY; simpl; lia).
  destruct (history_invariants dashboard_props Hcap)
    as (_ & Hseq & _ & Hrevisit & _).
  split.
  - destruct (Hseq ∅ three_captures) as (st & Hrun & _ & _ & Hsorted);
      [reflexivity |].
    exists st. split; [exact Hrun |].
    apply (Hsorted 0). simpl. lia.
  - destruct (Hrevisit reliable ("/dashboard/users/" +:+ uuid_example) EmptyString
                (Some "Jane Doe") 9 jane_state)
      as (st' & rest & Hc & Hentries & _ & _ & Hlen & _).
    + right. exists [entry_json jane_entry]. split; [reflexivity |].
      exists [jane_entry]. split; [reflexivity |].
      split; [unfold dashboard_props, DEFAULT_MAX_HISTORY; simpl; lia |].
      apply NoDup_singleton.
    + reflexivity.
    + exists jane_entry. split; [| reflexivity].
      change (entry_json jane_entry ∈ [entry_json jane_entry]). apply list_elem_of_here.
    + exists st', rest. split; [exact Hc |]. split; [exact Hentries |]. exact Hlen.
Defined.

Lemma stale_refinement_witness :
  exists st, run dashboard_props three_visits (mount ∅) = Ok st
             /\ (forall id t, timers st !! id = Some t ->
                   cleanup st = Some id
                   /\ last_navigation None three_visits = Some t)
             /\ forall st',
                  step dashboard_props (TimerFires 0 (Some "A") reliable) st = Ok st' ->
                  st' = st.
Proof.
  destruct (run dashboard_props three_visits (mount ∅)) as [st|] eqn:E.
  - exists st. split; [reflexivity |].
    destruct (stale_refinement dashboard_props ∅ three_visits st E)
      as (Hpending & _ & Hfires & _).
    split; [exact Hpending |].
    intros st' Hstep. apply (proj1 (Hfires 0%nat (Some "A") reliable st' Hstep)).
    vm_compute in E. injection E as <-. reflexivity.
  - vm_compute in E. discriminate.
Defined.

Lemma refinement_frame_witness :
  exists fields' st',
    refine dashboard_props reliable ("/dashboard/users/" +:+ uuid_example) EmptyString
      (Some "Jane Doe") jane_state = Ok st'
    /\ entries st' = <[0%nat := JObj fields']> [entry_json jane_entry]
    /\ lookup_field "label" fields' = Some (JStr "Users / Jane Doe")
    /\ lookup_field "visitedAt" fields' = Some (JNum 7).
Proof.
  destruct (proj2 (proj2 (proj2 (refinement_frame dashboard_props reliable
              ("/dashboard/users/" +:+ uuid_example) EmptyString (Some "Jane Doe")
              jane_state)))
              0%nat
              [("key", JStr (key jane_entry)); ("url", JStr (url jane_entry));
               ("label", JStr (label jane_entry));
               ("visitedAt", JNum (visitedAt jane_entry))])
    as (fields' & st' & Hrefine & Hentries & Hlabel & Hother & _).
  - reflexivity.
  - repeat split; [intros m y Hm; lia].
  - vm_compute. discriminate.
  - exists fields', st'. repeat split.
    + exact Hrefine.
    + exact Hentries.
    + exact Hlabel.
    + rewrite Hother; [reflexivity | discriminate].
Defined.

Lemma trailing_slash_entries_witness :
  exists st2 rest,
    run plain_props
      [Navigate "/docs" EmptyString None 1 reliable;
       Navigate ("/docs" +:+ "/") EmptyString None 2 reliable] (mount ∅) = Ok st2
    /\ entries st2
       = entry_json <$> make_entry plain_props ("/docs" +:+ "/") EmptyString None 2
                        :: make_entry plain_props "/docs" EmptyString None 1 :: rest.
Proof.
  refine (proj2 (proj2 (proj2 (proj2 (proj2
    (trailing_slash_entries plain_props "/docs" None None 1 2 reliable reliable
       (mount ∅) [] _ _ _ _ _ _ _)))))).
  - reflexivity.
  - unfold plain_props. simpl. lia.
  - reflexivity.
  - reflexivity.
  - reflexivity.
  - reflexivity.
  - reflexivity.
Defined.

Example scenario_A :
  defaultLabelResolver
    {| heading := None; pathname := "/docs/intro"; query := EmptyString;
       segments := ["docs"; "intro"]; ctx_url := "/docs/intro" |} = "Docs / Intro".
Proof. vm_compute. reflexivity. Qed.

Example uuid_ok : Regex.test UUID_PATTERN "123e4567-e89b-12d3-a456-426614174000" = true.
Proof. vm_compute. reflexivity. Qed.

Example uuid_upper : Regex.test UUID_PATTERN "123E4567-E89B-12D3-A456-426614174000" = true.
Proof. vm_compute. reflexivity. Qed.

Example uuid_v6 : Regex.test UUID_PATTERN "123e4567-e89b-62d3-a456-426614174000" = false.
Proof. vm_compute. reflexivity. Qed.

(** * Further properties of the code *)

(** ** Title-casing twice *)

Section TitleCaseAgain.

Lemma upper_keeps_word (c : ascii) :
  Js.is_word (Js.toUpperCase_char c) = Js.is_word c.
Proof. each_unit c. Qed.

Lemma upper_upper (c : ascii) :
  Js.toUpperCase_char (Js.toUpperCase_char c) = Js.toUpperCase_char c.
Proof. each_unit c. Qed.

Lemma separator_after_replace (c : ascii) :
  separator_to_space (separator_to_space c) = separator_to_space c.
Proof. each_unit c. Qed.

Lemma separator_after_upper (c : ascii) :
  separator_to_space (Js.toUpperCase_char (separator_to_space c))
  = Js.toUpperCase_char (separator_to_space c).
Proof. each_unit c. Qed.

Lemma not_separator_after_replace (c : ascii) :
  Ascii.eqb (separator_to_space c) "-" || Ascii.eqb (separator_to_space c) "_" = false.
Proof. each_unit c. Qed.

Lemma not_separator_after_upper (c : ascii) :
  Ascii.eqb (Js.toUpperCase_char (separator_to_space c)) "-"
  || Ascii.eqb (Js.toUpperCase_char (separator_to_space c)) "_" = false.
Proof. each_unit c. Qed.

Lemma upper_word_starts_twice (prev : bool) (s : string) :
  upper_word_starts prev (upper_word_starts prev s) = upper_word_starts prev s.
Proof.
  revert prev. induction s as [|c s IH]; intros prev; simpl; [reflexivity |].
  destruct (Js.is_word c && negb prev) eqn:E.
  - rewrite upper_keeps_word, E, upper_upper, IH. reflexivity.
  - rewrite E, IH. reflexivity.
Qed.

Lemma replace_after_title (prev : bool) (s : string) :
  replace_dash_underscore (upper_word_starts prev (replace_dash_underscore s))
  = upper_word_starts prev (replace_dash_underscore s).
Proof.
  unfold replace_dash_underscore.
  revert prev. induction s as [|c s IH]; intros prev; simpl; [reflexivity |].
  rewrite IH. f_equal.
  destruct (Js.is_word (separator_to_space c) && negb prev).
  - apply separator_after_upper.
  - apply separator_after_replace.
Qed.

Lemma title_has_no_separator (prev : bool) (s : string) :
  Js.str_all (fun c => negb (Ascii.eqb c "-" || Ascii.eqb c "_"))
    (upper_word_starts prev (replace_dash_underscore s)) = true.
Proof.
  unfold replace_dash_underscore.
  revert prev. induction s as [|c s IH]; intros prev; simpl; [reflexivity |].
  rewrite IH, andb_true_r.
  destruct (Js.is_word (separator_to_space c) && negb prev).
  - now rewrite not_separator_after_upper.
  - now rewrite not_separator_after_replace.
Qed.

End TitleCaseAgain.

(** X1. Title-casing a title-cased string changes nothing, and a
    title-cased string has no hyphen and no underscore. *)
Theorem toTitleCase_idempotent (s : string) :
  toTitleCase (toTitleCase s) = toTitleCase s
  /\ Js.str_all (fun c => negb (Ascii.eqb c "-" || Ascii.eqb c "_")) (toTitleCase s) = true.
Proof.
  split.
  - unfold toTitleCase. rewrite replace_after_title. apply upper_word_starts_twice.
  - apply title_has_no_separator.
Qed.

(** ** Normalised paths and their segments *)

Section Segments.

Lemma split_pieces_no_sep (sep : ascii) (s piece : string) :
  In piece (Js.split sep s) ->
  Js.str_all (fun c => negb (Ascii.eqb c sep)) piece = true.
Proof.
  revert piece. induction s as [|c s IH]; intros piece; simpl.
  - intros [<- | []]. reflexivity.
  - destruct (Ascii.eqb c sep) eqn:E.
    + intros [<- | H]; [reflexivity | now apply IH].
    + destruct (Js.split sep s) as [|w ws] eqn:S.
      * intros [<- | []]. simpl. now rewrite E.
      * intros [<- | H].
        -- simpl. rewrite E. simpl. apply IH. now left.
        -- apply IH. now right.
Qed.

Lemma split_all_empty (sep : ascii) (s : string) :
  Forall (fun piece => piece = EmptyString) (Js.split sep s)
  <-> Js.str_all (fun c => Ascii.eqb c sep) s = true.
Proof.
  induction s as [|c s IH]; simpl.
  - split; [reflexivity | intros _; repeat constructor].
  - destruct (Ascii.eqb c sep) eqn:E; simpl.
    + rewrite Forall_cons. tauto.
    + split; [| discriminate].
      destruct (Js.split sep s); intros H; apply Forall_cons in H as [H _]; discriminate.
Qed.

Lemma filter_truthy_nil (l : list string) :
  List.filter Js.truthy l = [] <-> Forall (fun piece => piece = EmptyString) l.
Proof.
  induction l as [|x l IH]; simpl.
  - split; [constructor | reflexivity].
  - rewrite Forall_cons. destruct x; simpl.
    + rewrite IH. tauto.
    + split; [discriminate | intros [H _]; discriminate].
Qed.

Lemma normalizePath_cases (p : string) (b : option string) :
  normalizePath p b = p
  \/ (exists base rest, b = Some base /\ base <> EmptyString
                        /\ p = base +:+ "/" +:+ rest
                        /\ normalizePath p b = "/" +:+ rest)
  \/ (exists base, b = Some base /\ base <> EmptyString /\ p = base
                   /\ normalizePath p b = "/").
Proof.
  destruct b as [base|]; [| now left].
  destruct (Js.truthy base) eqn:T.
  2: { left. unfold normalizePath. now rewrite T. }
  apply truthy_true in T.
  destruct (Js.startsWith (base +:+ "/") p) eqn:S.
  - apply startsWith_spec in S as [rest ->]. rewrite append_assoc.
    right. left. exists base, rest. repeat split; try assumption.
    apply normalizePath_strip.
  - destruct (String.eqb_spec p base) as [->|Hne].
    + right. right. exists base. repeat split; try assumption.
      now apply normalizePath_exact.
    + left. unfold normalizePath. rewrite S, andb_false_r.
      apply String.eqb_neq in Hne. now rewrite Hne, andb_false_r.
Qed.

End Segments.

(** X2. Normalisation never lengthens a path and empties none: the
    normalised path is not longer than the pathname, and is the empty
    string only when the pathname is. *)
Theorem normalizePath_bounds (p : string) (b : option string) :
  (String.length (normalizePath p b) <= String.length p)%nat
  /\ (normalizePath p b = EmptyString <-> p = EmptyString).
Proof.
  destruct (normalizePath_cases p b)
    as [-> | [(base & rest & -> & Hb & -> & ->) | (base & -> & Hb & -> & ->)]].
  - split; [lia | tauto].
  - split.
    + rewrite !length_append. lia.
    + split; [discriminate |]. intros H. apply (f_equal String.length) in H.
      rewrite !length_append in H. simpl in H. lia.
  - split.
    + destruct base; [congruence | simpl; lia].
    + split; [discriminate | congruence].
Qed.

(** X3. Every segment built from a normalised path is a non-empty string
    without a slash; a path has no segment exactly when it is made of
    slashes only (the empty path among them), and then the default label
    is "Home" whatever the heading and the query are. *)
Theorem segments_shape (P : Props) (p query : string) (heading : option string) :
  (forall seg, In seg (segments_of p) -> seg <> EmptyString /\ no_slash seg = true)
  /\ (segments_of p = [] <-> only_slashes p = true)
  /\ (only_slashes (normalizePath p (basePath P)) = true ->
      defaultLabelResolver (make_context P p query heading) = "Home").
Proof.
  repeat split.
  - apply List.filter_In in H as [_ H]. now apply truthy_true.
  - apply List.filter_In in H as [H _]. now apply (split_pieces_no_sep "/" p).
  - intros H. apply filter_truthy_nil in H. now apply split_all_empty in H.
  - intros H. apply filter_truthy_nil. now apply split_all_empty.
  - intros H. unfold defaultLabelResolver, make_context. cbn [segments].
    assert (segments_of (normalizePath p (basePath P)) = []) as ->; [| reflexivity].
    apply filter_truthy_nil. now apply split_all_empty.
Qed.

Lemma segments_shape_witness :
  defaultLabelResolver (make_context dashboard_props "/dashboard" "a_id=1" (Some "Title"))
  = "Home".
Proof.
  apply (proj2 (proj2 (segments_shape dashboard_props "/dashboard" "a_id=1" (Some "Title")))).
  reflexivity.
Defined.

(** X4. A path is ignored exactly when the list of ignored paths has an
    entry that the normalised path equals or that, followed by a slash,
    starts the normalised path; no path is ignored without such a list. *)
Theorem isIgnored_spec (P : Props) (p : string) :
  isIgnored P p = true <->
  exists ignored_paths ignored,
    ignorePaths P = Some ignored_paths /\ In ignored ignored_paths
    /\ (normalizePath p (basePath P) = ignored
        \/ exists rest, normalizePath p (basePath P) = ignored +:+ "/" +:+ rest).
Proof.
  unfold isIgnored. destruct (ignorePaths P) as [l|].
  2: { split; [discriminate | now intros (? & ? & [=] & _)]. }
  destruct l as [|x l].
  { split; [discriminate | now intros (? & ? & [= <-] & [] & _)]. }
  replace (Z.of_nat (List.length (x :: l)) =? 0) with false by (simpl; lia).
  rewrite existsb_exists. split.
  - intros (ignored & Hin & H). exists (x :: l), ignored. repeat split; [exact Hin |].
    apply orb_true_iff in H as [H | H].
    + left. now apply String.eqb_eq.
    + right. apply startsWith_spec in H as [rest H]. exists rest.
      now rewrite <- append_assoc.
  - intros (l' & ignored & [= <-] & Hin & H). exists ignored. split; [exact Hin |].
    apply orb_true_iff. destruct H as [-> | [rest ->]].
    + left. apply String.eqb_refl.
    + right. rewrite <- append_assoc. apply startsWith_app.
Qed.

(** ** Saving and loading *)

Section SaveLoad.

Lemma slice_slice {A} (l : list A) (cap : Z) :
  0 <= cap -> Js.slice (Js.slice l 0 (Some cap)) 0 (Some cap) = Js.slice l 0 (Some cap).
Proof.
  intros H. apply slice_short. rewrite slice_prefix by assumption.
  rewrite length_take. lia.
Qed.

Lemma slice_length {A} (l : list A) (cap : Z) :
  0 <= cap -> Z.of_nat (List.length (Js.slice l 0 (Some cap))) <= cap.
Proof. intros H. rewrite slice_prefix by assumption. rewrite length_take. lia. Qed.

Lemma readHistory_other_key (io io' : Backend) (ls : gmap string stored)
    (sk sk' : string) (l : list json) (cap cap' : Z) :
  sk' <> sk ->
  readHistory io' (writeHistory io ls sk l cap) sk' cap' = readHistory io' ls sk' cap'.
Proof.
  intros Hne. unfold writeHistory. destruct (setItem_throws io); [reflexivity |].
  unfold readHistory, readHistory_try. now rewrite lookup_insert_ne.
Qed.

Lemma writeHistory_other_key (io : Backend) (ls : gmap string stored)
    (sk k : string) (l : list json) (cap : Z) :
  k <> sk -> writeHistory io ls sk l cap !! k = ls !! k.
Proof.
  intros Hne. unfold writeHistory. destruct (setItem_throws io); [reflexivity |].
  now apply lookup_insert_ne.
Qed.

End SaveLoad.

(** X5. Saving and then loading with the same cap, not negative, returns
    the first [cap] entries of the list saved, in order, when the write and
    the read succeed; a failed write leaves the backend as it was; and a
    save under one storage key changes no load under another key. *)
Theorem save_load (io io' : Backend) (ls : gmap string stored) (sk : string)
    (l : list json) (cap : Z) :
  (0 <= cap -> setItem_throws io = false -> getItem_throws io' = false ->
   readHistory io' (writeHistory io ls sk l cap) sk cap = take (Z.to_nat cap) l)
  /\ (setItem_throws io = true -> writeHistory io ls sk l cap = ls)
  /\ (forall sk' cap', sk' <> sk ->
      readHistory io' (writeHistory io ls sk l cap) sk' cap'
      = readHistory io' ls sk' cap').
Proof.
  repeat split.
  - intros Hcap Hw Hr. unfold writeHistory. rewrite Hw.
    erewrite readHistory_array; [| exact Hr | apply lookup_insert_eq].
    rewrite slice_slice by assumption. now apply slice_prefix.
  - apply writeHistory_failed.
  - intros sk' cap' Hne. now apply readHistory_other_key.
Qed.

Lemma save_load_witness :
  readHistory reliable
    (writeHistory reliable ∅ "h" [JNum 1; JNum 2; JNum 3] 2) "h" 2
  = take (Z.to_nat 2) [JNum 1; JNum 2; JNum 3].
Proof.
  apply (proj1 (save_load reliable reliable ∅ "h" [JNum 1; JNum 2; JNum 3] 2));
    [lia | reflexivity | reflexivity].
Defined.

(** ** What the operations leave alone *)

Section Frames.

Variable P : Props.

Lemma filterM_length (p : json -> result bool) (l l' : list json) :
  filterM p l = Ok l' -> (List.length l' <= List.length l)%nat.
Proof.
  revert l'. induction l as [|x l IH]; intros l'; simpl.
  - intros [= <-]. simpl. lia.
  - destruct (p x) as [b|]; [| discriminate]. simpl.
    destruct (filterM p l) as [r|]; [| discriminate]. simpl.
    intros [= <-]. specialize (IH r eq_refl). destruct b; simpl; lia.
Qed.

(** What an operation makes of the history, and the list it hands to
    [writeHistory], if it writes. *)
Lemma perform_writes (op : Operation) (st st' : State) :
  perform P op st = Ok st' ->
  timers st' = timers st /\ next_timer st' = next_timer st /\ cleanup st' = cleanup st
  /\ (st' = st
      \/ localStorage st'
         = writeHistory (backend_of op) (localStorage st) (storageKey P)
             (entries st') (maxHistory P)).
Proof.
  destruct op as [pathname query heading now io | pathname query heading io | k io | io];
    cbn [perform backend_of].
  - unfold capture. destruct (isIgnored P pathname).
    + intros [= <-]. repeat split. now left.
    + destruct (filterM _ _); [| discriminate]. intros [= <-].
      repeat split. now right.
  - intros H. destruct (refine_cases P _ _ _ _ _ _ H) as [-> | (n & fields & _ & ->)].
    + repeat split. now left.
    + repeat split. now right.
  - unfold removeEntry. destruct (filterM _ _); [| discriminate]. intros [= <-].
    repeat split. now right.
  - intros [= <-]. repeat split. now right.
Qed.

End Frames.

(** X6. An operation of the component changes the backend under its own
    storage key only (so two banners with different keys do not disturb
    each other), and sets or clears no timer. *)
Theorem operations_frame (P : Props) (op : Operation) (st st' : State) :
  perform P op st = Ok st' ->
  (forall k, k <> storageKey P -> localStorage st' !! k = localStorage st !! k)
  /\ timers st' = timers st /\ cleanup st' = cleanup st.
Proof.
  intros H. destruct (perform_writes P op st st' H) as (Ht & _ & Hc & Hw).
  repeat split; try assumption.
  intros k Hk. destruct Hw as [-> | ->]; [reflexivity |].
  now apply writeHistory_other_key.
Qed.

Lemma operations_frame_witness :
  localStorage (clearHistory dashboard_props reliable jane_state) !! "other-banner"
  = localStorage jane_state !! "other-banner".
Proof.
  apply (proj1 (operations_frame dashboard_props (Clear reliable) jane_state
                  (clearHistory dashboard_props reliable jane_state) eq_refl)).
  discriminate.
Defined.

(** X7. A failing write is swallowed: the operation whose write fails
    returns as the one whose write succeeds does, with the same in-memory
    list, and leaves the backend as it was. *)
Theorem write_failure_swallowed (P : Props) (op : Operation) (st st1 : State) :
  perform P op st = Ok st1 ->
  exists st2,
    perform P (with_backend (failing_writes (backend_of op)) op) st = Ok st2
    /\ entries st2 = entries st1
    /\ localStorage st2 = localStorage st.
Proof.
  destruct op as [pathname query heading now io | pathname query heading io | k io | io];
    cbn [perform backend_of with_backend].
  - unfold capture. destruct (isIgnored P pathname).
    + intros [= <-]. now exists st.
    + change (readHistory (failing_writes io)) with (readHistory io).
      destruct (filterM _ _); [| discriminate]. intros [= <-].
      eexists. split; [reflexivity |]. split; reflexivity.
  - intros H.
    assert (Hread : readHistory (failing_writes io) (localStorage st) (storageKey P)
                      (maxHistory P)
                    = readHistory io (localStorage st) (storageKey P) (maxHistory P))
      by reflexivity.
    unfold refine in *. rewrite Hread.
    destruct (negb (Js.truthy_opt heading)); [injection H as <-; now exists st |].
    destruct (findIndex _ _) as [index|]; [| discriminate]. cbn [bind] in *.
    destruct (index <? 0); [injection H as <-; now exists st |].
    destruct (Js.index _ index) as [currentEntry|]; [| injection H as <-; now exists st].
    destruct (negb (json_truthy currentEntry)); [injection H as <-; now exists st |].
    destruct (get_prop currentEntry "label") as [stored_label|]; [| discriminate].
    cbn [bind] in *.
    destruct (strict_eq_str _ _); [injection H as <-; now exists st |].
    injection H as <-. eexists. split; [reflexivity |]. split; reflexivity.
  - unfold removeEntry. destruct (filterM _ _); [| discriminate]. intros [= <-].
    eexists. split; [reflexivity |]. split; reflexivity.
  - intros [= <-]. eexists. split; [reflexivity |]. split; reflexivity.
Qed.

Lemma write_failure_swallowed_witness :
  exists st2,
    perform dashboard_props
      (Capture "/dashboard/a" EmptyString None 1 (failing_writes reliable)) jane_state
    = Ok st2
    /\ entries st2
       = entries (with_history jane_state
                    (writeHistory reliable (localStorage jane_state) DEFAULT_STORAGE_KEY
                       [entry_json (make_entry dashboard_props "/dashboard/a"
                                      EmptyString None 1);
                        entry_json jane_entry] 50)
                    [entry_json (make_entry dashboard_props "/dashboard/a"
                                   EmptyString None 1);
                     entry_json jane_entry])
    /\ localStorage st2 = localStorage jane_state.
Proof.
  apply (write_failure_swallowed dashboard_props
           (Capture "/dashboard/a" EmptyString None 1 reliable) jane_state).
  reflexivity.
Defined.

(** ** Memory and backend in step *)

Section InSync.

Variable P : Props.
Hypothesis cap_nonneg : 0 <= maxHistory P.

Lemma in_sync_same (st1 st2 : State) :
  entries st2 = entries st1 -> localStorage st2 = localStorage st1 ->
  in_sync P st1 -> in_sync P st2.
Proof. intros He Hl H io Hio. rewrite He, Hl. now apply H. Qed.

Lemma in_sync_length (st : State) :
  in_sync P st -> Z.of_nat (List.length (entries st)) <= maxHistory P.
Proof.
  intros H. rewrite <- (H reliable eq_refl). now apply readHistory_length.
Qed.

Lemma in_sync_written (io : Backend) (st : State) (l : list json) :
  setItem_throws io = false -> Z.of_nat (List.length l) <= maxHistory P ->
  in_sync P (with_history st
               (writeHistory io (localStorage st) (storageKey P) l (maxHistory P)) l).
Proof.
  intros Hw Hl io' Hr. cbn [entries localStorage with_history].
  now apply read_after_write.
Qed.

Lemma perform_sync (op : Operation) (st st' : State) :
  in_sync P st -> setItem_throws (backend_of op) = false ->
  perform P op st = Ok st' -> in_sync P st'.
Proof.
  intros Hsync Hw.
  destruct op as [pathname query heading now io | pathname query heading io | k io | io];
    cbn [perform backend_of] in *.
  - unfold capture. destruct (isIgnored P pathname); [now intros [= <-] |].
    destruct (filterM _ _); [| discriminate]. cbn [bind]. intros [= <-].
    apply in_sync_written; [exact Hw | now apply slice_length].
  - intros H. destruct (refine_cases P _ _ _ _ _ _ H) as [-> | (n & fields & _ & ->)];
      [exact Hsync |].
    apply in_sync_written; [exact Hw |].
    rewrite length_insert. now apply readHistory_length.
  - unfold removeEntry. destruct (filterM _ _) as [next|] eqn:F; [| discriminate].
    cbn [bind]. intros [= <-]. apply in_sync_written; [exact Hw |].
    apply filterM_length in F. pose proof (in_sync_length st Hsync). lia.
  - intros [= <-]. apply in_sync_written; [exact Hw | simpl; lia].
Qed.

Lemma step_sync (ev : Event) (st st' : State) :
  in_sync P st -> writes_succeed [ev] -> step P ev st = Ok st' -> in_sync P st'.
Proof.
  intros Hsync Hw Hstep.
  destruct ev as [pathname query heading now io | id heading io | k io | io];
    simpl in Hw; destruct Hw as [Hw _]; cbn [step] in Hstep.
  - destruct (capture P io pathname query heading now (run_cleanup st))
      as [st1|] eqn:Hc; [| discriminate].
    injection Hstep as <-.
    assert (in_sync P st1) as H1.
    { apply (perform_sync (Capture pathname query heading now io) (run_cleanup st));
        [| exact Hw | exact Hc].
      apply (in_sync_same st); [| | exact Hsync];
        unfold run_cleanup; now destruct (cleanup st). }
    apply (in_sync_same st1); [| | exact H1];
      unfold schedule; now destruct (isIgnored P pathname).
  - destruct (timers st !! id) as [t|]; [| now injection Hstep as <-].
    apply (perform_sync (Refine (timer_pathname t) (timer_query t) heading io)
             (with_timers st (delete id (timers st)) (next_timer st) (cleanup st)));
      [| exact Hw | exact Hstep].
    now apply (in_sync_same st).
  - now apply (perform_sync (Remove k io) st).
  - now apply (perform_sync (Clear io) st).
Qed.

Lemma run_sync (evs : list Event) (st st' : State) :
  in_sync P st -> writes_succeed evs -> run P evs st = Ok st' -> in_sync P st'.
Proof.
  revert st. induction evs as [|ev evs IH]; intros st Hsync Hw Hrun.
  - now injection Hrun as <-.
  - cbn [run] in Hrun. destruct (step P ev st) as [st1|] eqn:Hstep; [| discriminate].
    assert (writes_succeed [ev] /\ writes_succeed evs) as [Hev Hrest]
      by (destruct ev; simpl in *; tauto).
    apply (IH st1); [| exact Hrest | exact Hrun].
    now apply (step_sync ev st).
Qed.

Lemma mount_sync (ls : gmap string stored) :
  ls !! storageKey P = None -> in_sync P (mount ls).
Proof.
  intros Hls io Hio. cbn [mount localStorage entries].
  apply readHistory_not_text. now left.
Qed.

End InSync.

(** X8. While every write succeeds, memory and backend stay in step: from
    a mount on an empty store, and from any state in which a load returns
    the in-memory list, every run of events whose writes succeed ends in a
    state in which a successful load returns the in-memory list.  The cap
    is not negative. *)
Theorem memory_in_sync (P : Props) (evs : list Event) (st st' : State) :
  0 <= maxHistory P ->
  (forall ls, ls !! storageKey P = None -> in_sync P (mount ls))
  /\ (in_sync P st -> writes_succeed evs -> run P evs st = Ok st' ->
      forall io, getItem_throws io = false ->
        readHistory io (localStorage st') (storageKey P) (maxHistory P) = entries st').
Proof.
  intros Hcap. split.
  - apply mount_sync.
  - intros Hsync Hw Hrun. now apply (run_sync P Hcap evs st st').
Qed.

Lemma memory_in_sync_witness :
  exists st', run dashboard_props three_visits (mount ∅) = Ok st'
              /\ readHistory reliable (localStorage st') (storageKey dashboard_props)
                   (maxHistory dashboard_props) = entries st'.
Proof.
  destruct (run dashboard_props three_visits (mount ∅)) as [st'|] eqn:Hrun.
  - exists st'. split; [reflexivity |].
    refine (proj2 (memory_in_sync dashboard_props three_visits (mount ∅) st' _)
              _ _ Hrun reliable eq_refl).
    + unfold dashboard_props, DEFAULT_MAX_HISTORY. simpl. lia.
    + apply (mount_sync dashboard_props). reflexivity.
    + simpl. tauto.
  - vm_compute in Hrun. discriminate.
Defined.

(** ** Ignored paths *)

(** X9. Along every run from the mount, a navigation to an ignored path
    never raises (whatever the backend holds), leaves the in-memory list
    and the backend as they are, and leaves no timer pending: the
    refinement of the navigation before is cancelled and none is set. *)
Theorem ignored_navigation (P : Props) (ls : gmap string stored) (evs : list Event)
    (st : State) (pathname query : string) (heading : option string) (now : Z)
    (io : Backend) :
  run P evs (mount ls) = Ok st -> isIgnored P pathname = true ->
  exists st',
    step P (Navigate pathname query heading now io) st = Ok st'
    /\ entries st' = entries st /\ localStorage st' = localStorage st
    /\ timers st' = ∅ /\ cleanup st' = None.
Proof.
  intros Hrun Hi.
  pose proof (run_timers_ok P None evs _ st (mount_timers_ok ls) Hrun) as Hok.
  exists (run_cleanup st).
  assert (Hstep : step P (Navigate pathname query heading now io) st
                  = Ok (run_cleanup st)).
  { cbn [step]. unfold capture, schedule. rewrite Hi. reflexivity. }
  assert (Hc : cleanup (run_cleanup st) = None).
  { unfold run_cleanup. destruct (cleanup st) eqn:E; [reflexivity | exact E]. }
  split; [exact Hstep |]. repeat split.
  - unfold run_cleanup. now destruct (cleanup st).
  - unfold run_cleanup. now destruct (cleanup st).
  - apply map_eq. intros id. rewrite lookup_empty.
    destruct (timers (run_cleanup st) !! id) as [t|] eqn:Hid; [| reflexivity].
    destruct (step_timers_ok P _ _ st _ Hok Hstep id t Hid) as (Hcid & _).
    congruence.
  - exact Hc.
Qed.

Lemma ignored_navigation_witness :
  exists st',
    step dashboard_props (Navigate "/dashboard/login/reset" EmptyString None 9 reliable)
      (mount ∅) = Ok st'
    /\ entries st' = entries (mount ∅) /\ localStorage st' = localStorage (mount ∅)
    /\ timers st' = ∅ /\ cleanup st' = None.
Proof.
  apply (ignored_navigation dashboard_props ∅ [] (mount ∅)); reflexivity.
Defined.

(** ** Captures on any stored array *)

Section CaptureAny.

Lemma key_differs_key_is (k : string) (y : json) :
  y <> JNull ->
  exists b, key_is k y = Ok b /\ key_differs k y = Ok (negb b).
Proof.
  intros Hy. unfold key_is, key_differs.
  destruct y; try congruence; simpl; eauto.
Qed.

Lemma filterM_null (k : string) (l : list json) :
  JNull ∈ l -> filterM (key_differs k) l = Throw.
Proof.
  induction l as [|x l IH]; intros Hin; [now apply elem_of_nil in Hin |].
  cbn [filterM]. destruct x; try reflexivity;
    apply elem_of_cons in Hin as [Hin | Hin]; try discriminate;
    rewrite (IH Hin); unfold key_differs; simpl; reflexivity.
Qed.

Lemma filterM_no_null (k : string) (l : list json) :
  JNull ∉ l ->
  filterM (key_differs k) l = Ok (filter (fun y => ~ has_key k y) l).
Proof.
  induction l as [|x l IH]; intros Hnot; [reflexivity |].
  apply not_elem_of_cons in Hnot as [Hx Hl].
  cbn [filterM]. rewrite (IH Hl).
  destruct (key_differs_key_is k x) as (b & Hb & ->); [congruence |].
  cbn [bind]. rewrite filter_cons.
  destruct (decide (~ has_key k x)) as [H|H]; unfold has_key in H; rewrite Hb in H;
    destruct b; simpl; try reflexivity.
  - now destruct H.
  - destruct H. discriminate.
Qed.

End CaptureAny.

(** X10. What a capture makes of any stored array, when the path is not
    ignored: it raises exactly when one of the loaded elements is null;
    otherwise it never raises, and the new list is the new entry followed
    by every loaded element whose key is not the new key, in the stored
    order, cut to the cap.  Elements that are not entries (numbers,
    strings, objects without a key) are carried along. *)
Theorem capture_any_store (P : Props) (io : Backend) (pathname query : string)
    (heading : option string) (now : Z) (st : State) :
  isIgnored P pathname = false ->
  let loaded := readHistory io (localStorage st) (storageKey P) (maxHistory P) in
  let e := make_entry P pathname query heading now in
  (JNull ∈ loaded -> capture P io pathname query heading now st = Throw)
  /\ (JNull ∉ loaded ->
      let next := Js.slice (entry_json e :: filter (fun y => ~ has_key (key e) y) loaded)
                    0 (Some (maxHistory P)) in
      capture P io pathname query heading now st
      = Ok (with_history st
              (writeHistory io (localStorage st) (storageKey P) next (maxHistory P))
              next)).
Proof.
  intros Hi loaded e. unfold capture. rewrite Hi. fold loaded e. split.
  - intros Hin. now rewrite (filterM_null _ _ Hin).
  - intros Hnot. now rewrite (filterM_no_null _ _ Hnot).
Qed.

Lemma capture_any_store_witness :
  capture plain_props reliable "/docs" EmptyString None 5
    (mount {[ DEFAULT_STORAGE_KEY := Text (JArr [JNum 1; JNull]) ]}) = Throw.
Proof.
  apply (proj1 (capture_any_store plain_props reliable "/docs" EmptyString None 5
                  (mount {[ DEFAULT_STORAGE_KEY := Text (JArr [JNum 1; JNull]) ]})
                  eq_refl)).
  vm_compute. apply list_elem_of_further, list_elem_of_here.
Defined.

(** ** Eviction *)

(** X11. The capture of a key that the store does not hold, the cap being
    at least one and the store holding entries: the new entry comes first
    and the first [cap - 1] stored entries follow in their order, so a
    store that is full loses its last entry and no other. *)
Theorem capture_new_key (P : Props) (io : Backend) (pathname query : string)
    (heading : option string) (now : Z) (st : State) (es : list SidebarHistoryEntry) :
  1 <= maxHistory P -> isIgnored P pathname = false ->
  readHistory io (localStorage st) (storageKey P) (maxHistory P) = entry_json <$> es ->
  currentUrl P pathname query ∉ key <$> es ->
  exists st',
    capture P io pathname query heading now st = Ok st'
    /\ entries st'
       = entry_json <$> make_entry P pathname query heading now
                        :: take (Z.to_nat (maxHistory P) - 1) es.
Proof.
  intros Hcap Hi Hr Hnew. eexists.
  rewrite (capture_typed P io pathname query heading now st es Hi Hr).
  split; [reflexivity |]. cbn [entries with_history].
  rewrite filter_keeps_all.
  - rewrite slice_cons by lia. rewrite slice_prefix by lia.
    do 3 f_equal. lia.
  - apply Forall_forall. intros x Hx Hk. apply Hnew.
    change (key (make_entry P pathname query heading now))
      with (currentUrl P pathname query) in Hk.
    rewrite <- Hk. now apply list_elem_of_fmap_2.
Qed.

Lemma capture_new_key_witness :
  exists st',
    capture plain_props reliable "/c" EmptyString None 9
      (mount {[ DEFAULT_STORAGE_KEY :=
                  Text (JArr (entry_json <$>
                    [make_entry plain_props "/b" EmptyString None 2;
                     make_entry plain_props "/a" EmptyString None 1])) ]}) = Ok st'
    /\ entries st'
       = entry_json <$> make_entry plain_props "/c" EmptyString None 9
                        :: take (Z.to_nat (maxHistory plain_props) - 1)
                             [make_entry plain_props "/b" EmptyString None 2;
                              make_entry plain_props "/a" EmptyString None 1].
Proof.
  apply capture_new_key.
  - unfold plain_props. simpl. lia.
  - reflexivity.
  - reflexivity.
  - vm_compute. intros H.
    repeat (apply elem_of_cons in H as [H | H]; [discriminate |]).
    now apply elem_of_nil in H.
Defined.

(** ** The keys of the store after a sequence of visits *)

Section Recency.

Variable P : Props.
Hypothesis cap_nonneg : 0 <= maxHistory P.

Lemma perform_all_app (ops1 ops2 : list Operation) (st : State) :
  perform_all P (ops1 ++ ops2)%list st
  = let* st' := perform_all P ops1 st in perform_all P ops2 st'.
Proof.
  revert st. induction ops1 as [|op ops1 IH]; intros st; [reflexivity |].
  cbn [app perform_all]. destruct (perform P op st); [apply IH | reflexivity].
Qed.

Lemma remove_dups_snoc (l : list string) (k : string) :
  remove_dups (l ++ [k])%list = (filter (fun x => x <> k) (remove_dups l) ++ [k])%list.
Proof.
  induction l as [|x l IH]; [reflexivity |].
  cbn [app remove_dups]. rewrite IH.
  destruct (decide_rel elem_of x (l ++ [k])%list) as [H1|H1],
           (decide_rel elem_of x l) as [H2|H2].
  - reflexivity.
  - apply elem_of_app in H1 as [H1 | H1]; [contradiction |].
    apply list_elem_of_singleton in H1 as ->.
    now rewrite filter_cons_False by tauto.
  - destruct H1. apply elem_of_app. now left.
  - rewrite filter_cons_True; [reflexivity |].
    intros ->. apply H1, elem_of_app. right. apply list_elem_of_here.
Qed.

Lemma take_filter_take (k : string) (L : list string) (n : nat) :
  NoDup L ->
  take n (filter (fun x => x <> k) (take (S n) L))
  = take n (filter (fun x => x <> k) L).
Proof.
  revert n. induction L as [|x L IH]; intros n Hd; [now destruct n |].
  apply NoDup_cons in Hd as [Hx Hd].
  destruct n as [|n]; [reflexivity |].
  change (take (S (S n)) (x :: L)) with (x :: take (S n) L).
  destruct (decide (x = k)) as [->|Hne].
  - rewrite !filter_cons_False by tauto.
    assert (Forall (fun y => y <> k) L) as Hall.
    { apply Forall_forall. intros y Hy ->. contradiction. }
    rewrite (filter_keeps_all _ L Hall).
    rewrite filter_keeps_all.
    + rewrite take_take. f_equal. lia.
    + apply Forall_forall. intros y Hy. rewrite Forall_forall in Hall. apply Hall.
      eapply elem_of_sublist; [exact Hy | apply sublist_take].
  - rewrite !filter_cons_True by assumption. cbn [take]. f_equal. now apply IH.
Qed.

Lemma fmap_filter_key (k : string) (es : list SidebarHistoryEntry) :
  key <$> filter (fun x => key x <> k) es = filter (fun x => x <> k) (key <$> es).
Proof.
  induction es as [|e es IH]; [reflexivity |].
  rewrite fmap_cons, !filter_cons.
  destruct (decide (key e <> k)); [now rewrite fmap_cons, IH | exact IH].
Qed.

Lemma visits_state (ls : gmap string stored) (vs : list Visit) :
  ls !! storageKey P = None ->
  Forall (fun v => isIgnored P (visit_pathname v) = false) vs ->
  exists st es,
    perform_all P (visit_capture reliable <$> vs) (mount ls) = Ok st
    /\ entries st = entry_json <$> es
    /\ in_sync P st
    /\ key <$> es
       = take (Z.to_nat (maxHistory P)) (reverse (remove_dups (visit_key P <$> vs))).
Proof.
  intros Hls. induction vs as [|v vs IH] using rev_ind; intros Hall.
  - exists (mount ls), []. repeat split; [now apply mount_sync |].
    cbn. now rewrite take_nil.
  - apply Forall_app in Hall as [Hvs Hv]. apply Forall_cons in Hv as [Hv _].
    destruct (IH Hvs) as (st & es & Hrun & Hes & Hsync & Hkeys).
    assert (Hr : readHistory reliable (localStorage st) (storageKey P) (maxHistory P)
                 = entry_json <$> es) by (rewrite <- Hes; now apply Hsync).
    set (e := visit_entry P v).
    set (next := Js.slice (e :: filter (fun x => key x <> key e) es)
                   0 (Some (maxHistory P))).
    exists (with_history st
              (writeHistory reliable (localStorage st) (storageKey P)
                 (entry_json <$> next) (maxHistory P))
              (entry_json <$> next)), next.
    repeat split.
    + rewrite fmap_app, perform_all_app, Hrun. cbn [bind fmap list_fmap perform_all].
      unfold visit_capture at 1. cbn [perform].
      rewrite (capture_typed P reliable _ _ _ _ st es Hv Hr). reflexivity.
    + apply in_sync_written; [reflexivity |].
      rewrite length_fmap. unfold next. now apply slice_length.
    + unfold next. rewrite slice_prefix by assumption.
      rewrite fmap_app.
      change (visit_key P <$> [v]) with [visit_key P v].
      rewrite remove_dups_snoc, reverse_app, <- filter_reverse.
      change (reverse [visit_key P v]) with [visit_key P v].
      cbn [app].
      change (key e) with (visit_key P v).
      destruct (Z.to_nat (maxHistory P)) as [|n] eqn:En; [reflexivity |].
      rewrite fmap_take, fmap_cons in *. cbn [take]. f_equal.
      rewrite fmap_filter_key, Hkeys.
      apply take_filter_take. rewrite reverse_Permutation. apply NoDup_remove_dups.
Qed.

End Recency.

(** X12. After a sequence of visits of paths that are not ignored, on a
    reliable backend and from an empty store, the keys of the history are
    the distinct keys visited, most recent first, cut to the cap; so the
    history holds as many entries as distinct keys were visited, up to the
    cap.  Cutting to the cap at every visit loses nothing that cutting once
    at the end would keep.  The cap is not negative. *)
Theorem keys_after_visits (P : Props) (ls : gmap string stored) (vs : list Visit) :
  0 <= maxHistory P -> ls !! storageKey P = None ->
  Forall (fun v => isIgnored P (visit_pathname v) = false) vs ->
  exists st es,
    perform_all P (visit_capture reliable <$> vs) (mount ls) = Ok st
    /\ entries st = entry_json <$> es
    /\ key <$> es
       = take (Z.to_nat (maxHistory P)) (reverse (remove_dups (visit_key P <$> vs)))
    /\ Z.of_nat (List.length (entries st))
       = Z.min (maxHistory P)
           (Z.of_nat (List.length (remove_dups (visit_key P <$> vs)))).
Proof.
  intros Hcap Hls Hall.
  destruct (visits_state P Hcap ls vs Hls Hall) as (st & es & Hrun & Hes & _ & Hkeys).
  exists st, es. repeat split; try assumption.
  rewrite Hes, length_fmap, <- (length_fmap key), Hkeys, length_take, length_reverse.
  lia.
Qed.

Lemma keys_after_visits_witness :
  exists st es,
    perform_all plain_props (visit_capture reliable <$> four_visits) (mount ∅) = Ok st
    /\ entries st = entry_json <$> es
    /\ key <$> es = ["/c"; "/a"].
Proof.
  destruct (keys_after_visits plain_props ∅ four_visits)
    as (st & es & Hrun & Hes & Hkeys & _).
  - unfold plain_props. simpl. lia.
  - reflexivity.
  - repeat constructor.
  - exists st, es. repeat split; assumption.
Defined.

(** ** Removing and clearing *)

Section Removal.

Lemma slice_nil {A} (start : Z) (end_ : option Z) : Js.slice (@nil A) start end_ = [].
Proof. unfold Js.slice. now rewrite drop_nil, take_nil. Qed.

Lemma filter_deletes (k : string) (es : list SidebarHistoryEntry) (i : nat)
    (e : SidebarHistoryEntry) :
  NoDup (key <$> es) -> es !! i = Some e -> key e = k ->
  filter (fun x => key x <> k) es = delete i es.
Proof.
  revert i. induction es as [|x es IH]; intros i Hd Hi Hk; [discriminate |].
  rewrite fmap_cons in Hd. apply NoDup_cons in Hd as [Hx Hd].
  destruct i as [|i]; simpl in Hi.
  - injection Hi as ->. rewrite filter_cons_False by tauto.
    cbn [delete list_delete]. apply filter_keeps_all.
    apply Forall_forall. intros y Hy Hyk. apply Hx. rewrite Hk, <- Hyk.
    now apply list_elem_of_fmap_2.
  - rewrite filter_cons_True.
    + cbn [delete list_delete]. f_equal. now apply IH.
    + intros Hxk. apply Hx. rewrite Hxk, <- Hk.
      apply list_elem_of_fmap_2. eapply list_elem_of_lookup_2. exact Hi.
Qed.

End Removal.

(** X13. Removing a key from a history of entries never raises and keeps
    every entry of another key, in order; when no two entries share a key
    it deletes the very entry at the position of that key and no other;
    removing a key that is absent leaves the list as it is; the list
    written is the in-memory one, so a successful write makes later loads
    return it, within a cap that is not negative. *)
Theorem remove_exactly (P : Props) (io : Backend) (k : string) (st : State)
    (es : list SidebarHistoryEntry) :
  entries st = entry_json <$> es ->
  exists st',
    removeEntry P io k st = Ok st'
    /\ entries st' = entry_json <$> filter (fun x => key x <> k) es
    /\ (forall i e, NoDup (key <$> es) -> es !! i = Some e -> key e = k ->
        entries st' = entry_json <$> delete i es)
    /\ (k ∉ key <$> es -> entries st' = entries st)
    /\ (setItem_throws io = false -> 0 <= maxHistory P ->
        Z.of_nat (List.length es) <= maxHistory P ->
        forall io', getItem_throws io' = false ->
          readHistory io' (localStorage st') (storageKey P) (maxHistory P)
          = entries st').
Proof.
  intros Hes. unfold removeEntry. rewrite Hes, filterM_entries. cbn [bind].
  eexists. split; [reflexivity |]. cbn [entries localStorage with_history].
  repeat split.
  - intros i e Hd Hi Hk. now rewrite (filter_deletes k es i e).
  - intros Hk. f_equal. apply filter_keeps_all. apply Forall_forall.
    intros x Hx Hxk. apply Hk. rewrite <- Hxk. now apply list_elem_of_fmap_2.
  - intros Hw Hcap Hlen io' Hr. apply read_after_write; try assumption.
    rewrite length_fmap. pose proof (length_filter (fun x => key x <> k) es). lia.
Qed.

Lemma remove_exactly_witness :
  exists st',
    removeEntry dashboard_props reliable (key jane_entry)
      (with_history jane_state (localStorage jane_state) (entry_json <$> [jane_entry]))
    = Ok st'
    /\ entries st' = entry_json <$> delete 0%nat [jane_entry].
Proof.
  destruct (remove_exactly dashboard_props reliable (key jane_entry)
              (with_history jane_state (localStorage jane_state)
                 (entry_json <$> [jane_entry])) [jane_entry] eq_refl)
    as (st' & Hrun & _ & Hdel & _).
  exists st'. split; [exact Hrun |].
  apply (Hdel 0%nat jane_entry); [| reflexivity | reflexivity].
  apply NoDup_singleton.
Defined.

(** X14. A clear empties the in-memory list and never raises.  When its
    write succeeds every later load is empty, whatever the cap; when its
    write fails the backend is as before, and the capture that follows
    has the outcome it would have had without the clear: a capture reads
    the backend and not the in-memory list, so the entries come back. *)
Theorem clear_durability (P : Props) (io : Backend) (st : State) :
  entries (clearHistory P io st) = []
  /\ (setItem_throws io = false ->
      forall io' cap, readHistory io' (localStorage (clearHistory P io st))
                        (storageKey P) cap = [])
  /\ (setItem_throws io = true ->
      localStorage (clearHistory P io st) = localStorage st
      /\ forall io' pathname query heading now,
           isIgnored P pathname = false ->
           (capture P io' pathname query heading now (clearHistory P io st) = Throw
            <-> capture P io' pathname query heading now st = Throw)
           /\ forall s1 s2,
                capture P io' pathname query heading now (clearHistory P io st) = Ok s1 ->
                capture P io' pathname query heading now st = Ok s2 ->
                entries s1 = entries s2 /\ localStorage s1 = localStorage s2).
Proof.
  split; [reflexivity |]. split.
  - intros Hw io' cap. unfold clearHistory, writeHistory. rewrite Hw.
    cbn [localStorage with_history].
    destruct (readHistory_cases io' (<[storageKey P := Text (JArr (Js.slice [] 0
                (Some (maxHistory P))))]> (localStorage st)) (storageKey P) cap)
      as [-> | (items & Hitems & ->)]; [reflexivity |].
    rewrite lookup_insert_eq in Hitems. injection Hitems as <-.
    now rewrite !slice_nil.
  - intros Hw.
    assert (Hls : localStorage (clearHistory P io st) = localStorage st).
    { unfold clearHistory. cbn [localStorage with_history].
      now apply writeHistory_failed. }
    split; [exact Hls |].
    intros io' pathname query heading now Hi. unfold capture. rewrite Hls, Hi.
    destruct (filterM _ _); cbn [bind].
    + split; [split; discriminate |].
      intros s1 s2 [= <-] [= <-]. split; reflexivity.
    + split; [tauto | discriminate].
Qed.

Lemma clear_durability_witness :
  readHistory reliable (localStorage (clearHistory dashboard_props reliable jane_state))
    (storageKey dashboard_props) 50 = []
  /\ localStorage (clearHistory dashboard_props (failing_writes reliable) jane_state)
     = localStorage jane_state.
Proof.
  split.
  - apply (proj1 (proj2 (clear_durability dashboard_props reliable jane_state))).
    reflexivity.
  - apply (proj2 (proj2 (clear_durability dashboard_props (failing_writes reliable)
                           jane_state))).
    reflexivity.
Defined.

(** ** Refining twice *)

Section RefineTwice.

Variable P : Props.

Lemma first_with_key_updated (k updated : string) (l : list json) (n : nat)
    (fields : list (string * json)) :
  first_with_key k l n fields ->
  first_with_key k (<[n := JObj (set_field "label" (JStr updated) fields)]> l) n
    (set_field "label" (JStr updated) fields).
Proof.
  intros (Hn & Hk & Hbefore). repeat split.
  - apply list_lookup_insert_eq. eapply lookup_lt_Some. exact Hn.
  - rewrite lookup_set_field_other; [exact Hk | discriminate].
  - intros m y Hm Hy. rewrite list_lookup_insert_ne in Hy by lia.
    now apply (Hbefore m).
Qed.

End RefineTwice.

(** X15. The refinement is idempotent: after a refinement for a
    navigation has run, running it again for the same navigation, with the
    same heading and the same backend behaviour, changes nothing.  The cap
    is not negative. *)
Theorem refine_idempotent (P : Props) (io : Backend) (pathname query : string)
    (heading : option string) (st st1 : State) :
  0 <= maxHistory P ->
  refine P io pathname query heading st = Ok st1 ->
  refine P io pathname query heading st1 = Ok st1.
Proof.
  intros Hcap H.
  destruct (Js.truthy_opt heading) eqn:Hh; [| now apply refine_no_heading].
  destruct (refine_cases P _ _ _ _ _ _ H) as [-> | (n & fields & Hf & Hst1)];
    [exact H |].
  cbn zeta in Hst1.
  set (loaded := readHistory io (localStorage st) (storageKey P) (maxHistory P)) in *.
  set (updated := resolve_label P (make_context P pathname query heading)) in *.
  set (next := <[n := JObj (set_field "label" (JStr updated) fields)]> loaded) in *.
  assert (Hlen : Z.of_nat (List.length next) <= maxHistory P).
  { unfold next. rewrite length_insert. now apply readHistory_length. }
  destruct (setItem_throws io) eqn:Hw.
  - assert (Hls : localStorage st1 = localStorage st).
    { rewrite Hst1. cbn [localStorage with_history]. now apply writeHistory_failed. }
    assert (Hf1 : first_with_key (currentUrl P pathname query)
                    (readHistory io (localStorage st1) (storageKey P) (maxHistory P))
                    n fields) by (rewrite Hls; exact Hf).
    rewrite (refine_at P io pathname query heading st1 n fields Hh Hf1).
    destruct (strict_eq_str _ _); [reflexivity |].
    cbn zeta. rewrite Hls. fold loaded updated next.
    rewrite Hst1. cbn [with_history localStorage entries timers next_timer cleanup].
    rewrite (writeHistory_failed io _ _ _ _ Hw). reflexivity.
  - assert (Hr : getItem_throws io = false).
    { destruct (getItem_throws io) eqn:E; [| reflexivity].
      destruct Hf as (Hn & _). unfold loaded in Hn.
      rewrite readHistory_read_failure in Hn by assumption. discriminate. }
    assert (Hloaded : readHistory io (localStorage st1) (storageKey P) (maxHistory P)
                      = next).
    { rewrite Hst1. cbn [localStorage with_history]. now apply read_after_write. }
    assert (Hf1 : first_with_key (currentUrl P pathname query)
                    (readHistory io (localStorage st1) (storageKey P) (maxHistory P))
                    n (set_field "label" (JStr updated) fields)).
    { rewrite Hloaded. now apply first_with_key_updated. }
    rewrite (refine_at P io pathname query heading st1 n _ Hh Hf1).
    fold updated. rewrite lookup_set_field. simpl. now rewrite String.eqb_refl.
Qed.

Lemma refine_idempotent_witness :
  exists st1,
    refine dashboard_props reliable ("/dashboard/users/" +:+ uuid_example) EmptyString
      (Some "Jane Doe") jane_state = Ok st1
    /\ refine dashboard_props reliable ("/dashboard/users/" +:+ uuid_example) EmptyString
         (Some "Jane Doe") st1 = Ok st1.
Proof.
  destruct (refine dashboard_props reliable ("/dashboard/users/" +:+ uuid_example)
              EmptyString (Some "Jane Doe") jane_state) as [st1|] eqn:E.
  - exists st1. split; [reflexivity |].
    apply (refine_idempotent dashboard_props reliable _ _ _ jane_state st1);
      [unfold dashboard_props, DEFAULT_MAX_HISTORY; simpl; lia | exact E].
  - vm_compute in E. discriminate.
Defined.

(** ** The heading provider *)

Section Trimming.

Variable ws : ascii -> bool.

Lemma trim_start_spec (s : string) :
  exists a, s = a +:+ trim_start ws s /\ Js.str_all ws a = true
            /\ (forall c r, trim_start ws s = String c r -> ws c = false).
Proof.
  induction s as [|c s (a & Ha & Hall & Hhead)]; simpl.
  - exists EmptyString. repeat split. discriminate.
  - destruct (ws c) eqn:E.
    + exists (String c a). rewrite append_cons, <- Ha. simpl. rewrite E, Hall.
      repeat split. exact Hhead.
    + exists EmptyString. repeat split. intros d r [= <- _]. exact E.
Qed.

Lemma trim_end_spec (s : string) :
  exists b, s = trim_end ws s +:+ b /\ Js.str_all ws b = true
            /\ (forall d, last_unit (trim_end ws s) = Some d -> ws d = false)
            /\ (forall c r, s = String c r -> ws c = false ->
                exists r', trim_end ws s = String c r').
Proof.
  induction s as [|c s (b & Hb & Hall & Hlast & Hhead)]; simpl.
  - exists EmptyString. repeat split; discriminate.
  - destruct (trim_end ws s) as [|d t] eqn:T.
    + destruct (ws c) eqn:E.
      * exists (String c b). rewrite append_nil_l in *. subst s. simpl.
        rewrite E, Hall. repeat split; try discriminate.
        intros c' r [= <- _] Hc. congruence.
      * exists b. rewrite append_cons, <- Hb. repeat split; try assumption.
        -- intros d [= <-]. exact E.
        -- intros c' r [= <- _] _. eauto.
    + exists b. rewrite !append_cons, <- append_cons, <- Hb. repeat split; try assumption.
      intros c' r [= <- _] _. eauto.
Qed.

Lemma trim_spec (s : string) :
  exists a b,
    s = a +:+ trim ws s +:+ b /\ Js.str_all ws a = true /\ Js.str_all ws b = true
    /\ (forall c r, trim ws s = String c r -> ws c = false)
    /\ (forall d, last_unit (trim ws s) = Some d -> ws d = false).
Proof.
  destruct (trim_start_spec s) as (a & Ha & Hall & Hhead).
  destruct (trim_end_spec (trim_start ws s)) as (b & Hb & Hbll & Hlast & Hkeep).
  exists a, b. unfold trim. repeat split; try assumption.
  - now rewrite <- Hb.
  - intros c r Hc. destruct (trim_start ws s) as [|c0 r0] eqn:T; [discriminate |].
    pose proof (Hhead c0 r0 eq_refl) as Hc0.
    destruct (Hkeep c0 r0 eq_refl Hc0) as (r' & Hr'). rewrite Hr' in Hc.
    now injection Hc as <- _.
Qed.

Lemma trim_empty (s : string) :
  trim ws s = EmptyString <-> Js.str_all ws s = true.
Proof.
  destruct (trim_spec s) as (a & b & Hs & Ha & Hb & _). split.
  - intros H. rewrite H in Hs. rewrite Hs, append_nil_l, str_all_app, Ha, Hb. reflexivity.
  - intros H. destruct (trim_start_spec s) as (a' & Ha' & _ & Hhead).
    unfold trim. destruct (trim_start ws s) as [|c r] eqn:T; [reflexivity |].
    rewrite Ha', str_all_app in H. apply andb_true_iff in H as [_ H].
    simpl in H. rewrite (Hhead c r eq_refl) in H. discriminate.
Qed.

End Trimming.

(** X16. The heading provider returns either null or a non-empty string:
    a returned heading is the text of the h1 element without the
    white space before and after it, it starts and ends with a unit that
    is not white space, and null is returned exactly when there is no h1
    element, or it has no text, or its text is white space only.  This
    holds whatever the set of white-space units is. *)
Theorem heading_provider (ws : ascii -> bool) (h1 : option (option string)) :
  (forall t, getCurrentPageHeading ws h1 = Some t ->
     t <> EmptyString
     /\ exists text a b,
          h1 = Some (Some text) /\ text = a +:+ t +:+ b
          /\ Js.str_all ws a = true /\ Js.str_all ws b = true
          /\ (exists c r, t = String c r /\ ws c = false)
          /\ (exists d, last_unit t = Some d /\ ws d = false))
  /\ (getCurrentPageHeading ws h1 = None <->
      h1 = None \/ h1 = Some None
      \/ exists text, h1 = Some (Some text) /\ Js.str_all ws text = true).
Proof.
  split.
  - intros t H. destruct h1 as [[text|]|]; try discriminate. simpl in H.
    destruct (trim ws text) as [|c r] eqn:T; [discriminate |].
    simpl in H. injection H as <-.
    destruct (trim_spec ws text) as (a & b & Hs & Ha & Hb & Hhead & Hlast).
    rewrite T in *. split; [discriminate |].
    exists text, a, b. repeat split; try assumption.
    + exists c, r. split; [reflexivity | now apply (Hhead c r)].
    + assert (exists d, last_unit (String c r) = Some d) as (d & Hd).
      { clear. revert c. induction r as [|x r IH]; intros c; simpl; eauto. }
      exists d. split; [exact Hd | now apply Hlast].
  - destruct h1 as [[text|]|]; simpl.
    + destruct (trim ws text) as [|c r] eqn:T; simpl.
      * apply trim_empty in T. split; [| reflexivity]. intros _. right. right. eauto.
      * split; [discriminate |].
        intros [H | [H | (text' & [= <-] & H)]]; try discriminate.
        apply trim_empty in H. congruence.
    + split; [tauto | reflexivity].
    + split; [tauto | reflexivity].
Qed.

Lemma heading_provider_witness :
  "Jane Doe" <> EmptyString
  /\ exists text a b,
       Some (Some "  Jane Doe ") = Some (Some text) /\ text = a +:+ "Jane Doe" +:+ b
       /\ Js.str_all ascii_space a = true /\ Js.str_all ascii_space b = true
       /\ (exists c r, "Jane Doe" = String c r /\ ascii_space c = false)
       /\ (exists d, last_unit "Jane Doe" = Some d /\ ascii_space d = false).
Proof.
  apply (proj1 (heading_provider ascii_space (Some (Some "  Jane Doe ")))).
  reflexivity.
Defined.

(** ** Contexts built by the component *)

Section ComponentContexts.

Variable P : Props.

Lemma segment_truthy (p seg : string) (pre post : list string) :
  segments_of p = (pre ++ seg :: post)%list -> Js.truthy seg = true.
Proof.
  intros H. assert (In seg (segments_of p)) as Hin.
  { rewrite H. apply in_or_app. right. now left. }
  now apply List.filter_In in Hin as [_ Hin].
Qed.

Lemma last_two_cases {A} (l : list A) :
  l <> [] ->
  (exists a, l = [a]) \/ exists pre a b, l = (pre ++ [a; b])%list.
Proof.
  intros Hne. destruct l as [|x l] using rev_ind; [congruence |]. clear IHl.
  destruct l as [|y l] using rev_ind.
  - left. now exists x.
  - right. exists l, y, x. now rewrite <- app_assoc.
Qed.

Lemma length_toTitleCase (s : string) :
  String.length (toTitleCase s) = String.length s.
Proof.
  unfold toTitleCase, replace_dash_underscore.
  now rewrite length_upper_word_starts, length_str_map.
Qed.

Lemma nonempty_length_pos (s : string) : s <> EmptyString <-> (0 < String.length s)%nat.
Proof. destruct s; simpl; split; try congruence; lia. Qed.

End ComponentContexts.

(** X17. For the contexts that the component builds, with the heading that
    the provider returns, the heading rules need no side condition: when
    the heading is not null and some segment has the dynamic-identifier
    shape, the default label is the title-cased second-to-last segment,
    " / " and the heading, or the heading alone when the path has one
    segment; when no segment has the shape and the query contains "_id=",
    it is the title-cased last segment, " / " and the heading. *)
Theorem component_heading_rules (P : Props) (ws : ascii -> bool)
    (h1 : option (option string)) (pathname query h : string) :
  getCurrentPageHeading ws h1 = Some h ->
  let ctx := make_context P pathname query (getCurrentPageHeading ws h1) in
  ((exists seg, In seg (segments ctx) /\ dynamic_identifier_shape seg) ->
     (forall pre parent last, segments ctx = (pre ++ [parent; last])%list ->
        defaultLabelResolver ctx = toTitleCase parent +:+ " / " +:+ h)
     /\ (forall only, segments ctx = [only] -> defaultLabelResolver ctx = h))
  /\ (~ (exists seg, In seg (segments ctx) /\ dynamic_identifier_shape seg) ->
      (exists a b, query = a +:+ "_id=" +:+ b) ->
      forall pre last, segments ctx = (pre ++ [last])%list ->
        defaultLabelResolver ctx = toTitleCase last +:+ " / " +:+ h).
Proof.
  intros Hh ctx.
  assert (Hne : h <> EmptyString) by now apply (heading_nonempty ws h1).
  assert (Hctx : heading ctx = Some h) by (unfold ctx; now rewrite Hh).
  split.
  - intros Hdyn. split.
    + intros pre parent last Hs.
      rewrite (resolver_dynamic ctx h); try assumption.
      2: { rewrite Hs. now destruct pre. }
      rewrite Hs, index_second_to_last.
      now rewrite (segment_truthy (normalizePath pathname (basePath P)) parent pre [last] Hs).
    + intros only Hs. rewrite (resolver_dynamic ctx h); try assumption.
      * now rewrite Hs.
      * now rewrite Hs.
  - intros Hdyn Hq pre last Hs.
    rewrite (resolver_query_id ctx h); try assumption.
    2: { rewrite Hs. now destruct pre. }
    rewrite Hs, index_last.
    now rewrite (segment_truthy (normalizePath pathname (basePath P)) last pre [] Hs).
Qed.

Lemma component_heading_rules_witness :
  defaultLabelResolver
    (make_context dashboard_props ("/dashboard/users/" +:+ uuid_example) EmptyString
       (getCurrentPageHeading ascii_space (Some (Some " Jane Doe"))))
  = toTitleCase "users" +:+ " / " +:+ "Jane Doe".
Proof.
  refine (proj1 (proj1 (component_heading_rules dashboard_props ascii_space
            (Some (Some " Jane Doe")) ("/dashboard/users/" +:+ uuid_example)
            EmptyString "Jane Doe" eq_refl) _) [] "users" uuid_example eq_refl).
  exists uuid_example. split; [right; left; reflexivity |].
  apply uuid_pattern_shape. vm_compute. reflexivity.
Defined.

(** X18. The default label of a context that the component builds, with
    the heading that the provider returns, is never the empty string. *)
Theorem default_label_nonempty (P : Props) (ws : ascii -> bool)
    (h1 : option (option string)) (pathname query : string) :
  defaultLabelResolver
    (make_context P pathname query (getCurrentPageHeading ws h1)) <> EmptyString.
Proof.
  set (provided := getCurrentPageHeading ws h1).
  set (ctx := make_context P pathname query provided).
  assert (Hhead : forall h, provided = Some h -> (0 < String.length h)%nat).
  { intros h Hh. apply nonempty_length_pos. now apply (heading_nonempty ws h1). }
  assert (Hseg : forall seg, In seg (segments ctx) -> (0 < String.length seg)%nat).
  { intros seg Hin. apply nonempty_length_pos. apply truthy_true.
    now apply List.filter_In in Hin as [_ Hin]. }
  apply nonempty_length_pos.
  assert (Hrule : forall parent h, provided = Some h ->
            (0 < String.length
                   (match parent with
                    | Some p => if Js.truthy p then toTitleCase p +:+ " / " +:+ h else h
                    | None => h
                    end))%nat).
  { intros parent h Hh. pose proof (Hhead h Hh).
    destruct parent as [p|]; [| assumption].
    destruct (Js.truthy p); [| assumption]. rewrite !length_append. simpl. lia. }
  unfold defaultLabelResolver.
  destruct (Z.of_nat (List.length (segments ctx)) =? 0) eqn:Hlen; [simpl; lia |].
  assert (Hpath : (0 < String.length
                         (Js.join " / " (map toTitleCase
                                           (Js.slice (segments ctx) (-2) None))))%nat).
  { assert (segments ctx <> []) as Hne
      by (intros E; rewrite E in Hlen; discriminate).
    destruct (last_two_cases _ Hne) as [(a & Ha) | (pre & a & b & Hab)].
    - rewrite Ha. change (Js.slice [a] (-2) None) with [a]. cbn [map Js.join].
      rewrite length_toTitleCase. apply Hseg. rewrite Ha. now left.
    - rewrite Hab, slice_last_two. cbn [map Js.join].
      rewrite !length_append. simpl. lia. }
  assert (Hc : heading ctx = provided) by reflexivity.
  rewrite !Hc. destruct provided as [h|] eqn:Hp; [| exact Hpath].
  destruct (Js.truthy_opt (Some h) && existsb _ _).
  { destruct (Js.index _ _) as [p|]; [apply (Hrule (Some p) h eq_refl)
                                     | apply (Hrule None h eq_refl)]. }
  destruct (Js.truthy_opt (Some h) && Js.includes _ _); [| exact Hpath].
  destruct (Js.index _ _) as [p|]; [apply (Hrule (Some p) h eq_refl)
                                   | apply (Hrule None h eq_refl)].
Qed.

(** ** The display window *)

Section Display.

Lemma render_row_entry (e : SidebarHistoryEntry) :
  render_row (entry_json e) = Ok (entry_row e).
Proof. reflexivity. Qed.

Lemma mapM_entries (es : list SidebarHistoryEntry) :
  mapM render_row (entry_json <$> es) = Ok (entry_row <$> es).
Proof.
  induction es as [|e es IH]; [reflexivity |].
  rewrite !fmap_cons. cbn [mapM]. rewrite render_row_entry, IH. reflexivity.
Qed.

Lemma render_row_throws (y : json) : render_row y = Throw <-> y = JNull.
Proof.
  destruct y; unfold render_row; simpl; split; congruence.
Qed.

Lemma mapM_throws (l : list json) : mapM render_row l = Throw <-> JNull ∈ l.
Proof.
  induction l as [|y l IH]; simpl.
  - split; [discriminate | intros H; now apply elem_of_nil in H].
  - rewrite elem_of_cons, <- IH. destruct (render_row y) as [r|] eqn:R; simpl.
    + assert (y <> JNull) as Hy by (intros ->; discriminate).
      destruct (mapM render_row l); simpl; split; try congruence.
      * intros [H | H]; [congruence | discriminate].
      * intros _. now right.
    + apply render_row_throws in R. split; [intros _; left; congruence | reflexivity].
Qed.

End Display.

(** X19. The display of a history of entries, for a window size that is
    not negative: nothing is rendered without entries; otherwise the rows
    are those of all the entries when expanded and of the first
    [defaultVisible] entries when collapsed, in the order of the history,
    each with the key, url and label of its entry; there is a toggle
    exactly when there are more entries than the window; and the number
    announced by "Show n More" is the number of entries without a row,
    which is at least one. *)
Theorem display_window (defaultVisible : Z) (showAll : bool)
    (es : list SidebarHistoryEntry) :
  0 <= defaultVisible ->
  (es = [] -> render defaultVisible showAll (entry_json <$> es) = Ok None)
  /\ (es <> [] ->
      exists banner,
        render defaultVisible showAll (entry_json <$> es) = Ok (Some banner)
        /\ rows banner
           = entry_row <$> (if showAll then es else take (Z.to_nat defaultVisible) es)
        /\ (toggle banner = None <-> Z.of_nat (List.length es) <= defaultVisible)
        /\ (forall n, toggle banner = Some (ShowMore n) ->
            showAll = false
            /\ n = Z.of_nat (List.length es) - Z.of_nat (List.length (rows banner))
            /\ 1 <= n)
        /\ (toggle banner = Some ShowLess -> showAll = true)).
Proof.
  intros Hdv. split; [now intros -> |].
  intros Hne. unfold render. rewrite length_fmap.
  rewrite (nonempty_length es Hne).
  assert (Hvisible : (if showAll then entry_json <$> es
                      else Js.slice (entry_json <$> es) 0 (Some defaultVisible))
                     = entry_json <$> (if showAll then es
                                       else take (Z.to_nat defaultVisible) es)).
  { destruct showAll; [reflexivity |]. rewrite slice_fmap. f_equal.
    now apply slice_prefix. }
  rewrite Hvisible, mapM_entries. cbn [bind].
  eexists. split; [reflexivity |]. cbn [rows toggle].
  split; [reflexivity |].
  destruct (Z.gtb_spec (Z.of_nat (List.length es)) defaultVisible) as [Hgt|Hle].
  - repeat split.
    + discriminate.
    + intros H. lia.
    + destruct showAll; [discriminate | reflexivity].
    + destruct showAll; [discriminate |]. injection H as <-.
      rewrite length_fmap, length_take. lia.
    + destruct showAll; [discriminate |]. injection H as <-. lia.
    + destruct showAll; [reflexivity | discriminate].
  - repeat split; try discriminate. intros _. exact Hle.
Qed.

Lemma display_window_witness :
  exists banner,
    render DEFAULT_VISIBLE false
      (entry_json <$> (visit_entry plain_props <$> (four_visits ++ four_visits)%list))
    = Ok (Some banner)
    /\ toggle banner = Some (ShowMore 4).
Proof.
  destruct (display_window DEFAULT_VISIBLE false
              (visit_entry plain_props <$> (four_visits ++ four_visits)%list))
    as [_ Hsome].
  - unfold DEFAULT_VISIBLE. lia.
  - destruct Hsome as (banner & Hrender & _).
    + unfold four_visits. simpl. discriminate.
    + exists banner. split; [exact Hrender |].
      vm_compute in Hrender. now injection Hrender as <-.
Defined.

(** X20. The render of a list that is not empty raises exactly when one
    of the visible elements is null: a null beyond the window does no harm
    until the list is expanded. *)
Theorem render_raises (defaultVisible : Z) (showAll : bool) (l : list json) :
  l <> [] ->
  (render defaultVisible showAll l = Throw <->
   JNull ∈ (if showAll then l else Js.slice l 0 (Some defaultVisible))).
Proof.
  intros Hne. unfold render. rewrite (nonempty_length l Hne).
  rewrite <- mapM_throws.
  destruct (mapM render_row _); simpl; split; congruence.
Qed.

Lemma render_raises_witness :
  render 1 false [JNum 1; JNull] <> Throw /\ render 1 true [JNum 1; JNull] = Throw.
Proof.
  split.
  - intros H. apply (proj1 (render_raises 1 false [JNum 1; JNull] ltac:(discriminate))) in H.
    vm_compute in H. apply elem_of_cons in H as [H | H]; [discriminate |].
    now apply elem_of_nil in H.
  - apply (proj2 (render_raises 1 true [JNum 1; JNull] ltac:(discriminate))).
    apply list_elem_of_further, list_elem_of_here.
Defined.

(** ** A cap of zero *)

(** X21. With a cap of zero a capture never raises, whatever the backend
    holds, leaves the in-memory list empty, and, if its write succeeds,
    leaves a stored list that loads as empty under every cap: the first
    navigation erases a history stored before. *)
Theorem zero_cap (P : Props) (io : Backend) (pathname query : string)
    (heading : option string) (now : Z) (st : State) :
  maxHistory P = 0 -> isIgnored P pathname = false ->
  exists st',
    capture P io pathname query heading now st = Ok st'
    /\ entries st' = []
    /\ (setItem_throws io = false ->
        forall io' cap, readHistory io' (localStorage st') (storageKey P) cap = []).
Proof.
  intros Hcap Hi.
  assert (Hr : readHistory io (localStorage st) (storageKey P) (maxHistory P) = []).
  { pose proof (readHistory_length io (localStorage st) (storageKey P) (maxHistory P)) as H.
    rewrite Hcap in *. destruct (readHistory _ _ _ _); [reflexivity |].
    simpl in H. lia. }
  unfold capture. rewrite Hi, Hr. cbn [filterM bind].
  assert (Hnext : forall x : json, Js.slice [x] 0 (Some (maxHistory P)) = []).
  { intros x. rewrite Hcap. reflexivity. }
  rewrite Hnext. eexists. split; [reflexivity |]. split; [reflexivity |].
  intros Hw io' cap. cbn [localStorage with_history]. unfold writeHistory. rewrite Hw.
  destruct (readHistory_cases io' (<[storageKey P := Text (JArr (Js.slice [] 0
              (Some (maxHistory P))))]> (localStorage st)) (storageKey P) cap)
    as [-> | (items & Hitems & ->)]; [reflexivity |].
  rewrite lookup_insert_eq in Hitems. injection Hitems as <-.
  now rewrite !slice_nil.
Qed.

Lemma zero_cap_witness :
  exists st',
    capture no_history_props reliable "/docs" EmptyString None 5 jane_state = Ok st'
    /\ entries st' = []
    /\ (setItem_throws reliable = false ->
        forall io' cap,
          readHistory io' (localStorage st') (storageKey no_history_props) cap = []).
Proof. apply zero_cap; reflexivity. Defined.

(** ** What each operation reads *)

(** X22. A capture reads the backend and not the in-memory list: on two
    states with one backend it raises or not alike and gives the same
    in-memory list and the same backend.  A removal reads the in-memory
    list and not the backend: on two states with one in-memory list it
    raises or not alike, gives the same in-memory list and, its write
    succeeding, the same stored value. *)
Theorem operations_read (P : Props) (io : Backend) (st1 st2 : State) :
  (localStorage st1 = localStorage st2 ->
   forall pathname query heading now,
     isIgnored P pathname = false ->
     (capture P io pathname query heading now st1 = Throw
      <-> capture P io pathname query heading now st2 = Throw)
     /\ forall s1 s2,
          capture P io pathname query heading now st1 = Ok s1 ->
          capture P io pathname query heading now st2 = Ok s2 ->
          entries s1 = entries s2 /\ localStorage s1 = localStorage s2)
  /\ (entries st1 = entries st2 ->
      forall k,
        (removeEntry P io k st1 = Throw <-> removeEntry P io k st2 = Throw)
        /\ forall s1 s2,
             removeEntry P io k st1 = Ok s1 -> removeEntry P io k st2 = Ok s2 ->
             entries s1 = entries s2
             /\ (setItem_throws io = false ->
                 localStorage s1 !! storageKey P = localStorage s2 !! storageKey P)).
Proof.
  split.
  - intros Hls pathname query heading now Hi. unfold capture. rewrite Hls, Hi.
    destruct (filterM _ _); cbn [bind].
    + split; [split; discriminate |]. intros s1 s2 [= <-] [= <-]. split; reflexivity.
    + split; [tauto | discriminate].
  - intros Hes k. unfold removeEntry. rewrite Hes.
    destruct (filterM _ _); cbn [bind].
    + split; [split; discriminate |]. intros s1 s2 [= <-] [= <-].
      split; [reflexivity |]. intros Hw. cbn [localStorage with_history].
      unfold writeHistory. rewrite Hw. now rewrite !lookup_insert_eq.
    + split; [tauto | discriminate].
Qed.

Lemma operations_read_witness :
  exists s1 s2,
    capture dashboard_props reliable "/dashboard/a" EmptyString None 1
      (clearHistory dashboard_props (failing_writes reliable) jane_state) = Ok s1
    /\ capture dashboard_props reliable "/dashboard/a" EmptyString None 1 jane_state = Ok s2
    /\ entries s1 = entries s2 /\ localStorage s1 = localStorage s2.
Proof.
  destruct (capture dashboard_props reliable "/dashboard/a" EmptyString None 1
              (clearHistory dashboard_props (failing_writes reliable) jane_state))
    as [s1|] eqn:E1; [| vm_compute in E1; discriminate].
  destruct (capture dashboard_props reliable "/dashboard/a" EmptyString None 1 jane_state)
    as [s2|] eqn:E2; [| vm_compute in E2; discriminate].
  exists s1, s2. split; [reflexivity |]. split; [reflexivity |].
  exact (proj2 (proj1 (operations_read dashboard_props reliable
                         (clearHistory dashboard_props (failing_writes reliable) jane_state)
                         jane_state) eq_refl "/dashboard/a" EmptyString None 1 eq_refl)
           s1 s2 E1 E2).
Defined.

(** ** Capturing twice, and capturing then refining *)

Section CaptureThen.

Variable P : Props.

Lemma capture_result (io : Backend) (pathname query : string)
    (heading : option string) (now : Z) (st : State) (es : list SidebarHistoryEntry) :
  1 <= maxHistory P -> isIgnored P pathname = false ->
  readHistory io (localStorage st) (storageKey P) (maxHistory P) = entry_json <$> es ->
  let e := make_entry P pathname query heading now in
  let rest := Js.slice (filter (fun x => key x <> currentUrl P pathname query) es) 0
                (Some (maxHistory P - 1)) in
  capture P io pathname query heading now st
  = Ok (with_history st
          (writeHistory io (localStorage st) (storageKey P)
             (entry_json <$> e :: rest) (maxHistory P))
          (entry_json <$> e :: rest))
  /\ Z.of_nat (List.length (entry_json <$> e :: rest)) <= maxHistory P
  /\ Forall (fun x => key x <> currentUrl P pathname query) rest.
Proof.
  intros Hcap Hi Hr e rest.
  rewrite (capture_typed P io pathname query heading now st es Hi Hr).
  fold e. change (key e) with (currentUrl P pathname query).
  rewrite slice_cons by lia. fold rest. split; [reflexivity |]. split.
  - rewrite length_fmap. simpl. unfold rest. rewrite slice_prefix by lia.
    rewrite length_take. lia.
  - unfold rest. rewrite slice_prefix by lia. apply Forall_forall. intros x Hx.
    assert (x ∈ filter (fun x => key x <> currentUrl P pathname query) es) as Hf
      by (eapply elem_of_sublist; [exact Hx | apply sublist_take]).
    now apply list_elem_of_filter in Hf as [Hf _].
Qed.

Lemma write_twice (io : Backend) (ls : gmap string stored) (sk : string)
    (l : list json) (cap : Z) :
  writeHistory io (writeHistory io ls sk l cap) sk l cap = writeHistory io ls sk l cap.
Proof.
  unfold writeHistory. destruct (setItem_throws io); [reflexivity |].
  apply insert_insert_eq.
Qed.

End CaptureThen.

(** X23. The capture is idempotent on a backend that works: with the
    store holding entries and the path not ignored, running the capture
    of a navigation again (same heading, same time) gives the very state
    the first run gave; no entry is doubled.  The cap is at least one. *)
Theorem capture_idempotent (P : Props) (io : Backend) (pathname query : string)
    (heading : option string) (now : Z) (st st1 : State)
    (es : list SidebarHistoryEntry) :
  1 <= maxHistory P -> isIgnored P pathname = false ->
  getItem_throws io = false -> setItem_throws io = false ->
  readHistory io (localStorage st) (storageKey P) (maxHistory P) = entry_json <$> es ->
  capture P io pathname query heading now st = Ok st1 ->
  capture P io pathname query heading now st1 = Ok st1.
Proof.
  intros Hcap Hi Hr Hw Hes H.
  destruct (capture_result P io pathname query heading now st es Hcap Hi Hes)
    as (Hc & Hlen & Hrest).
  cbn zeta in *. rewrite Hc in H. injection H as <-.
  set (e := make_entry P pathname query heading now) in *.
  set (rest := Js.slice (filter (fun x => key x <> currentUrl P pathname query) es) 0
                 (Some (maxHistory P - 1))) in *.
  set (st1 := with_history st _ _).
  assert (Hes1 : readHistory io (localStorage st1) (storageKey P) (maxHistory P)
                 = entry_json <$> e :: rest).
  { unfold st1. cbn [localStorage with_history]. now apply read_after_write. }
  destruct (capture_result P io pathname query heading now st1 (e :: rest) Hcap Hi Hes1)
    as (Hc1 & _). cbn zeta in Hc1. rewrite Hc1. fold e.
  rewrite filter_cons_False by (intros Hk; now apply Hk).
  rewrite (filter_keeps_all _ rest Hrest).
  assert (Hsame : Js.slice rest 0 (Some (maxHistory P - 1)) = rest).
  { apply slice_short. rewrite length_fmap in Hlen. simpl in Hlen. lia. }
  rewrite Hsame. unfold st1. cbn [localStorage with_history].
  rewrite write_twice. reflexivity.
Qed.

Lemma capture_idempotent_witness :
  exists st1,
    capture dashboard_props reliable "/dashboard/a" EmptyString None 1 jane_state = Ok st1
    /\ capture dashboard_props reliable "/dashboard/a" EmptyString None 1 st1 = Ok st1.
Proof.
  destruct (capture dashboard_props reliable "/dashboard/a" EmptyString None 1 jane_state)
    as [st1|] eqn:E; [| vm_compute in E; discriminate].
  exists st1. split; [reflexivity |].
  apply (capture_idempotent dashboard_props reliable "/dashboard/a" EmptyString None 1
           jane_state st1 [jane_entry]); try reflexivity; try exact E.
  unfold dashboard_props, DEFAULT_MAX_HISTORY. simpl. lia.
Defined.

(** X24. The two phases compose to one: with the store holding entries,
    the path not ignored, the backend working and a cap of at least one,
    a capture followed by the refinement for the same navigation with a
    heading [h] leaves the in-memory list and the stored value that the
    capture alone leaves when the heading [h] is there at navigation
    time; the time of the visit is that of the capture. *)
Theorem capture_then_refine (P : Props) (io : Backend) (pathname query h : string)
    (heading0 : option string) (now : Z) (st st1 st2 : State)
    (es : list SidebarHistoryEntry) :
  1 <= maxHistory P -> isIgnored P pathname = false ->
  getItem_throws io = false -> setItem_throws io = false ->
  readHistory io (localStorage st) (storageKey P) (maxHistory P) = entry_json <$> es ->
  h <> EmptyString ->
  capture P io pathname query heading0 now st = Ok st1 ->
  refine P io pathname query (Some h) st1 = Ok st2 ->
  exists s,
    capture P io pathname query (Some h) now st = Ok s
    /\ entries st2 = entries s
    /\ localStorage st2 !! storageKey P = localStorage s !! storageKey P.
Proof.
  intros Hcap Hi Hr Hw Hes Hh H1 H2.
  destruct (capture_result P io pathname query heading0 now st es Hcap Hi Hes)
    as (Hc0 & Hlen & _).
  destruct (capture_result P io pathname query (Some h) now st es Hcap Hi Hes)
    as (Hch & _ & _).
  cbn zeta in *. rewrite Hc0 in H1. injection H1 as <-.
  set (rest := Js.slice (filter (fun x => key x <> currentUrl P pathname query) es) 0
                 (Some (maxHistory P - 1))) in *.
  set (e0 := make_entry P pathname query heading0 now) in *.
  set (eh := make_entry P pathname query (Some h) now) in *.
  eexists. split; [exact Hch |]. cbn [entries localStorage with_history].
  set (st1 := with_history st _ (entry_json <$> e0 :: rest)) in *.
  assert (Hes1 : readHistory io (localStorage st1) (storageKey P) (maxHistory P)
                 = entry_json <$> e0 :: rest).
  { unfold st1. cbn [localStorage with_history]. now apply read_after_write. }
  assert (Hf : first_with_key (currentUrl P pathname query)
                 (readHistory io (localStorage st1) (storageKey P) (maxHistory P))
                 0%nat
                 [("key", JStr (key e0)); ("url", JStr (url e0));
                  ("label", JStr (label e0)); ("visitedAt", JNum (visitedAt e0))]).
  { rewrite Hes1. repeat split. intros m y Hm. lia. }
  assert (Hth : Js.truthy_opt (Some h) = true) by (simpl; now apply truthy_true).
  change (refine P io pathname query (Some h) st1 = Ok st2) in H2.
  rewrite (refine_at P io pathname query (Some h) st1 0%nat _ Hth Hf) in H2.
  rewrite Hes1 in H2. cbn zeta in H2.
  assert (Hw1 : forall l, writeHistory io (localStorage st) (storageKey P) l (maxHistory P)
                          !! storageKey P
                          = Some (Text (JArr (Js.slice l 0 (Some (maxHistory P)))))).
  { intros l. unfold writeHistory. rewrite Hw. apply lookup_insert_eq. }
  cbn [lookup_field List.find fst snd String.eqb Ascii.eqb Bool.eqb fmap option_fmap
         option_map strict_eq_str label e0 make_entry] in H2.
  destruct (String.eqb_spec
              (resolve_label P (make_context P pathname query heading0))
              (resolve_label P (make_context P pathname query (Some h)))) as [Heq|Hne].
  - injection H2 as <-. unfold st1. cbn [entries localStorage with_history].
    assert (e0 = eh) as -> by (unfold e0, eh, make_entry; now rewrite Heq).
    split; reflexivity.
  - injection H2 as <-. cbn [entries localStorage with_history].
    split; [reflexivity |].
    unfold st1. cbn [localStorage with_history].
    unfold writeHistory. rewrite Hw, !lookup_insert_eq. reflexivity.
Qed.

Lemma capture_then_refine_witness :
  exists st1 st2 s,
    capture dashboard_props reliable ("/dashboard/users/" +:+ uuid_example) EmptyString
      None 3 (mount ∅) = Ok st1
    /\ refine dashboard_props reliable ("/dashboard/users/" +:+ uuid_example) EmptyString
         (Some "Jane Doe") st1 = Ok st2
    /\ capture dashboard_props reliable ("/dashboard/users/" +:+ uuid_example) EmptyString
         (Some "Jane Doe") 3 (mount ∅) = Ok s
    /\ entries st2 = entries s.
Proof.
  destruct (capture dashboard_props reliable ("/dashboard/users/" +:+ uuid_example)
              EmptyString None 3 (mount ∅)) as [st1|] eqn:E1;
    [| vm_compute in E1; discriminate].
  destruct (refine dashboard_props reliable ("/dashboard/users/" +:+ uuid_example)
              EmptyString (Some "Jane Doe") st1) as [st2|] eqn:E2.
  2: { vm_compute in E1. injection E1 as <-. vm_compute in E2. discriminate. }
  destruct (capture_then_refine dashboard_props reliable
              ("/dashboard/users/" +:+ uuid_example) EmptyString "Jane Doe" None 3
              (mount ∅) st1 st2 []) as (s & Hs & Hentries & _);
    try reflexivity; try assumption; try discriminate.
  exists st1, st2, s. repeat split; assumption.
Defined.
